(** * GIP Semantic Bridge: a shallow embedding of [src/main.ts]

    The bridge receives JSON messages from a federation relay over a
    WebSocket, forwards [semantic_request]s to an Ollama backend over HTTP,
    caches the answers by request identifier and sends the answer (or an
    error) back over the relay link.

    The embedding follows the source function by function.  The program is
    event driven: every handler runs to its next [await] without
    interruption, so each [async] function is cut at its [await] into the
    part that runs before the backend call is issued and the part that runs
    when the call settles.  The state of the process and what its libraries
    and its runtime do (sockets, timers, HTTP calls, promises, the exit of
    the process) make up a world, and the process moves from world to world
    by the events of its event loop.

    [isAvailable], [listModels] and [initialize], whose [await]s are GETs
    that are answered before the bridge has made a socket, are functions
    suspended on their GETs, apart from the world.  Console output is not
    modelled; of the statistics that [main] logs every 30 seconds only the
    test that decides whether the line is written is. *)

From Stdlib Require Import ZArith List String Bool Lia DecimalString.
From Stdlib Require Import Permutation.
From Stdlib Require Import Floats.SpecFloat.
Import ListNotations.

Local Open Scope string_scope.
Local Open Scope list_scope.
#[local] Set Warnings "-register-all".

(* ------------------------------------------------------------------ *)
(** * JavaScript values                                                 *)
(* ------------------------------------------------------------------ *)

(** ** Numbers: IEEE 754 binary64 *)

Definition number : Type := spec_float.

Definition prec : Z := 53.
Definition emax : Z := 1024.

(** The number denoted by an integer literal. *)
Definition num_of_Z (z : Z) : number := binary_normalize prec emax z 0 false.

Definition js_add : number -> number -> number := SFadd prec emax.
Definition js_sub : number -> number -> number := SFsub prec emax.
Definition js_div : number -> number -> number := SFdiv prec emax.
Definition js_leb : number -> number -> bool := SFleb.
(** [==] on two numbers. *)
Definition js_num_eqb : number -> number -> bool := SFeqb.

(** The literals of the source.  A decimal literal denotes the binary64
    nearest to it, which is what the correctly rounded quotient computes. *)
Definition lit_0 : number := S754_zero false.
Definition lit_40 : number := Eval vm_compute in num_of_Z 40.
Definition lit_0_7 : number :=
  Eval vm_compute in js_div (num_of_Z 7) (num_of_Z 10).
Definition lit_0_9 : number :=
  Eval vm_compute in js_div (num_of_Z 9) (num_of_Z 10).

(** ToBoolean on a number: [+0], [-0] and [NaN] are falsy. *)
Definition num_truthy (n : number) : bool :=
  match n with
  | S754_zero _ | S754_nan => false
  | _ => true
  end.

(** ** Values of type [any]

    [JSON.parse] yields every constructor but [JUndefined]; reading a
    property that an object does not have yields [JUndefined]. *)
Inductive value : Type :=
| JUndefined
| JNull
| JBool (b : bool)
| JNum (n : number)
| JStr (s : string)
| JArr (items : list value)
| JObj (fields : list (string * value)).

(** What a [throw] carries: an [Error] with its name and message. *)
Record JsError : Type := mkError { err_name : string; err_message : string }.

(** Outcome of an expression or call that may throw. *)
Inductive result (A : Type) : Type :=
| Return (a : A)
| Throw (e : JsError).
Arguments Return {A} a.
Arguments Throw {A} e.

Definition TypeError (msg : string) : JsError := mkError "TypeError" msg.
Definition SyntaxError (msg : string) : JsError := mkError "SyntaxError" msg.

(** [String(error)], that is [Error.prototype.toString]. *)
Definition String_of_error (e : JsError) : string :=
  if err_name e =? "" then err_message e
  else if err_message e =? "" then err_name e
  else err_name e ++ ": " ++ err_message e.

(** ToBoolean. *)
Definition truthy (v : value) : bool :=
  match v with
  | JUndefined | JNull => false
  | JBool b => b
  | JNum n => num_truthy n
  | JStr s => negb (s =? "")
  | JArr _ | JObj _ => true
  end.

(** [a || b] where [b] has no effect. *)
Definition js_or (a b : value) : value := if truthy a then a else b.

(** [x || d] for [x : number | undefined]. *)
Definition num_or (x : option number) (d : number) : number :=
  match x with
  | Some n => if num_truthy n then n else d
  | None => d
  end.

Fixpoint assoc {V : Type} (k : string) (fields : list (string * V)) : option V :=
  match fields with
  | [] => None
  | (k', v) :: rest => if k' =? k then Some v else assoc k rest
  end.

(** [v.k] for the property names the bridge reads ([type], [id], [prompt],
    [model], [temperature], [topK], [topP]): none of them is defined on the
    prototype of a primitive, an array or an object, so only an own field of
    an object gives a value, and reading from [null] or [undefined] throws. *)
Definition get_prop (v : value) (k : string) : result value :=
  match v with
  | JUndefined | JNull =>
      Throw (TypeError ("Cannot read properties of null or undefined (reading " ++ k ++ ")"))
  | JObj fields =>
      Return (match assoc k fields with Some x => x | None => JUndefined end)
  | _ => Return JUndefined
  end.

(** [v === s] for a string literal [s]. *)
Definition strict_eq_str (v : value) (s : string) : bool :=
  match v with
  | JStr t => t =? s
  | _ => false
  end.

(** ** [Map]

    A [Map] keeps one entry per key, in insertion order, and compares keys
    with SameValueZero.  Arrays and objects are compared by reference; every
    one the bridge meets comes out of its own [JSON.parse], so two of them
    are never the same. *)
Definition num_same (x y : number) : bool :=
  match SFcompare x y with
  | Some Eq => true
  | Some _ => false
  | None => match x, y with S754_nan, S754_nan => true | _, _ => false end
  end.

Definition same_value_zero (a b : value) : bool :=
  match a, b with
  | JUndefined, JUndefined => true
  | JNull, JNull => true
  | JBool x, JBool y => Bool.eqb x y
  | JNum x, JNum y => num_same x y
  | JStr x, JStr y => x =? y
  | _, _ => false
  end.

Definition JsMap (V : Type) : Type := list (value * V).

Fixpoint Map_get {V : Type} (m : JsMap V) (k : value) : option V :=
  match m with
  | [] => None
  | (k', v) :: rest => if same_value_zero k' k then Some v else Map_get rest k
  end.

Fixpoint Map_set {V : Type} (m : JsMap V) (k : value) (v : V) : JsMap V :=
  match m with
  | [] => [(k, v)]
  | (k', v') :: rest =>
      if same_value_zero k' k then (k', v) :: rest
      else (k', v') :: Map_set rest k v
  end.

Definition Map_size {V : Type} (m : JsMap V) : nat := List.length m.
Definition Map_keys {V : Type} (m : JsMap V) : list value := map fst m.

(** ** JSON text

    A message on the wire is a piece of text.  Text that is JSON is
    represented by the value it denotes, any other text by itself. *)
Inductive payload : Type :=
| Text_json (v : value)
| Text_other (raw : string).

Definition JSON_parse (message : payload) : result value :=
  match message with
  | Text_json v => Return v
  | Text_other raw => Throw (SyntaxError "Unexpected token in JSON")
  end.

(** [JSON.stringify] writes a non-finite number as [null] and [-0] as [0]. *)
Definition json_number (n : number) : value :=
  match n with
  | S754_nan | S754_infinity _ => JNull
  | S754_zero _ => JNum (S754_zero false)
  | S754_finite _ _ _ => JNum n
  end.

(** The value that the text written by [JSON.stringify] denotes: fields
    holding [undefined] are left out, [undefined] in an array becomes
    [null].  [None] is [JSON.stringify(undefined)], which is [undefined]. *)
Fixpoint to_json (v : value) : option value :=
  match v with
  | JUndefined => None
  | JNull => Some JNull
  | JBool b => Some (JBool b)
  | JNum n => Some (json_number n)
  | JStr s => Some (JStr s)
  | JArr items =>
      Some (JArr (map (fun x => match to_json x with
                                | Some j => j
                                | None => JNull
                                end) items))
  | JObj fields =>
      Some (JObj ((fix go (fs : list (string * value)) : list (string * value) :=
                     match fs with
                     | [] => []
                     | (k, x) :: rest =>
                         match to_json x with
                         | Some j => (k, j) :: go rest
                         | None => go rest
                         end
                     end) fields))
  end.

(** [JSON.stringify(v)] for the object literals the bridge sends. *)
Definition JSON_stringify (v : value) : payload :=
  match to_json v with
  | Some j => Text_json j
  | None => Text_other "undefined"
  end.

(* ------------------------------------------------------------------ *)
(** * Configuration and types                                           *)
(* ------------------------------------------------------------------ *)

(** [process.env.NAME || fallback]: an unset or empty variable gives the
    fallback. *)
Definition env_or (x : option string) (fallback : string) : string :=
  match x with
  | Some s => if s =? "" then fallback else s
  | None => fallback
  end.

Record Config : Type := mkConfig {
  FEDERATION_HOST : string;
  FEDERATION_PORT : string;
  BRIDGE_PORT : string;
  OLLAMA_URL : string;
  SEMANTIC_MODEL : string
}.

Definition configuration (env : string -> option string) : Config :=
  {| FEDERATION_HOST := env_or (env "FEDERATION_HOST") "localhost";
     FEDERATION_PORT := env_or (env "FEDERATION_PORT") "8810";
     BRIDGE_PORT := env_or (env "BRIDGE_PORT") "8811";
     OLLAMA_URL := env_or (env "OLLAMA_URL") "http://localhost:11434";
     SEMANTIC_MODEL := env_or (env "SEMANTIC_MODEL") "mistral" |}.

(** The interfaces of the source.  The fields read out of a parsed message
    are not checked against their declared types, so they hold values of
    type [any]. *)
Module SemanticRequest.
Record t : Type := make {
  id : value;
  prompt : value;
  model : value;
  temperature : value;
  topK : value;
  topP : value;
  timestamp : number
}.
End SemanticRequest.

Module Tokens.
Record t : Type := make {
  prompt : number;
  completion : number;
  total : number
}.
End Tokens.

Module SemanticResponse.
Record t : Type := make {
  id : value;
  prompt : value;
  model : value;
  response : value;
  tokens : Tokens.t;
  processingTime : number;
  timestamp : number
}.

(** The own fields of a response, as object spread copies them. *)
Definition fields (r : t) : list (string * value) :=
  [ ("id", id r);
    ("prompt", prompt r);
    ("model", model r);
    ("response", response r);
    ("tokens", JObj [ ("prompt", JNum (Tokens.prompt (tokens r)));
                      ("completion", JNum (Tokens.completion (tokens r)));
                      ("total", JNum (Tokens.total (tokens r))) ]);
    ("processingTime", JNum (processingTime r));
    ("timestamp", JNum (timestamp r)) ].
End SemanticResponse.

Module OllamaMessage.
Inductive role : Type := user | assistant | system.
Record t : Type := make { role_of : role; content : string }.

Definition role_name (r : role) : string :=
  match r with
  | user => "user"
  | assistant => "assistant"
  | system => "system"
  end.

Definition to_value (m : t) : value :=
  JObj [ ("role", JStr (role_name (role_of m))); ("content", JStr (content m)) ].
End OllamaMessage.

(* ------------------------------------------------------------------ *)
(** * Ollama integration                                                *)
(* ------------------------------------------------------------------ *)

(** A call [axios.post(url, body, { timeout })]. *)
Record HttpPost : Type := mkPost {
  post_url : string;
  post_body : list (string * value);
  post_timeout : Z
}.

(** [response.data] of [/api/generate] and of [/api/chat], at the type the
    backend documents: a count that is present is a number. *)
Record GenerateData : Type := mkGenerateData {
  data_response : value;
  prompt_eval_count : option number;
  eval_count : option number
}.

Record ChatData : Type := mkChatData {
  data_message_content : value;
  chat_prompt_eval_count : option number;
  chat_eval_count : option number
}.

Module OllamaClient.
Record t : Type := make {
  baseUrl : string;
  model : string;
  requestTimeout : Z
}.

(** [constructor(baseUrl, model, timeout = 60000)] *)
Definition new (baseUrl model : string) : t := make baseUrl model 60000.

(** ** [generate], up to its [await]

    The template literal of the log line calls [request.prompt.substring],
    which throws a [TypeError] unless the prompt is a string: reading
    [substring] from [undefined] or [null] throws, and on any other value
    that is not a string [substring] is not a function.  The [catch]
    rethrows it.  Otherwise the POST is issued. *)
Definition generate_call (c : t) (request : SemanticRequest.t) : result HttpPost :=
  match SemanticRequest.prompt request with
  | JStr _ =>
      Return
        {| post_url := baseUrl c ++ "/api/generate";
           post_body :=
             [ ("model", js_or (SemanticRequest.model request) (JStr (model c)));
               ("prompt", SemanticRequest.prompt request);
               ("temperature", js_or (SemanticRequest.temperature request) (JNum lit_0_7));
               ("top_k", js_or (SemanticRequest.topK request) (JNum lit_40));
               ("top_p", js_or (SemanticRequest.topP request) (JNum lit_0_9));
               ("stream", JBool false) ];
           post_timeout := requestTimeout c |}
  | JUndefined =>
      Throw (TypeError "Cannot read properties of undefined (reading 'substring')")
  | JNull =>
      Throw (TypeError "Cannot read properties of null (reading 'substring')")
  | _ => Throw (TypeError "request.prompt.substring is not a function")
  end.

(** ** [generate], from the moment the POST settles

    [startTime] was read before the call.  The clock is read twice more:
    [now] is [Date.now()] as read for [processingTime] and [later] is
    [Date.now()] as read for [timestamp].  A failed call is rethrown. *)
Definition generate_settled (c : t) (request : SemanticRequest.t)
    (startTime : number) (reply : result GenerateData) (now later : number)
  : result SemanticResponse.t :=
  match reply with
  | Throw error => Throw error
  | Return data =>
      let processingTime := js_sub now startTime in
      Return
        {| SemanticResponse.id := SemanticRequest.id request;
           SemanticResponse.prompt := SemanticRequest.prompt request;
           SemanticResponse.model :=
             js_or (SemanticRequest.model request) (JStr (model c));
           SemanticResponse.response := data_response data;
           SemanticResponse.tokens :=
             {| Tokens.prompt := num_or (prompt_eval_count data) lit_0;
                Tokens.completion := num_or (eval_count data) lit_0;
                Tokens.total :=
                  js_add (num_or (prompt_eval_count data) lit_0)
                         (num_or (eval_count data) lit_0) |};
           SemanticResponse.processingTime := processingTime;
           SemanticResponse.timestamp := later |}
  end.

(** ** [chat], up to its [await] *)
Definition chat_call (c : t) (messages : list OllamaMessage.t)
    (request : SemanticRequest.t) : result HttpPost :=
  Return
    {| post_url := baseUrl c ++ "/api/chat";
       post_body :=
         [ ("model", js_or (SemanticRequest.model request) (JStr (model c)));
           ("messages", JArr (map OllamaMessage.to_value messages));
           ("temperature", js_or (SemanticRequest.temperature request) (JNum lit_0_7));
           ("stream", JBool false) ];
       post_timeout := requestTimeout c |}.

(** ** [chat], from the moment the POST settles

    [now] and [later] are the two readings of the clock, as in
    [generate]. *)
Definition chat_settled (c : t) (request : SemanticRequest.t)
    (startTime : number) (reply : result ChatData) (now later : number)
  : result SemanticResponse.t :=
  match reply with
  | Throw error => Throw error
  | Return data =>
      let processingTime := js_sub now startTime in
      Return
        {| SemanticResponse.id := SemanticRequest.id request;
           SemanticResponse.prompt := SemanticRequest.prompt request;
           SemanticResponse.model :=
             js_or (SemanticRequest.model request) (JStr (model c));
           SemanticResponse.response := data_message_content data;
           SemanticResponse.tokens :=
             {| Tokens.prompt := num_or (chat_prompt_eval_count data) lit_0;
                Tokens.completion := num_or (chat_eval_count data) lit_0;
                Tokens.total :=
                  js_add (num_or (chat_prompt_eval_count data) lit_0)
                         (num_or (chat_eval_count data) lit_0) |};
           SemanticResponse.processingTime := processingTime;
           SemanticResponse.timestamp := later |}
  end.
End OllamaClient.

(* ------------------------------------------------------------------ *)
(** * The bridge and the world it runs in                               *)
(* ------------------------------------------------------------------ *)

(** ** Relay sockets ([ws]) *)

Definition CONNECTING : Z := 0.
Definition OPEN : Z := 1.
Definition CLOSING : Z := 2.
Definition CLOSED : Z := 3.

(** A [WebSocket] object. *)
Record WebSocket : Type := mkSocket {
  url : string;
  readyState : Z
}.

(** The promise returned by one call of [connectToFederation]. *)
Inductive promise : Type :=
| Pending
| Resolved
| Rejected (reason : JsError).

Record Attempt : Type := mkAttempt {
  attempt_socket : option nat;
  attempt_promise : promise
}.

(** What a suspended [processRequest] holds while its POST is in flight. *)
Record InFlight : Type := mkInFlight {
  call_request : SemanticRequest.t;
  call_startTime : number
}.

Module SemanticBridge.
(** The fields of the class.  [federationConnection] refers to a socket of
    the world by its position, [None] is [null]. *)
Record t : Type := make {
  ollama : OllamaClient.t;
  federationConnection : option nat;
  messageCache : JsMap SemanticResponse.t;
  processingQueue : list SemanticRequest.t
}.

(** [constructor()] *)
Definition new (cfg : Config) : t :=
  make (OllamaClient.new (OLLAMA_URL cfg) (SEMANTIC_MODEL cfg)) None [] [].
End SemanticBridge.

(** The state of the process and of what surrounds it.
    - [ws_accepts] tells whether [new WebSocket(url)] accepts the address
      (it throws on an invalid one);
    - [unhandled_rejections_exit] tells whether the runtime ends the process
      when a promise is rejected and nothing handles the rejection, as
      Node.js does by default since its version 15;
    - [uuid_source] is the sequence of identifiers [uuidv4()] returns;
    - [sockets] are the sockets created so far, a socket is named by its
      position;
    - [wire] lists the frames handed to [send], oldest first, each with the
      socket it was sent on;
    - [posts] are the POSTs issued so far, a call is named by its position,
      and [awaiting] holds the calls that have not settled;
    - [timeouts] are the delays of the [setTimeout] calls made so far, of
      which the first [timers_fired] have run;
    - [attempts] are the calls of [connectToFederation] made so far, the
      first of them by [initialize];
    - [exited] is the exit code of the process once it has ended. *)
Record World : Type := mkWorld {
  config : Config;
  ws_accepts : string -> bool;
  unhandled_rejections_exit : bool;
  uuid_source : nat -> string;
  uuid_drawn : nat;
  clock : number;
  bridge : SemanticBridge.t;
  sockets : list WebSocket;
  wire : list (nat * payload);
  posts : list HttpPost;
  awaiting : list (nat * InFlight);
  timeouts : list Z;
  timers_fired : nat;
  attempts : list Attempt;
  exited : option Z
}.

Definition with_uuid_drawn (n : nat) (w : World) : World :=
  mkWorld (config w) (ws_accepts w) (unhandled_rejections_exit w)
    (uuid_source w) n (clock w) (bridge w) (sockets w) (wire w) (posts w)
    (awaiting w) (timeouts w) (timers_fired w) (attempts w) (exited w).

Definition with_clock (t : number) (w : World) : World :=
  mkWorld (config w) (ws_accepts w) (unhandled_rejections_exit w)
    (uuid_source w) (uuid_drawn w) t (bridge w) (sockets w) (wire w)
    (posts w) (awaiting w) (timeouts w) (timers_fired w) (attempts w)
    (exited w).

Definition with_bridge (b : SemanticBridge.t) (w : World) : World :=
  mkWorld (config w) (ws_accepts w) (unhandled_rejections_exit w)
    (uuid_source w) (uuid_drawn w) (clock w) b (sockets w) (wire w) (posts w)
    (awaiting w) (timeouts w) (timers_fired w) (attempts w) (exited w).

Definition with_sockets (s : list WebSocket) (w : World) : World :=
  mkWorld (config w) (ws_accepts w) (unhandled_rejections_exit w)
    (uuid_source w) (uuid_drawn w) (clock w) (bridge w) s (wire w) (posts w)
    (awaiting w) (timeouts w) (timers_fired w) (attempts w) (exited w).

Definition with_wire (f : list (nat * payload)) (w : World) : World :=
  mkWorld (config w) (ws_accepts w) (unhandled_rejections_exit w)
    (uuid_source w) (uuid_drawn w) (clock w) (bridge w) (sockets w) f
    (posts w) (awaiting w) (timeouts w) (timers_fired w) (attempts w)
    (exited w).

Definition with_calls (p : list HttpPost) (a : list (nat * InFlight))
    (w : World) : World :=
  mkWorld (config w) (ws_accepts w) (unhandled_rejections_exit w)
    (uuid_source w) (uuid_drawn w) (clock w) (bridge w) (sockets w) (wire w)
    p a (timeouts w) (timers_fired w) (attempts w) (exited w).

Definition with_timers (t : list Z) (fired : nat) (w : World) : World :=
  mkWorld (config w) (ws_accepts w) (unhandled_rejections_exit w)
    (uuid_source w) (uuid_drawn w) (clock w) (bridge w) (sockets w) (wire w)
    (posts w) (awaiting w) t fired (attempts w) (exited w).

Definition with_attempts (a : list Attempt) (w : World) : World :=
  mkWorld (config w) (ws_accepts w) (unhandled_rejections_exit w)
    (uuid_source w) (uuid_drawn w) (clock w) (bridge w) (sockets w) (wire w)
    (posts w) (awaiting w) (timeouts w) (timers_fired w) a (exited w).

Definition with_exited (code : option Z) (w : World) : World :=
  mkWorld (config w) (ws_accepts w) (unhandled_rejections_exit w)
    (uuid_source w) (uuid_drawn w) (clock w) (bridge w) (sockets w) (wire w)
    (posts w) (awaiting w) (timeouts w) (timers_fired w) (attempts w) code.

Definition with_federationConnection (c : option nat) (b : SemanticBridge.t)
  : SemanticBridge.t :=
  SemanticBridge.make (SemanticBridge.ollama b) c
                      (SemanticBridge.messageCache b)
                      (SemanticBridge.processingQueue b).

Definition with_messageCache (m : JsMap SemanticResponse.t)
    (b : SemanticBridge.t) : SemanticBridge.t :=
  SemanticBridge.make (SemanticBridge.ollama b)
                      (SemanticBridge.federationConnection b) m
                      (SemanticBridge.processingQueue b).

Definition with_processingQueue (q : list SemanticRequest.t)
    (b : SemanticBridge.t) : SemanticBridge.t :=
  SemanticBridge.make (SemanticBridge.ollama b)
                      (SemanticBridge.federationConnection b)
                      (SemanticBridge.messageCache b) q.

(** The world in which [new SemanticBridge()] has just run. *)
Definition boot (cfg : Config) (accepts : string -> bool) (fatal : bool)
    (uuids : nat -> string) (now : number) : World :=
  mkWorld cfg accepts fatal uuids 0 now (SemanticBridge.new cfg) [] [] [] [] []
          0 [] None.

(** ** Code that reads and writes the world and may throw *)

Definition M (A : Type) : Type := World -> result A * World.

Definition ret {A : Type} (a : A) : M A := fun w => (Return a, w).

Definition bind {A B : Type} (m : M A) (k : A -> M B) : M B :=
  fun w =>
    match m w with
    | (Return a, w') => k a w'
    | (Throw e, w') => (Throw e, w')
    end.

(** [try { m } catch (error) { handler }] *)
Definition try_catch {A : Type} (m : M A) (handler : JsError -> M A) : M A :=
  fun w =>
    match m w with
    | (Return a, w') => (Return a, w')
    | (Throw e, w') => handler e w'
    end.

Definition lift {A : Type} (r : result A) : M A := fun w => (r, w).

Definition modify (f : World -> World) : M unit := fun w => (Return tt, f w).

Declare Scope js_scope.
Delimit Scope js_scope with js.
Notation "x <- m ;; k" := (bind m (fun x => k))
  (at level 61, m at next level, right associativity) : js_scope.
Notation "m ;; k" := (bind m (fun _ => k))
  (at level 61, right associativity) : js_scope.
Local Open Scope js_scope.

Definition Date_now : M number := fun w => (Return (clock w), w).

Definition uuidv4 : M string :=
  fun w => (Return (uuid_source w (uuid_drawn w)),
            with_uuid_drawn (S (uuid_drawn w)) w).

(** Replace the element at position [i]; nothing happens out of range. *)
Fixpoint list_update {A : Type} (i : nat) (x : A) (l : list A) : list A :=
  match l, i with
  | [], _ => []
  | _ :: rest, O => x :: rest
  | y :: rest, S j => y :: list_update j x rest
  end.

(** [this.federationConnection?.readyState === 1] *)
Definition link_open (w : World) : option nat :=
  match SemanticBridge.federationConnection (bridge w) with
  | None => None
  | Some s =>
      match nth_error (sockets w) s with
      | Some sock => if readyState sock =? OPEN then Some s else None
      | None => None
      end
  end%Z.

(** [socket.send(frame)] on the socket at position [s]. *)
Definition socket_send (s : nat) (frame : payload) (w : World) : World :=
  with_wire (wire w ++ [(s, frame)]) w.

(** [if (this.federationConnection?.readyState === 1)
       this.federationConnection.send(JSON.stringify(message))];
    the message is built, with the clock it reads, only when the test
    passes. *)
Definition send_if_open (message : M value) : M unit :=
  fun w =>
    match link_open w with
    | Some s =>
        (v <- message ;; modify (socket_send s (JSON_stringify v))) w
    | None => (Return tt, w)
    end.

(** ** [processRequest]

    [try { response = await generate(request); ... } catch (error) { ... }]
    is cut at the [await].  [processRequest_then] is the rest of the [try]
    block, [processRequest_catch] is the [catch] block. *)
Definition semantic_response (response : SemanticResponse.t) : value :=
  JObj (("type", JStr "semantic_response") :: SemanticResponse.fields response).

Definition semantic_error (request : SemanticRequest.t) (error : JsError)
    (now : number) : value :=
  JObj [ ("type", JStr "semantic_error");
         ("id", SemanticRequest.id request);
         ("error", JStr (String_of_error error));
         ("timestamp", JNum now) ].

(** [this.messageCache.set(id, response)] *)
Definition cache_set (id : value) (response : SemanticResponse.t)
    (b : SemanticBridge.t) : SemanticBridge.t :=
  with_messageCache (Map_set (SemanticBridge.messageCache b) id response) b.

Definition processRequest_then (request : SemanticRequest.t)
    (response : SemanticResponse.t) : M unit :=
  modify (fun w =>
    with_bridge (cache_set (SemanticRequest.id request) response (bridge w)) w) ;;
  send_if_open (ret (semantic_response response)).

Definition processRequest_catch (request : SemanticRequest.t)
    (error : JsError) : M unit :=
  send_if_open (now <- Date_now ;; ret (semantic_error request error now)).

(** [await axios.post(...)]: the POST goes out and the caller is suspended
    until the call settles. *)
Definition await_post (post : HttpPost) (k : InFlight) : M unit :=
  modify (fun w =>
    with_calls (posts w ++ [post])
               (awaiting w ++ [(List.length (posts w), k)]) w).

Definition this_ollama : M OllamaClient.t :=
  fun w => (Return (SemanticBridge.ollama (bridge w)), w).

(** [processRequest] up to the [await] inside [generate]. *)
Definition processRequest (request : SemanticRequest.t) : M unit :=
  try_catch
    (startTime <- Date_now ;;
     c <- this_ollama ;;
     post <- lift (OllamaClient.generate_call c request) ;;
     await_post post (mkInFlight request startTime))
    (processRequest_catch request).

(** [processRequest] from the moment the POST settles.  [generate] reads
    the clock twice in the turn of the event loop that resumes it; the
    clock of the world advances between turns only. *)
Definition processRequest_settled (k : InFlight)
    (reply : result GenerateData) : M unit :=
  try_catch
    (now <- Date_now ;;
     later <- Date_now ;;
     c <- this_ollama ;;
     response <- lift (OllamaClient.generate_settled
                         c (call_request k) (call_startTime k) reply now later) ;;
     processRequest_then (call_request k) response)
    (processRequest_catch (call_request k)).

(** ** [handleFederationMessage] *)

(** [this.processingQueue.push(request)] *)
Definition queue_push (request : SemanticRequest.t) (b : SemanticBridge.t)
  : SemanticBridge.t :=
  with_processingQueue (SemanticBridge.processingQueue b ++ [request]) b.

(** The object literal that becomes the request: [data.id || uuidv4()]
    calls [uuidv4] only when [data.id] is falsy. *)
Definition build_request (data : value) : M SemanticRequest.t :=
  id0 <- lift (get_prop data "id") ;;
  id <- (if truthy id0 then ret id0 else (u <- uuidv4 ;; ret (JStr u))) ;;
  prompt <- lift (get_prop data "prompt") ;;
  model <- lift (get_prop data "model") ;;
  temperature <- lift (get_prop data "temperature") ;;
  topK <- lift (get_prop data "topK") ;;
  topP <- lift (get_prop data "topP") ;;
  now <- Date_now ;;
  ret (SemanticRequest.make id prompt model temperature topK topP now).

Definition handleFederationMessage (message : payload) : M unit :=
  try_catch
    (data <- lift (JSON_parse message) ;;
     type <- lift (get_prop data "type") ;;
     if negb (truthy type) then ret tt
     else if strict_eq_str type "semantic_request" then
       request <- build_request data ;;
       modify (fun w => with_bridge (queue_push request (bridge w)) w) ;;
       processRequest request
     else ret tt)
    (fun error => ret tt).

(** ** [connectToFederation]

    [new WebSocket(url)] either throws, and the [catch] rejects the promise,
    or gives a socket in state CONNECTING, which is stored in
    [federationConnection] and gets the four handlers. *)
Definition federation_url (cfg : Config) : string :=
  "ws://" ++ FEDERATION_HOST cfg ++ ":" ++ FEDERATION_PORT cfg.

(** [process.exit(code)] *)
Definition process_exit (code : Z) : M unit :=
  modify (with_exited (Some code)).

(** What follows the rejection of the promise of the attempt at position
    [i].  The first attempt is awaited by [initialize], which [main] awaits
    in a [try] whose [catch] calls [process.exit(1)].  The later attempts are
    started by a timer and nothing handles their rejection.  The process
    ends before the event loop takes its next turn; here it ends at once,
    so that a timer which a handler of the same turn would still set is not
    recorded: it could never fire. *)
Definition rejection (i : nat) : M unit :=
  fun w =>
    match i with
    | O => process_exit 1 w
    | S _ =>
        if unhandled_rejections_exit w then process_exit 1 w
        else (Return tt, w)
    end.

Definition connectToFederation : M unit :=
  fun w =>
    let url := federation_url (config w) in
    if ws_accepts w url then
      let s := List.length (sockets w) in
      (Return tt,
       with_attempts (attempts w ++ [mkAttempt (Some s) Pending])
         (with_bridge (with_federationConnection (Some s) (bridge w))
            (with_sockets (sockets w ++ [mkSocket url CONNECTING]) w)))
    else
      rejection (List.length (attempts w))
        (with_attempts
           (attempts w ++
              [mkAttempt None (Rejected (SyntaxError ("Invalid URL: " ++ url)))])
           w).

(** [resolve()] and [reject(error)] of the promise whose executor created
    the socket [s]: a promise is settled once. *)
Definition settle (s : nat) (outcome : promise) (a : Attempt) : Attempt :=
  match attempt_socket a, attempt_promise a with
  | Some s', Pending => if Nat.eqb s' s then mkAttempt (Some s') outcome else a
  | _, _ => a
  end.

(** The position of the attempt that created the socket [s], when its
    promise is still pending; [i] is the position of the first of [a]. *)
Fixpoint pending_attempt (s : nat) (a : list Attempt) (i : nat) : option nat :=
  match a with
  | [] => None
  | x :: rest =>
      match attempt_socket x, attempt_promise x with
      | Some s', Pending =>
          if Nat.eqb s' s then Some i else pending_attempt s rest (S i)
      | _, _ => pending_attempt s rest (S i)
      end
  end.

Definition on_open (s : nat) : M unit :=
  modify (fun w => with_attempts (map (settle s Resolved) (attempts w)) w).

Definition on_message (data : payload) : M unit :=
  handleFederationMessage data.

Definition on_error (s : nat) (error : JsError) : M unit :=
  fun w =>
    let w' := with_attempts (map (settle s (Rejected error)) (attempts w)) w in
    match pending_attempt s (attempts w) 0 with
    | Some i => rejection i w'
    | None => (Return tt, w')
    end.

(** [setTimeout(() => this.connectToFederation(), 5000)] *)
Definition on_close : M unit :=
  modify (fun w => with_timers (timeouts w ++ [5000%Z]) (timers_fired w) w).

(** ** [getResponse] and [getStats] *)
Definition getResponse (b : SemanticBridge.t) (id : string)
  : option SemanticResponse.t :=
  Map_get (SemanticBridge.messageCache b) (JStr id).

Record Stats : Type := mkStats {
  queueLength : nat;
  cacheSize : nat;
  cachedResponses : list value
}.

Definition getStats (b : SemanticBridge.t) : Stats :=
  {| queueLength := List.length (SemanticBridge.processingQueue b);
     cacheSize := Map_size (SemanticBridge.messageCache b);
     cachedResponses := Map_keys (SemanticBridge.messageCache b) |}.

(* ------------------------------------------------------------------ *)
(** * The event loop                                                    *)
(* ------------------------------------------------------------------ *)

(** What can happen to the process.  The socket library changes
    [readyState] before it emits an event: to OPEN for [open], to CLOSING
    for [error], to CLOSED for [close]; a socket emits [open] only while
    CONNECTING, [message] only while OPEN or CLOSING, and nothing once it is
    CLOSED. *)
Inductive Event : Type :=
| Initialize
| WsOpen (s : nat)
| WsMessage (s : nat) (data : payload)
| WsError (s : nat) (error : JsError)
| WsClose (s : nat)
| HttpSettled (call : nat) (reply : result GenerateData)
| TimerFired
| ClockAdvanced (now : number).

Definition set_readyState (s : nat) (state : Z) (w : World) : World :=
  match nth_error (sockets w) s with
  | Some sock =>
      with_sockets
        (list_update s (mkSocket (url sock) state) (sockets w)) w
  | None => w
  end.

Definition socket_state (w : World) (s : nat) : option Z :=
  option_map readyState (nth_error (sockets w) s).

(** The socket [s] exists and its [readyState] is one of [states]. *)
Definition socket_in (w : World) (s : nat) (states : list Z) : bool :=
  match socket_state w s with
  | Some st => existsb (Z.eqb st) states
  | None => false
  end.

Fixpoint take_call (call : nat) (a : list (nat * InFlight))
  : option (InFlight * list (nat * InFlight)) :=
  match a with
  | [] => None
  | (c, k) :: rest =>
      if Nat.eqb c call then Some (k, rest)
      else match take_call call rest with
           | Some (k', rest') => Some (k', (c, k) :: rest')
           | None => None
           end
  end.

(** The handler an event triggers, with what the libraries do before they
    call it.  An event that cannot happen in the current state leaves it as
    it is.  [Initialize] is [main] calling [initialize]. *)
Definition handle (e : Event) : M unit :=
  fun w =>
    match e with
    | Initialize =>
        match attempts w with
        | [] => connectToFederation w
        | _ :: _ => (Return tt, w)
        end
    | WsOpen s =>
        if socket_in w s [CONNECTING]
        then on_open s (set_readyState s OPEN w)
        else (Return tt, w)
    | WsMessage s data =>
        if socket_in w s [OPEN; CLOSING]
        then on_message data w
        else (Return tt, w)
    | WsError s error =>
        if socket_in w s [CONNECTING; OPEN; CLOSING]
        then on_error s error (set_readyState s CLOSING w)
        else (Return tt, w)
    | WsClose s =>
        if socket_in w s [CONNECTING; OPEN; CLOSING]
        then on_close (set_readyState s CLOSED w)
        else (Return tt, w)
    | HttpSettled call reply =>
        match take_call call (awaiting w) with
        | Some (k, rest) =>
            processRequest_settled k reply (with_calls (posts w) rest w)
        | None => (Return tt, w)
        end
    | TimerFired =>
        if Nat.ltb (timers_fired w) (List.length (timeouts w))
        then connectToFederation
               (with_timers (timeouts w) (S (timers_fired w)) w)
        else (Return tt, w)
    | ClockAdvanced now => (Return tt, with_clock now w)
    end.

(** One turn of the event loop; nothing happens once the process has
    ended. *)
Definition dispatch (e : Event) : M unit :=
  fun w =>
    match exited w with
    | Some _ => (Return tt, w)
    | None => handle e w
    end.

Definition step (w : World) (e : Event) : World := snd (dispatch e w).

Definition run (w : World) (es : list Event) : World := fold_left step es w.

(* ------------------------------------------------------------------ *)
(** * Startup: [isAvailable], [listModels], [initialize]                *)
(* ------------------------------------------------------------------ *)

(** A call [axios.get(url, { timeout })], and the response that the server
    gives to it: its status, whatever it is, and its body, parsed when it
    is JSON. *)
Record HttpGet : Type := mkGet {
  get_url : string;
  get_timeout : Z
}.

Record HttpResponse : Type := mkResponse {
  response_status : Z;
  response_data : value
}.

(** An [async] function whose [await]s are GETs: it has returned, or it is
    suspended on a GET with what it does once the GET has come back, with
    the response of the server or with a failure (no connection, a
    timeout). *)
Inductive Async (A : Type) : Type :=
| Done (a : A)
| Await (get : HttpGet) (k : result HttpResponse -> Async A).
Arguments Done {A} a.
Arguments Await {A} get k.

(** [const x = await m; f(x)] *)
Fixpoint async_bind {A B : Type} (m : Async A) (f : A -> Async B) : Async B :=
  match m with
  | Done a => f a
  | Await get k => Await get (fun reply => async_bind (k reply) f)
  end.

(** The GETs an [async] function issues when its GETs come back with
    [replies], in order, and what it returns if they suffice. *)
Fixpoint settle_gets {A : Type} (m : Async A)
    (replies : list (result HttpResponse)) : list HttpGet * option A :=
  match m with
  | Done a => ([], Some a)
  | Await get k =>
      match replies with
      | [] => ([get], None)
      | reply :: rest =>
          (get :: fst (settle_gets (k reply) rest),
           snd (settle_gets (k reply) rest))
      end
  end.

(** [axios.get(`${this.baseUrl}/api/tags`, { timeout: 5000 })] *)
Definition tags_request (c : OllamaClient.t) : HttpGet :=
  mkGet (OllamaClient.baseUrl c ++ "/api/tags") 5000.

(** [await axios.get(...)]: with its default [validateStatus], [axios]
    resolves the promise with a response whose status is from 200 to 299
    and rejects it, with an [AxiosError], for a response of any other
    status, as it does when the GET fails. *)
Definition axios_settled (reply : result HttpResponse) : result HttpResponse :=
  match reply with
  | Return response =>
      if ((200 <=? response_status response)
          && (response_status response <? 300))%Z
      then Return response
      else
        Throw (mkError "AxiosError"
                 ("Request failed with status code " ++
                  NilZero.string_of_int (Z.to_int (response_status response))))
  | Throw e => Throw e
  end.

(** [isAvailable]: [response.status === 200], and [false] when the promise
    is rejected. *)
Definition isAvailable (c : OllamaClient.t) : Async bool :=
  Await (tags_request c) (fun reply =>
    Done match axios_settled reply with
         | Return response => (response_status response =? 200)%Z
         | Throw _ => false
         end).

(** [models.map((m) => m.name)] on an array.  Like the property names of
    the relay messages, [name] and [models] are defined on no prototype of
    a value that JSON denotes; reading [name] from [null] throws. *)
Fixpoint map_name (models : list value) : result (list value) :=
  match models with
  | [] => Return []
  | m :: rest =>
      match get_prop m "name" with
      | Throw e => Throw e
      | Return n =>
          match map_name rest with
          | Return ns => Return (n :: ns)
          | Throw e => Throw e
          end
      end
  end.

(** [response.data.models?.map((m) => m.name) || []]: a missing or [null]
    [models] gives [undefined], which [||] replaces; an array, empty or
    not, is truthy; any other value has no [map] to call. *)
Definition model_names (response : HttpResponse) : result (list value) :=
  match get_prop (response_data response) "models" with
  | Throw e => Throw e
  | Return (JUndefined | JNull) => Return []
  | Return (JArr models) => map_name models
  | Return _ => Throw (TypeError "response.data.models.map is not a function")
  end.

(** [listModels]: the [catch] returns the empty list. *)
Definition listModels (c : OllamaClient.t) : Async (list value) :=
  Await (tags_request c) (fun reply =>
    Done match axios_settled reply with
         | Return response =>
             match model_names response with
             | Return listed => listed
             | Throw _ => []
             end
         | Throw _ => []
         end).

(** [initialize], up to its call of [connectToFederation]: what it returns
    here is that call, which the process makes once the GETs have settled.
    The lines it logs cannot throw. *)
Definition initialize (b : SemanticBridge.t) : Async (M unit) :=
  async_bind (isAvailable (SemanticBridge.ollama b)) (fun ollamaAvailable =>
    if negb ollamaAvailable then Done connectToFederation
    else
      async_bind (listModels (SemanticBridge.ollama b)) (fun _ =>
        Done connectToFederation)).

(** The callback that [main] gives to [setInterval]: whether it writes its
    line.  *)
Definition stats_logged (b : SemanticBridge.t) : bool :=
  let stats := getStats b in
  Nat.ltb 0 (queueLength stats) || Nat.ltb 0 (cacheSize stats).

(* ------------------------------------------------------------------ *)
(** * Vocabulary of the properties                                      *)
(* ------------------------------------------------------------------ *)

(** ** The cache *)

(** Insertions into the cache of a fresh bridge, in order. *)
Definition cache_after (cfg : Config) (puts : list (string * SemanticResponse.t))
  : SemanticBridge.t :=
  fold_left (fun b p => cache_set (JStr (fst p)) (snd p) b) puts
            (SemanticBridge.new cfg).

(** The world with [c] in place of the cache. *)
Definition recache (c : JsMap SemanticResponse.t) (w : World) : World :=
  with_bridge (with_messageCache c (bridge w)) w.

(** Code that neither reads nor writes the cache. *)
Definition cache_blind {A : Type} (m : M A) : Prop :=
  forall c w, m (recache c w) = (fst (m w), recache c (snd (m w))).

(** ** Token counts *)

(** A token count as the backend reports it: an integer, or no field. *)
Definition count (x : option Z) : option number := option_map num_of_Z x.

(** The integer a count stands for, a missing one standing for 0. *)
Definition count_value (x : option Z) : Z :=
  match x with
  | Some z => z
  | None => 0%Z
  end.

(** The number a count stands for. *)
Definition count_or_zero (x : option Z) : number :=
  match x with
  | Some z => num_of_Z z
  | None => lit_0
  end.

(** [tokens.total == tokens.prompt + tokens.completion], with the fields
    holding the counts [p] and [q]: the total is the binary64 sum of the two
    fields, and it is their exact sum as long as that is below [2 ^ 53]. *)
Definition accounted (p q : option Z) (t : Tokens.t) : Prop :=
  Tokens.prompt t = count_or_zero p /\
  Tokens.completion t = count_or_zero q /\
  Tokens.total t = js_add (Tokens.prompt t) (Tokens.completion t) /\
  js_num_eqb (Tokens.total t) (js_add (Tokens.prompt t) (Tokens.completion t))
  = true /\
  ((count_value p + count_value q < 2 ^ 53)%Z ->
   Tokens.total t = num_of_Z (count_value p + count_value q)).

(** Numbers that are neither negative nor [NaN]. *)
Definition nonneg_num (n : number) : Prop :=
  match n with
  | S754_zero false | S754_infinity false | S754_finite false _ _ => True
  | _ => False
  end.

(** The number of binary digits of a positive integer. *)
Definition digits (z : Z) : Z := (Z.log2 z + 1)%Z.

(** The binary64 with 53 digits of mantissa that is the integer [z]. *)
Definition canonical (z : Z) : number :=
  S754_finite false (Z.to_pos (z * 2 ^ (53 - digits z))) (digits z - 53)%Z.

(** ** Messages and frames *)

(** A payload that is not JSON, or is JSON without a [type] field. *)
Definition malformed (message : payload) : Prop :=
  match JSON_parse message with
  | Throw _ => True
  | Return (JObj fields) => assoc "type" fields = None
  | Return _ => True
  end.

(** An inbound [semantic_request] with the fields the relay protocol
    requires, carrying the identifier [id]. *)
Definition semantic_request (fields : list (string * value))
    (id prompt : string) : Prop :=
  assoc "type" fields = Some (JStr "semantic_request") /\
  assoc "id" fields = Some (JStr id) /\
  assoc "prompt" fields = Some (JStr prompt).

(** [data.k] for an object with the fields [fields]. *)
Definition field (fields : list (string * value)) (k : string) : value :=
  match assoc k fields with
  | Some x => x
  | None => JUndefined
  end.

(** A field of a JSON frame. *)
Definition frame_field (frame : payload) (k : string) : option value :=
  match frame with
  | Text_json (JObj fields) => assoc k fields
  | _ => None
  end.

(** What the guarded [send] of [processRequest] does to the world. *)
Definition relay_send (message : value) (w : World) : World :=
  snd (send_if_open (ret message) w).

(** The temperatures of the POSTs issued so far. *)
Definition posted_temperatures (w : World) : list (option value) :=
  map (fun p => assoc "temperature" (post_body p)) (posts w).

(** ** Calls and events *)

(** The call [call] has not settled, and [k] is what waits for it. *)
Definition pending (w : World) (call : nat) : option InFlight :=
  option_map fst (take_call call (awaiting w)).

(** The world once the call [call] is no longer awaited. *)
Definition forget_call (call : nat) (w : World) : World :=
  match take_call call (awaiting w) with
  | Some (_, rest) => with_calls (posts w) rest w
  | None => w
  end.

(** The calls that are awaited have been issued. *)
Definition calls_fresh (w : World) : Prop :=
  Forall (fun c => fst c < List.length (posts w)) (awaiting w).

Definition settles (call : nat) (e : Event) : Prop :=
  match e with
  | HttpSettled c _ => c = call
  | _ => False
  end.

Definition is_message (e : Event) : Prop :=
  match e with
  | WsMessage _ _ => True
  | _ => False
  end.

Definition is_settled (e : Event) : Prop :=
  match e with
  | HttpSettled _ _ => True
  | _ => False
  end.

(** The worlds the bridge can be in: those it reaches from its start by
    turns of the event loop. *)
Inductive reachable : World -> Prop :=
| reachable_boot cfg accepts fatal uuids now :
    reachable (boot cfg accepts fatal uuids now)
| reachable_step w e : reachable w -> reachable (step w e).

(** ** Failures of the relay connection

    A failure as the socket library reports it: an [error] event when the
    failure has an error, then the [close] event of the current socket; the
    timer set by the [close] handler then fires. *)
Definition failure (w : World) (error : option JsError) : list Event :=
  match SemanticBridge.federationConnection (bridge w) with
  | Some s =>
      match error with
      | Some e => [WsError s e; WsClose s; TimerFired]
      | None => [WsClose s; TimerFired]
      end
  | None => []
  end.

(** Consecutive failures, each of the connection made after the one
    before. *)
Fixpoint fail (w : World) (errors : list (option JsError)) : World :=
  match errors with
  | [] => w
  | e :: rest => fail (run w (failure w e)) rest
  end.

(** [federationConnection] is a socket that has not closed. *)
Definition link_live (w : World) : Prop :=
  exists s,
    SemanticBridge.federationConnection (bridge w) = Some s /\
    socket_in w s [CONNECTING; OPEN; CLOSING] = true.

(** Every timer that was set has fired. *)
Definition timers_idle (w : World) : Prop :=
  timers_fired w = List.length (timeouts w).

(** The bridge has started: the promise of its first attempt, the one
    [initialize] awaits, is resolved. *)
Definition started (w : World) : Prop :=
  match attempts w with
  | a :: _ => attempt_promise a = Resolved
  | [] => False
  end.

(** A bridge that keeps reconnecting: it runs, it has started, its relay
    socket has not closed, no timer is waiting, the socket library accepts
    the address of the relay, and the runtime does not end the process on
    an unhandled rejection. *)
Definition reconnecting (w : World) : Prop :=
  exited w = None /\
  started w /\
  link_live w /\
  timers_idle w /\
  ws_accepts w (federation_url (config w)) = true /\
  unhandled_rejections_exit w = false.

(** ** Worlds and messages of the examples *)

Definition default_config : Config := configuration (fun _ => None).

Definition example_uuid : string := "3b241101-e2bb-4255-8caf-4136c566a962".

(** A freshly started bridge whose relay accepts connections, on a runtime
    that ends the process on an unhandled rejection. *)
Definition world_started : World :=
  boot default_config (fun _ => true) true (fun _ => example_uuid)
       (num_of_Z 1000).

(** The bridge connected to the relay. *)
Definition world_connected : World :=
  run world_started [Initialize; WsOpen 0].

(** The same on a runtime that only warns of an unhandled rejection. *)
Definition world_started_lenient : World :=
  boot default_config (fun _ => true) false (fun _ => example_uuid)
       (num_of_Z 1000).

Definition world_connected_lenient : World :=
  run world_started_lenient [Initialize; WsOpen 0].

(** A bridge configured with a port that is not one: [new WebSocket] throws
    on the address. *)
Definition world_bad_port : World :=
  boot (configuration
          (fun name => if name =? "FEDERATION_PORT" then Some "99999" else None))
       (fun address => negb (address =? "ws://localhost:99999")) true
       (fun _ => example_uuid) (num_of_Z 1000).

Definition message_without_type : payload :=
  Text_json (JObj [("id", JStr "msg-0"); ("prompt", JStr "2+2?")]).

Definition request_message (id : value) : payload :=
  Text_json (JObj [ ("type", JStr "semantic_request");
                    ("id", id);
                    ("prompt", JStr "2+2?") ]).

(** A request that asks for the temperature [t]. *)
Definition temperature_message (t : value) : payload :=
  Text_json (JObj [ ("type", JStr "semantic_request");
                    ("id", JStr "msg-4");
                    ("prompt", JStr "2+2?");
                    ("temperature", t) ]).

Definition reply_4 : GenerateData :=
  mkGenerateData (JStr "4") (Some (num_of_Z 3)) (Some (num_of_Z 1)).

Definition timeout_error : JsError :=
  mkError "AxiosError" "timeout of 60000ms exceeded".

Definition refused : JsError := mkError "Error" "connect ECONNREFUSED".

(** A response as [generate] builds it. *)
Definition sample_response (id text : value) : SemanticResponse.t :=
  {| SemanticResponse.id := id;
     SemanticResponse.prompt := JStr "2+2?";
     SemanticResponse.model := JStr "mistral";
     SemanticResponse.response := text;
     SemanticResponse.tokens :=
       {| Tokens.prompt := num_of_Z 3;
          Tokens.completion := num_of_Z 1;
          Tokens.total := js_add (num_of_Z 3) (num_of_Z 1) |};
     SemanticResponse.processingTime := num_of_Z 500;
     SemanticResponse.timestamp := num_of_Z 1500 |}.

(** The bridge waiting for the backend to answer the request [msg-2]. *)
Definition world_awaiting : World :=
  run world_connected [WsMessage 0 (request_message (JStr "msg-2"))].

(** The bridge waiting for the backend while the relay link has closed. *)
Definition world_offline : World :=
  run world_awaiting [WsClose 0].

(* ------------------------------------------------------------------ *)
(** * Vocabulary of the further properties                              *)
(* ------------------------------------------------------------------ *)

(** A payload that is JSON and whose [type] is the string
    [semantic_request]. *)
Definition is_semantic_request (message : payload) : bool :=
  match JSON_parse message with
  | Return parsed =>
      match get_prop parsed "type" with
      | Return t => strict_eq_str t "semantic_request"
      | Throw _ => false
      end
  | Throw _ => false
  end.

(** The events whose handlers are [connectToFederation] and the [error]
    handler it registers. *)
Definition may_reject (e : Event) : Prop :=
  match e with
  | Initialize | TimerFired | WsError _ _ => True
  | _ => False
  end.

(** A reply of [/api/tags] that lists two models. *)
Definition tags_reply : HttpResponse :=
  mkResponse 200
    (JObj [("models",
            JArr [JObj [("name", JStr "mistral:latest");
                        ("size", JNum (num_of_Z 4109865159))];
                  JObj [("name", JStr "phi:latest");
                        ("size", JNum (num_of_Z 1602463378))]])]).

(** The bridge after the backend has answered the request [msg-2]. *)
Definition world_answered : World :=
  run world_awaiting [ClockAdvanced (num_of_Z 1500); HttpSettled 0 (Return reply_4)].

(** The POSTs that [generate] issues for a request: one, or none when it
    throws before its call. *)
Definition posts_of (c : OllamaClient.t) (request : SemanticRequest.t)
  : list HttpPost :=
  match OllamaClient.generate_call c request with
  | Return post => [post]
  | Throw _ => []
  end.

(** The frame [frame] answers the request [request]: it is a
    [semantic_response] or a [semantic_error], and its [id] is what
    [JSON.stringify] makes of the identifier of the request. *)
Definition answers (frame : payload) (request : SemanticRequest.t) : Prop :=
  (frame_field frame "type" = Some (JStr "semantic_response") \/
   frame_field frame "type" = Some (JStr "semantic_error")) /\
  frame_field frame "id" = to_json (SemanticRequest.id request).

(** The response [response] is the one of the request [request]: it has
    its identifier and its prompt. *)
Definition response_of (request : SemanticRequest.t)
    (response : SemanticResponse.t) : Prop :=
  SemanticResponse.id response = SemanticRequest.id request /\
  SemanticResponse.prompt response = SemanticRequest.prompt request.

(** An entry of the cache belongs to the requests of [queue]: its key is
    the identifier of one of them, and its response is the one of one of
    them. *)
Definition entry_queued (queue : list SemanticRequest.t)
    (entry : value * SemanticResponse.t) : Prop :=
  (exists request,
      In request queue /\ SemanticRequest.id request = fst entry) /\
  (exists request,
      In request queue /\ response_of request (snd entry)).

(** Which request each frame answers.  [sent_for] gives, for each frame
    sent, the position in the queue of a request that it answers, and
    [pending_for] gives, for each call in flight, the position of its
    request; no position is given twice. *)
Definition answered_once (w : World) (sent_for pending_for : list nat) : Prop :=
  NoDup (sent_for ++ pending_for) /\
  Forall2 (fun sent i =>
             exists request,
               nth_error (SemanticBridge.processingQueue (bridge w)) i
               = Some request /\
               answers (snd sent) request)
          (wire w) sent_for /\
  Forall2 (fun c i =>
             nth_error (SemanticBridge.processingQueue (bridge w)) i
             = Some (call_request (snd c)))
          (awaiting w) pending_for.

(** [this.federationConnection] *)
Definition bridge_link (w : World) : option nat :=
  SemanticBridge.federationConnection (bridge w).

(** One relay connection at a time: every socket but the last one created
    is CLOSED, [federationConnection] is the last one created, at most one
    timer is waiting, and while one is waiting the last socket is CLOSED
    as well. *)
Definition one_link (w : World) : Prop :=
  (forall s, S s < List.length (sockets w) -> socket_state w s = Some CLOSED) /\
  bridge_link w
  = match List.length (sockets w) with
    | O => None
    | S n => Some n
    end /\
  timers_fired w <= List.length (timeouts w) <= S (timers_fired w) /\
  (timers_fired w < List.length (timeouts w) ->
   forall s, s < List.length (sockets w) -> socket_state w s = Some CLOSED).

(** Before [initialize] has called [connectToFederation] there is no
    socket and no timer. *)
Definition nothing_before_start (w : World) : Prop :=
  attempts w = [] -> sockets w = [] /\ timeouts w = [].

(** [P i a] for every attempt [a] of [l], [i] being its position counted
    from [from]. *)
Fixpoint all_from (P : nat -> Attempt -> Prop) (from : nat) (l : list Attempt)
  : Prop :=
  match l with
  | [] => True
  | a :: rest => P from a /\ all_from P (S from) rest
  end.

(** The attempt at position [i] made the socket at position [i]; its
    promise is pending while that socket is CONNECTING, and is pending
    only if the socket is CONNECTING or went from there to CLOSED. *)
Definition attempt_tracks (w : World) (i : nat) (a : Attempt) : Prop :=
  attempt_socket a = Some i /\
  (socket_state w i = Some CONNECTING -> attempt_promise a = Pending) /\
  (attempt_promise a = Pending ->
   socket_state w i = Some CONNECTING \/ socket_state w i = Some CLOSED).

(** The request that [handleFederationMessage] makes of a message with the
    fields [fields], in the world [w]: the fields are copied as they are,
    and the identifier is the next one of [uuidv4] when the message has
    none that is truthy. *)
Definition request_of (w : World) (fields : list (string * value))
  : SemanticRequest.t :=
  SemanticRequest.make
    (if truthy (field fields "id") then field fields "id"
     else JStr (uuid_source w (uuid_drawn w)))
    (field fields "prompt") (field fields "model") (field fields "temperature")
    (field fields "topK") (field fields "topP") (clock w).

Definition message_without_prompt : payload :=
  Text_json (JObj [("type", JStr "semantic_request"); ("id", JStr "msg-5")]).

(* ================================================================== *)
(** * Properties                                                        *)
(* ================================================================== *)

(* ------------------------------------------------------------------ *)
(** * The response cache                                                *)
(* ------------------------------------------------------------------ *)

Section MapFacts.
Context {V : Type}.
Implicit Types (m : JsMap V) (k : value) (v : V).

Lemma same_value_zero_str (a b : string) :
  same_value_zero (JStr a) (JStr b) = (a =? b).
Proof. reflexivity. Qed.

(** A key that SameValueZero identifies with a string is that string. *)
Lemma same_value_zero_str_r k (a : string) :
  same_value_zero k (JStr a) = true -> k = JStr a.
Proof.
  destruct k; simpl; try discriminate.
  intros H. apply String.eqb_eq in H. now subst.
Qed.

Lemma Map_get_set_same m k v :
  same_value_zero k k = true -> Map_get (Map_set m k v) k = Some v.
Proof.
  intros Hk. induction m as [|[k' v'] rest IH]; simpl.
  - now rewrite Hk.
  - destruct (same_value_zero k' k) eqn:E; simpl; rewrite E; auto.
Qed.

Lemma Map_get_set_other m (a b : string) v :
  a <> b -> Map_get (Map_set m (JStr a) v) (JStr b) = Map_get m (JStr b).
Proof.
  intros Hab. induction m as [|[k' v'] rest IH]; simpl.
  - apply String.eqb_neq in Hab. now rewrite Hab.
  - destruct (same_value_zero k' (JStr a)) eqn:E; simpl.
    + apply same_value_zero_str_r in E. subst k'. simpl.
      apply String.eqb_neq in Hab. now rewrite Hab.
    + now rewrite IH.
Qed.

(** Overwriting keeps the number of entries: one entry per key. *)
Lemma Map_size_set_present m k v v0 :
  Map_get m k = Some v0 -> Map_size (Map_set m k v) = Map_size m.
Proof.
  unfold Map_size. induction m as [|[k' v'] rest IH]; simpl.
  - discriminate.
  - destruct (same_value_zero k' k); simpl; auto.
Qed.

Lemma Map_size_set_absent m k v :
  Map_get m k = None -> Map_size (Map_set m k v) = S (Map_size m).
Proof.
  unfold Map_size. induction m as [|[k' v'] rest IH]; simpl.
  - reflexivity.
  - destruct (same_value_zero k' k); simpl; auto. discriminate.
Qed.
End MapFacts.

Lemma getResponse_cache_set_same b id r :
  getResponse (cache_set (JStr id) r b) id = Some r.
Proof.
  unfold getResponse, cache_set. simpl.
  apply Map_get_set_same. simpl. apply String.eqb_refl.
Qed.

Lemma getResponse_cache_set_other b id id' r :
  id' <> id -> getResponse (cache_set (JStr id') r b) id = getResponse b id.
Proof.
  intros H. unfold getResponse, cache_set. simpl.
  now apply Map_get_set_other.
Qed.

Lemma getResponse_fold_other puts : forall b id,
  ~ In id (map fst puts) ->
  getResponse (fold_left (fun b p => cache_set (JStr (fst p)) (snd p) b) puts b) id
  = getResponse b id.
Proof.
  induction puts as [|[id' r] rest IH]; intros b id Hnot; simpl.
  - reflexivity.
  - rewrite IH.
    + apply getResponse_cache_set_other. intros ->. apply Hnot. now left.
    + intros Hin. apply Hnot. now right.
Qed.

(** C1. For the response cache, with [put] the insertion that
    [processRequest] performs and [get] the lookup of [getResponse]: after
    a put of [r] under [id] the lookup of [id] gives exactly [r]; after a
    second put of [r2] under the same [id] it gives [r2]; and the lookup of
    an identifier that was never inserted gives nothing. *)
Theorem cache_last_write_wins :
  forall (b : SemanticBridge.t) (id : string) (r r2 : SemanticResponse.t),
    getResponse (cache_set (JStr id) r b) id = Some r /\
    getResponse (cache_set (JStr id) r2 (cache_set (JStr id) r b)) id = Some r2 /\
    (forall cfg puts,
        ~ In id (map fst puts) -> getResponse (cache_after cfg puts) id = None).
Proof.
  intros b id r r2. repeat split.
  - apply getResponse_cache_set_same.
  - apply getResponse_cache_set_same.
  - intros cfg puts Hnot. unfold cache_after.
    now rewrite getResponse_fold_other.
Qed.

Lemma cache_last_write_wins_witness :
  getResponse
    (cache_after (configuration (fun _ => None))
       [("msg-1", sample_response (JStr "msg-1") (JStr "4"))]) "msg-2" = None.
Proof.
  destruct (cache_last_write_wins
              (SemanticBridge.new (configuration (fun _ => None))) "msg-2"
              (sample_response (JStr "msg-2") (JStr "4"))
              (sample_response (JStr "msg-2") (JStr "5"))) as (_ & _ & H).
  apply H. simpl. intros [H1 | []]. discriminate H1.
Defined.

(* ------------------------------------------------------------------ *)
(** * Token accounting                                                  *)
(* ------------------------------------------------------------------ *)

Section Rounding.
Local Open Scope Z_scope.

Lemma iter_pos_invariant {A : Type} (f : A -> A) (P : A -> Prop) :
  (forall x, P x -> P (f x)) -> forall n x, P x -> P (iter_pos f n x).
Proof.
  intros Hf. induction n as [n IH|n IH|]; intros x Hx; simpl; auto.
Qed.

Lemma shr_1_nonneg mrs : 0 <= shr_m mrs -> 0 <= shr_m (shr_1 mrs).
Proof.
  destruct mrs as [m r s]. simpl.
  destruct m as [|[p|p|]|[p|p|]]; simpl; intros H; lia.
Qed.

Lemma shr_nonneg mrs e n : 0 <= shr_m mrs -> 0 <= shr_m (fst (shr mrs e n)).
Proof.
  intros H. destruct n; simpl; auto.
  apply iter_pos_invariant; auto using shr_1_nonneg.
Qed.

Lemma shr_fexp_nonneg m e l :
  0 <= m -> 0 <= shr_m (fst (shr_fexp prec emax m e l)).
Proof.
  intros H. unfold shr_fexp. apply shr_nonneg.
  destruct l as [|[]]; simpl; auto.
Qed.

Lemma round_nearest_even_nonneg m l : 0 <= m -> 0 <= round_nearest_even m l.
Proof.
  intros H. destruct l as [|[]]; simpl; try lia.
  destruct (Z.even m); lia.
Qed.

Lemma binary_round_aux_nonneg m e l :
  0 <= m -> nonneg_num (binary_round_aux prec emax false m e l).
Proof.
  intros H. unfold binary_round_aux.
  pose proof (shr_fexp_nonneg m e l H) as H1.
  destruct (shr_fexp prec emax m e l) as [mrs' e']. simpl in H1.
  pose proof (shr_fexp_nonneg
                (round_nearest_even (shr_m mrs') (loc_of_shr_record mrs'))
                e' loc_Exact (round_nearest_even_nonneg _ _ H1)) as H2.
  destruct (shr_fexp prec emax _ e' loc_Exact) as [mrs'' e'']. simpl in H2.
  destruct (shr_m mrs'') as [|p|p]; simpl; auto; try lia.
  destruct (_ <=? _); simpl; auto.
Qed.

Lemma binary_normalize_nonneg z e :
  0 <= z -> nonneg_num (binary_normalize prec emax z e false).
Proof.
  intros H. destruct z as [|p|p]; simpl; auto; try lia.
  unfold binary_round.
  destruct (shl_align p e _) as [mz ez].
  apply binary_round_aux_nonneg. lia.
Qed.

Lemma num_of_Z_nonneg z : 0 <= z -> nonneg_num (num_of_Z z).
Proof. apply binary_normalize_nonneg. Qed.

Lemma js_add_nonneg x y : nonneg_num x -> nonneg_num y -> nonneg_num (js_add x y).
Proof.
  unfold js_add, SFadd.
  destruct x as [[]|[]| |[] mx ex], y as [[]|[]| |[] my ey];
    try (simpl; tauto).
  intros _ _. cbv [cond_Zopp]. apply binary_normalize_nonneg. lia.
Qed.

Lemma js_num_eqb_refl x : nonneg_num x -> js_num_eqb x x = true.
Proof.
  destruct x as [[]|[]| |[] m e]; simpl; try tauto; intros _; try reflexivity.
  unfold js_num_eqb, SFeqb. simpl.
  now rewrite Z.compare_refl, Pos.compare_cont_refl.
Qed.

(** [x || 0] is [x] when [x] is neither negative nor [NaN]. *)
Lemma num_or_nonneg x : nonneg_num x -> num_or (Some x) lit_0 = x.
Proof.
  destruct x as [[]|[]| |[] m e]; simpl; try tauto; reflexivity.
Qed.
Lemma digits2_pos_size p : digits2_pos p = Pos.size p.
Proof. induction p; simpl; congruence. Qed.

Lemma Zdigits2_digits p : Zdigits2 (Zpos p) = digits (Zpos p).
Proof.
  unfold digits. simpl. rewrite digits2_pos_size.
  destruct p; simpl; try reflexivity; now rewrite Pos.add_1_r.
Qed.

Lemma digits_pos z : 0 < z -> 1 <= digits z.
Proof. intros H. unfold digits. pose proof (Z.log2_nonneg z). lia. Qed.

Lemma digits_mul_pow2 z k : 0 < z -> 0 <= k -> digits (z * 2 ^ k) = digits z + k.
Proof. intros Hz Hk. unfold digits. rewrite Z.log2_mul_pow2 by lia. lia. Qed.

Lemma digits_le_53 z : 0 < z -> z < 2 ^ 53 -> digits z <= 53.
Proof.
  intros Hz H. unfold digits. apply Z.log2_lt_pow2 in H; lia.
Qed.

Lemma iter_pos_iter {A : Type} (f : A -> A) n : forall x,
  iter_pos f n x = Pos.iter f x n.
Proof.
  induction n as [n IH|n IH|]; intros x; simpl.
  - rewrite !IH. now rewrite <- !Pos.iter_swap.
  - now rewrite !IH.
  - reflexivity.
Qed.

Lemma shr_1_double m :
  0 < m ->
  shr_1 (Build_shr_record (2 * m) false false) = Build_shr_record m false false.
Proof. destruct m; simpl; try lia. reflexivity. Qed.

Lemma shr_exact (n : nat) : forall m,
  0 < m ->
  Nat.iter n shr_1 (Build_shr_record (m * 2 ^ Z.of_nat n) false false)
  = Build_shr_record m false false.
Proof.
  induction n as [|n IH]; intros m Hm.
  - simpl. now rewrite Z.mul_1_r.
  - rewrite Nat.iter_succ_r, Nat2Z.inj_succ, Z.pow_succ_r by lia.
    replace (m * (2 * 2 ^ Z.of_nat n)) with (2 * (m * 2 ^ Z.of_nat n)) by ring.
    rewrite shr_1_double by (apply Z.mul_pos_pos; [lia | apply Z.pow_pos_nonneg; lia]).
    now apply IH.
Qed.

(** Shifting right by [n] a multiple of [2 ^ n] loses nothing. *)
Lemma shr_multiple m e n :
  0 < m -> 0 <= n ->
  shr (Build_shr_record (m * 2 ^ n) false false) e n
  = (Build_shr_record m false false, e + n).
Proof.
  intros Hm Hn. destruct n as [|p|p]; try lia.
  - unfold shr. now rewrite Z.pow_0_r, Z.mul_1_r, Z.add_0_r.
  - unfold shr. rewrite iter_pos_iter, Pos2Nat.inj_iter.
    rewrite <- (positive_nat_Z p) at 1.
    change (nat_rect (fun _ => shr_record) ?x (fun _ => shr_1) ?k)
      with (Nat.iter k shr_1 x).
    now rewrite shr_exact by assumption.
Qed.

Lemma iter_xO m d : Zpos (Pos.iter xO m d) = Zpos m * 2 ^ Zpos d.
Proof.
  induction d as [|d IH] using Pos.peano_ind.
  - simpl Pos.iter. rewrite Pos2Z.inj_xO. change (2 ^ 1) with 2. ring.
  - rewrite Pos.iter_succ, Pos2Z.inj_succ, Z.pow_succ_r by lia.
    rewrite Pos2Z.inj_xO, IH. ring.
Qed.

Lemma shl_align_spec mx ex ex' :
  Zpos (fst (shl_align mx ex ex')) = Zpos mx * 2 ^ (ex - Z.min ex ex') /\
  snd (shl_align mx ex ex') = Z.min ex ex'.
Proof.
  unfold shl_align. destruct (ex' - ex) as [|d|d] eqn:E; simpl.
  - replace (Z.min ex ex') with ex by lia.
    rewrite Z.sub_diag, Z.pow_0_r. split; lia.
  - replace (Z.min ex ex') with ex by lia.
    rewrite Z.sub_diag, Z.pow_0_r. split; lia.
  - replace (Z.min ex ex') with ex' by lia. rewrite iter_xO.
    replace (ex - ex') with (Zpos d) by lia. split; reflexivity.
Qed.

Lemma fexp_digits d : 1 <= d -> fexp prec emax d = d - 53.
Proof. intros H. unfold fexp, emin, prec, emax. lia. Qed.

(** Rounding an integer below [2 ^ 53], given with any scaling, gives the
    integer itself. *)
Lemma binary_round_aux_exact z k :
  0 < z -> z < 2 ^ 53 -> 0 <= k -> 53 - digits z <= k ->
  binary_round_aux prec emax false (z * 2 ^ k) (- k) loc_Exact = canonical z.
Proof.
  intros Hz Hlt Hk Hdk.
  pose proof (digits_pos z Hz) as Hd1.
  pose proof (digits_le_53 z Hz Hlt) as Hd53.
  assert (Hpow : forall j, 0 <= j -> 0 < z * 2 ^ j).
  { intros j Hj. apply Z.mul_pos_pos; [lia | apply Z.pow_pos_nonneg; lia]. }
  unfold binary_round_aux.
  assert (S1 : shr_fexp prec emax (z * 2 ^ k) (- k) loc_Exact
               = (Build_shr_record (z * 2 ^ (53 - digits z)) false false,
                  digits z - 53)).
  { unfold shr_fexp. simpl shr_record_of_loc.
    pose proof (Hpow k Hk) as Hp.
    destruct (z * 2 ^ k) as [|p|p] eqn:E; try lia.
    rewrite Zdigits2_digits, <- E, digits_mul_pow2 by lia.
    replace (digits z + k + - k) with (digits z) by lia.
    rewrite fexp_digits by lia.
    replace (z * 2 ^ k)
      with (z * 2 ^ (53 - digits z) * 2 ^ (digits z - 53 - - k)).
    - rewrite shr_multiple by (try apply Hpow; lia). f_equal. lia.
    - rewrite <- Z.mul_assoc, <- Z.pow_add_r by lia. f_equal. f_equal. lia. }
  rewrite S1. cbv beta iota. cbn [shr_m loc_of_shr_record round_nearest_even].
  assert (S2 : shr_fexp prec emax (z * 2 ^ (53 - digits z)) (digits z - 53) loc_Exact
               = (Build_shr_record (z * 2 ^ (53 - digits z)) false false,
                  digits z - 53)).
  { unfold shr_fexp. simpl shr_record_of_loc.
    pose proof (Hpow (53 - digits z)) as Hp.
    destruct (z * 2 ^ (53 - digits z)) as [|p|p] eqn:E; try lia.
    rewrite Zdigits2_digits, <- E, digits_mul_pow2 by lia.
    replace (digits z + (53 - digits z) + (digits z - 53)) with (digits z) by lia.
    rewrite fexp_digits by lia. now rewrite Z.sub_diag. }
  rewrite S2. cbv beta iota. cbn [shr_m].
  pose proof (Hpow (53 - digits z) ltac:(lia)) as Hp.
  unfold canonical.
  remember (z * 2 ^ (53 - digits z)) as M eqn:EM.
  destruct M as [|p|p]; try lia.
  cbn [Z.to_pos].
  replace (digits z - 53 <=? emax - prec) with true; [reflexivity|].
  symmetry. apply Z.leb_le. unfold emax, prec. lia.
Qed.

Lemma binary_normalize_exact z k :
  0 < z -> z < 2 ^ 53 -> 0 <= k ->
  binary_normalize prec emax (z * 2 ^ k) (- k) false = canonical z.
Proof.
  intros Hz Hlt Hk.
  pose proof (digits_pos z Hz) as Hd1.
  pose proof (digits_le_53 z Hz Hlt) as Hd53.
  assert (Hp : 0 < z * 2 ^ k)
    by (apply Z.mul_pos_pos; [lia | apply Z.pow_pos_nonneg; lia]).
  destruct (z * 2 ^ k) as [|m|m] eqn:E; try lia.
  unfold binary_normalize, binary_round.
  destruct (shl_align_spec m (- k)
              (fexp prec emax (Zpos (digits2_pos m) + - k))) as [Hm He].
  destruct (shl_align m (- k) _) as [mz ez]. cbn [fst snd] in Hm, He.
  change (Zpos (digits2_pos m)) with (Zdigits2 (Zpos m)) in He, Hm.
  rewrite Zdigits2_digits, <- E, digits_mul_pow2 in He, Hm by lia.
  replace (digits z + k + - k) with (digits z) in He, Hm by lia.
  rewrite fexp_digits in He, Hm by lia.
  rewrite Hm, E, <- E.
  replace (z * 2 ^ k * 2 ^ (- k - Z.min (- k) (digits z - 53)))
    with (z * 2 ^ (- ez)).
  - replace ez with (- (- ez)) at 2 by lia.
    apply binary_round_aux_exact; lia.
  - rewrite <- Z.mul_assoc, <- Z.pow_add_r by lia. f_equal. f_equal. lia.
Qed.

Lemma num_of_Z_canonical z : 0 < z -> z < 2 ^ 53 -> num_of_Z z = canonical z.
Proof.
  intros Hz Hlt. unfold num_of_Z.
  rewrite <- (binary_normalize_exact z 0) by lia.
  now rewrite Z.mul_1_r.
Qed.

Lemma js_add_zero_l y : nonneg_num y -> js_add (num_of_Z 0) y = y.
Proof. destruct y as [[]|[]| |[] m e]; simpl; tauto || reflexivity. Qed.

Lemma js_add_zero_r x : nonneg_num x -> js_add x (num_of_Z 0) = x.
Proof. destruct x as [[]|[]| |[] m e]; simpl; tauto || reflexivity. Qed.

(** Below [2 ^ 53] the sum of two integers is computed exactly. *)
Lemma js_add_exact p q :
  0 <= p -> 0 <= q -> p + q < 2 ^ 53 ->
  js_add (num_of_Z p) (num_of_Z q) = num_of_Z (p + q).
Proof.
  intros Hp Hq Hlt.
  destruct (Z.eq_dec p 0) as [->|Hp0].
  { rewrite Z.add_0_l. apply js_add_zero_l. now apply num_of_Z_nonneg. }
  destruct (Z.eq_dec q 0) as [->|Hq0].
  { rewrite Z.add_0_r. apply js_add_zero_r. now apply num_of_Z_nonneg. }
  rewrite (num_of_Z_canonical p), (num_of_Z_canonical q),
    (num_of_Z_canonical (p + q)) by lia.
  pose proof (digits_pos p ltac:(lia)) as Hdp.
  pose proof (digits_pos q ltac:(lia)) as Hdq.
  pose proof (digits_le_53 p ltac:(lia) ltac:(lia)) as Hdp53.
  pose proof (digits_le_53 q ltac:(lia) ltac:(lia)) as Hdq53.
  unfold canonical at 1 2. unfold js_add, SFadd. cbv [cond_Zopp].
  set (mp := Z.to_pos (p * 2 ^ (53 - digits p))).
  set (mq := Z.to_pos (q * 2 ^ (53 - digits q))).
  set (ez := Z.min (digits p - 53) (digits q - 53)).
  destruct (shl_align_spec mp (digits p - 53) ez) as [Hmp _].
  destruct (shl_align_spec mq (digits q - 53) ez) as [Hmq _].
  rewrite Hmp, Hmq.
  assert (Ep : Zpos mp = p * 2 ^ (53 - digits p)).
  { unfold mp. apply Z2Pos.id. apply Z.mul_pos_pos; [lia|].
    apply Z.pow_pos_nonneg; lia. }
  assert (Eq : Zpos mq = q * 2 ^ (53 - digits q)).
  { unfold mq. apply Z2Pos.id. apply Z.mul_pos_pos; [lia|].
    apply Z.pow_pos_nonneg; lia. }
  rewrite Ep, Eq.
  replace (Z.min (digits p - 53) ez) with ez by lia.
  replace (Z.min (digits q - 53) ez) with ez by lia.
  replace (p * 2 ^ (53 - digits p) * 2 ^ (digits p - 53 - ez)
           + q * 2 ^ (53 - digits q) * 2 ^ (digits q - 53 - ez))
    with ((p + q) * 2 ^ (- ez)).
  - replace ez with (- (- ez)) at 2 by lia.
    apply binary_normalize_exact; lia.
  - rewrite <- !Z.mul_assoc, <- !Z.pow_add_r by lia.
    replace (53 - digits p + (digits p - 53 - ez)) with (- ez) by lia.
    replace (53 - digits q + (digits q - 53 - ez)) with (- ez) by lia.
    ring.
Qed.

End Rounding.

Lemma num_or_count (x : option Z) :
  (forall z, x = Some z -> (0 <= z)%Z) ->
  num_or (count x) lit_0 = count_or_zero x /\ nonneg_num (count_or_zero x).
Proof.
  intros H. destruct x as [z|]; simpl.
  - pose proof (num_of_Z_nonneg z (H z eq_refl)) as Hz.
    split; auto. now apply num_or_nonneg.
  - split; reflexivity.
Qed.

Lemma count_or_zero_value (x : option Z) :
  count_or_zero x = num_of_Z (count_value x).
Proof. now destruct x. Qed.

Lemma accounted_intro (p q : option Z) :
  (forall z, p = Some z -> (0 <= z)%Z) ->
  (forall z, q = Some z -> (0 <= z)%Z) ->
  accounted p q
    {| Tokens.prompt := num_or (count p) lit_0;
       Tokens.completion := num_or (count q) lit_0;
       Tokens.total := js_add (num_or (count p) lit_0) (num_or (count q) lit_0) |}.
Proof.
  intros Hp Hq.
  destruct (num_or_count p Hp) as [Ep Np], (num_or_count q Hq) as [Eq Nq].
  unfold accounted. simpl. rewrite Ep, Eq. repeat split.
  - apply js_num_eqb_refl. now apply js_add_nonneg.
  - intros Hsum. rewrite !count_or_zero_value. apply js_add_exact; [| |exact Hsum].
    + destruct p as [z|]; simpl; [now apply Hp | lia].
    + destruct q as [z|]; simpl; [now apply Hq | lia].
Qed.

(** C2. Every response that [generate] or [chat] returns satisfies
    [tokens.total = tokens.prompt + tokens.completion], whatever
    non-negative integers the backend reports as [prompt_eval_count] and
    [eval_count]; a count whose field is missing is taken as [0].  The sum
    is the one of JavaScript numbers; it is the sum of the integers
    whenever that is below [2 ^ 53]. *)
Theorem token_total_is_sum :
  forall (c : OllamaClient.t) (request : SemanticRequest.t)
         (startTime now later : number) (p q : option Z),
    (forall z, p = Some z -> (0 <= z)%Z) ->
    (forall z, q = Some z -> (0 <= z)%Z) ->
    (forall text, exists r,
        OllamaClient.generate_settled c request startTime
          (Return (mkGenerateData text (count p) (count q))) now later
        = Return r /\
        accounted p q (SemanticResponse.tokens r)) /\
    (forall text, exists r,
        OllamaClient.chat_settled c request startTime
          (Return (mkChatData text (count p) (count q))) now later
        = Return r /\
        accounted p q (SemanticResponse.tokens r)).
Proof.
  intros c request startTime now later p q Hp Hq.
  split; intros text; eexists; (split; [reflexivity|]); simpl;
    now apply accounted_intro.
Qed.

Lemma token_total_is_sum_witness :
  exists r,
    OllamaClient.generate_settled
      (OllamaClient.new "http://localhost:11434" "mistral")
      (SemanticRequest.make (JStr "msg-1") (JStr "2+2?") JUndefined JUndefined
                            JUndefined JUndefined (num_of_Z 1000))
      (num_of_Z 1000)
      (Return (mkGenerateData (JStr "4") (count (Some 3%Z)) (count None)))
      (num_of_Z 1500) (num_of_Z 1500) = Return r /\
    accounted (Some 3%Z) None (SemanticResponse.tokens r).
Proof.
  refine (proj1 (token_total_is_sum _ _ _ _ _ (Some 3%Z) None _ _) (JStr "4")).
  - intros z H. injection H as <-. lia.
  - intros z H. discriminate H.
Defined.

(** End-to-end scenario 1 of the specification: counts 3 and 1 give the
    total 4. *)
Example token_total_3_1 :
  js_add (num_of_Z 3) (num_of_Z 1) = num_of_Z 4.
Proof. reflexivity. Qed.

(* ------------------------------------------------------------------ *)
(** * What each handler does                                            *)
(* ------------------------------------------------------------------ *)

Lemma relay_send_eq message w :
  relay_send message w =
  match link_open w with
  | Some s => socket_send s (JSON_stringify message) w
  | None => w
  end.
Proof.
  unfold relay_send, send_if_open. now destruct (link_open w).
Qed.

Lemma send_if_open_ret message w :
  send_if_open (ret message) w = (Return tt, relay_send message w).
Proof.
  unfold relay_send, send_if_open. now destruct (link_open w).
Qed.

Lemma processRequest_catch_eq request error w :
  processRequest_catch request error w =
  (Return tt, relay_send (semantic_error request error (clock w)) w).
Proof.
  unfold processRequest_catch, relay_send, send_if_open.
  now destruct (link_open w).
Qed.

Lemma processRequest_eq request w :
  processRequest request w =
  match OllamaClient.generate_call (SemanticBridge.ollama (bridge w)) request with
  | Return post =>
      (Return tt,
       with_calls (posts w ++ [post])
         (awaiting w ++ [(List.length (posts w), mkInFlight request (clock w))]) w)
  | Throw error => processRequest_catch request error w
  end.
Proof.
  unfold processRequest, try_catch, bind, Date_now, this_ollama, lift, await_post,
    modify.
  now destruct (OllamaClient.generate_call _ request).
Qed.

Lemma processRequest_settled_eq k reply w :
  processRequest_settled k reply w =
  (Return tt,
   match OllamaClient.generate_settled (SemanticBridge.ollama (bridge w))
           (call_request k) (call_startTime k) reply (clock w) (clock w) with
   | Return response =>
       relay_send (semantic_response response)
         (with_bridge
            (cache_set (SemanticRequest.id (call_request k)) response (bridge w))
            w)
   | Throw error =>
       relay_send (semantic_error (call_request k) error (clock w)) w
   end).
Proof.
  unfold processRequest_settled, try_catch, bind, Date_now, this_ollama, lift.
  destruct (OllamaClient.generate_settled _ _ _ reply _ _) as [response|error].
  - unfold processRequest_then, bind, modify. now rewrite send_if_open_ret.
  - apply processRequest_catch_eq.
Qed.

(** [build_request] does not throw once [data.type] could be read, and
    draws at most one identifier. *)
Lemma build_request_eq data type :
  get_prop data "type" = Return type ->
  forall w, exists id prompt model temperature topK topP,
    get_prop data "id" = Return id /\
    get_prop data "prompt" = Return prompt /\
    get_prop data "model" = Return model /\
    get_prop data "temperature" = Return temperature /\
    get_prop data "topK" = Return topK /\
    get_prop data "topP" = Return topP /\
    build_request data w =
    if truthy id
    then (Return (SemanticRequest.make id prompt model temperature topK topP
                                       (clock w)), w)
    else (Return (SemanticRequest.make (JStr (uuid_source w (uuid_drawn w)))
                                       prompt model temperature topK topP
                                       (clock w)),
          with_uuid_drawn (S (uuid_drawn w)) w).
Proof.
  intros Htype w. unfold build_request, bind, lift, uuidv4, ret, Date_now.
  destruct data; try discriminate Htype; simpl;
    do 6 eexists; repeat (split; [reflexivity|]); simpl; try reflexivity.
  match goal with |- context [truthy ?v] => destruct (truthy v) end;
    reflexivity.
Qed.

Lemma processRequest_returns request w :
  fst (processRequest request w) = Return tt.
Proof.
  rewrite processRequest_eq.
  destruct (OllamaClient.generate_call _ request); [reflexivity|].
  now rewrite processRequest_catch_eq.
Qed.

(** A message is either discarded, leaving the world as it is, or turned
    into a request that is queued and processed. *)
Lemma handleFederationMessage_cases message w :
  handleFederationMessage message w = (Return tt, w) \/
  exists data request w1,
    JSON_parse message = Return data /\
    build_request data w = (Return request, w1) /\
    (w1 = w \/ w1 = with_uuid_drawn (S (uuid_drawn w)) w) /\
    handleFederationMessage message w =
    processRequest request (with_bridge (queue_push request (bridge w1)) w1).
Proof.
  unfold handleFederationMessage, try_catch, bind, lift, modify.
  destruct (JSON_parse message) as [data|e] eqn:Hparse; [|now left].
  destruct (get_prop data "type") as [type|e] eqn:Htype; [|now left].
  destruct (truthy type); simpl; [|now left].
  destruct (strict_eq_str type "semantic_request"); [|now left].
  destruct (build_request_eq data type Htype w)
    as (id & prompt & model & temperature & topK & topP & _ & _ & _ & _ & _ & _ & Hb).
  right. exists data. rewrite Hb.
  destruct (truthy id); eexists; eexists; (split; [reflexivity|]);
    (split; [reflexivity|]); (split; [auto|]);
    match goal with
    | |- context [processRequest ?r ?w] =>
        pose proof (processRequest_returns r w) as Hr;
        destruct (processRequest r w) as [[[]|e] w']
    end; simpl in Hr; try discriminate Hr; reflexivity.
Qed.

(** No handler lets an exception escape. *)
Lemma handleFederationMessage_returns message w :
  fst (handleFederationMessage message w) = Return tt.
Proof.
  destruct (handleFederationMessage_cases message w)
    as [H | (data & request & w1 & _ & _ & _ & H)]; rewrite H.
  - reflexivity.
  - apply processRequest_returns.
Qed.

(** A rejection either ends the process or goes unnoticed. *)
Lemma rejection_cases i w :
  rejection i w = (Return tt, w) \/
  rejection i w = (Return tt, with_exited (Some 1%Z) w).
Proof.
  unfold rejection, process_exit, modify. destruct i; [now right|].
  destruct (unhandled_rejections_exit w); auto.
Qed.

Lemma with_exited_same w : with_exited (exited w) w = w.
Proof. now destruct w. Qed.

Lemma rejection_frame i w :
  exists code, rejection i w = (Return tt, with_exited code w).
Proof.
  destruct (rejection_cases i w) as [H | H]; rewrite H; eauto.
  exists (exited w). now rewrite with_exited_same.
Qed.

Lemma connectToFederation_returns w : fst (connectToFederation w) = Return tt.
Proof.
  unfold connectToFederation. destruct (ws_accepts w _); [reflexivity|].
  match goal with
  | |- context [rejection ?i ?x] => destruct (rejection_frame i x) as [c ->]
  end. reflexivity.
Qed.

Lemma on_error_frame s error w :
  exists code,
    on_error s error w =
    (Return tt,
     with_exited code
       (with_attempts (map (settle s (Rejected error)) (attempts w)) w)).
Proof.
  unfold on_error. destruct (pending_attempt s (attempts w) 0) as [i|].
  - apply rejection_frame.
  - eexists. now rewrite with_exited_same.
Qed.

Lemma handle_returns e w : fst (handle e w) = Return tt.
Proof.
  destruct e; simpl;
    repeat match goal with
           | |- context [if ?b then _ else _] => destruct b
           | |- context [match attempts ?w with _ => _ end] => destruct (attempts w)
           end;
    auto using connectToFederation_returns, handleFederationMessage_returns.
  - match goal with
    | |- context [on_error ?s ?e ?x] => destruct (on_error_frame s e x) as [c ->]
    end. reflexivity.
  - destruct (take_call call (awaiting w)) as [[k rest]|]; [|reflexivity].
    now rewrite processRequest_settled_eq.
Qed.

Lemma dispatch_returns e w : fst (dispatch e w) = Return tt.
Proof.
  unfold dispatch. destruct (exited w); [reflexivity | apply handle_returns].
Qed.

(** Nothing happens once the process has ended. *)
Lemma step_exited w e code : exited w = Some code -> step w e = w.
Proof. intros H. unfold step, dispatch. now rewrite H. Qed.

Lemma step_running w e : exited w = None -> step w e = snd (handle e w).
Proof. intros H. unfold step, dispatch. now rewrite H. Qed.

(** A property that holds of a world and itself, and of a running world and
    the one its handler leaves, holds of every turn of the event loop. *)
Lemma step_ind (P : World -> World -> Prop) :
  (forall w, P w w) ->
  (forall w e, exited w = None -> P w (snd (handle e w))) ->
  forall w e, P w (step w e).
Proof.
  intros Hrefl Hrun w e. destruct (exited w) as [code|] eqn:E.
  - rewrite (step_exited w e code E). apply Hrefl.
  - rewrite (step_running w e E). now apply Hrun.
Qed.

(** The guarded send touches nothing but the wire. *)
Lemma relay_send_frame message w :
  exists frames, relay_send message w = with_wire (wire w ++ frames) w.
Proof.
  rewrite relay_send_eq. destruct (link_open w) as [s|].
  - now exists [(s, JSON_stringify message)].
  - exists []. rewrite app_nil_r. now destruct w.
Qed.

Lemma step_HttpSettled w call reply k rest :
  exited w = None ->
  take_call call (awaiting w) = Some (k, rest) ->
  step w (HttpSettled call reply) =
  match OllamaClient.generate_settled (SemanticBridge.ollama (bridge w))
          (call_request k) (call_startTime k) reply (clock w) (clock w) with
  | Return response =>
      relay_send (semantic_response response)
        (with_bridge
           (cache_set (SemanticRequest.id (call_request k)) response (bridge w))
           (forget_call call w))
  | Throw error =>
      relay_send (semantic_error (call_request k) error (clock w))
                 (forget_call call w)
  end.
Proof.
  intros Hrun H. rewrite step_running by assumption.
  unfold forget_call. simpl. rewrite H.
  now rewrite processRequest_settled_eq.
Qed.

Lemma step_HttpSettled_unknown w call reply :
  take_call call (awaiting w) = None -> step w (HttpSettled call reply) = w.
Proof.
  intros H. unfold step, dispatch. destruct (exited w); [reflexivity|].
  simpl. now rewrite H.
Qed.

(** What handling a message can do to the world. *)
Lemma step_WsMessage_cases w s message :
  step w (WsMessage s message) = w \/
  exists data request w1,
    JSON_parse message = Return data /\
    build_request data w = (Return request, w1) /\
    (w1 = w \/ w1 = with_uuid_drawn (S (uuid_drawn w)) w) /\
    step w (WsMessage s message) =
    snd (processRequest request (with_bridge (queue_push request (bridge w1)) w1)).
Proof.
  unfold step, dispatch. destruct (exited w); [now left|].
  simpl. destruct (socket_in w s _); [|now left].
  unfold on_message.
  destruct (handleFederationMessage_cases message w)
    as [H | (data & request & w1 & H1 & H2 & H3 & H)]; rewrite H.
  - now left.
  - right. now exists data, request, w1.
Qed.

Lemma processRequest_world request w :
  snd (processRequest request w) =
  match OllamaClient.generate_call (SemanticBridge.ollama (bridge w)) request with
  | Return post =>
      with_calls (posts w ++ [post])
        (awaiting w ++ [(List.length (posts w), mkInFlight request (clock w))]) w
  | Throw error => relay_send (semantic_error request error (clock w)) w
  end.
Proof.
  rewrite processRequest_eq.
  destruct (OllamaClient.generate_call _ request); [reflexivity|].
  now rewrite processRequest_catch_eq.
Qed.

Lemma connectToFederation_world w :
  exists code,
    snd (connectToFederation w) =
    if ws_accepts w (federation_url (config w)) then
      with_attempts
        (attempts w ++ [mkAttempt (Some (List.length (sockets w))) Pending])
        (with_bridge
           (with_federationConnection (Some (List.length (sockets w)))
                                      (bridge w))
           (with_sockets
              (sockets w ++ [mkSocket (federation_url (config w)) CONNECTING])
              w))
    else
      with_exited code
        (with_attempts
           (attempts w ++
              [mkAttempt None
                 (Rejected
                    (SyntaxError ("Invalid URL: " ++ federation_url (config w))))])
           w).
Proof.
  unfold connectToFederation. destruct (ws_accepts w _); [now exists None|].
  match goal with
  | |- context [rejection ?i ?x] => destruct (rejection_frame i x) as [c ->]
  end. now exists c.
Qed.

(* ------------------------------------------------------------------ *)
(** * Malformed messages                                                *)
(* ------------------------------------------------------------------ *)

Lemma handleFederationMessage_malformed message w :
  malformed message -> handleFederationMessage message w = (Return tt, w).
Proof.
  unfold malformed, handleFederationMessage, try_catch, bind, lift.
  destruct (JSON_parse message) as [data|e]; [|reflexivity].
  destruct data; simpl; try reflexivity.
  now intros ->.
Qed.

(** C6. An inbound payload that cannot be parsed, or whose parsed value has
    no [type] field, is discarded: the handler returns without raising, no
    outbound frame is produced, and the queue length and the cache size
    that [getStats] reports are what they were. *)
Theorem malformed_message_discarded :
  forall (w : World) (s : nat) (message : payload),
    malformed message ->
    handleFederationMessage message w = (Return tt, w) /\
    dispatch (WsMessage s message) w = (Return tt, w) /\
    wire (step w (WsMessage s message)) = wire w /\
    queueLength (getStats (bridge (step w (WsMessage s message))))
    = queueLength (getStats (bridge w)) /\
    cacheSize (getStats (bridge (step w (WsMessage s message))))
    = cacheSize (getStats (bridge w)).
Proof.
  intros w s message H.
  pose proof (handleFederationMessage_malformed message w H) as E.
  assert (D : dispatch (WsMessage s message) w = (Return tt, w)).
  { unfold dispatch. destruct (exited w); [reflexivity|].
    simpl. destruct (socket_in w s _); [|reflexivity]. exact E. }
  unfold step. rewrite D. simpl. auto.
Qed.

Lemma malformed_message_discarded_witness :
  wire (step world_connected (WsMessage 0 message_without_type))
  = wire world_connected.
Proof.
  apply (malformed_message_discarded world_connected 0 message_without_type).
  reflexivity.
Defined.

(* ------------------------------------------------------------------ *)
(** * What a turn of the event loop touches                             *)
(* ------------------------------------------------------------------ *)

Lemma set_readyState_frame s state w :
  exists socks, set_readyState s state w = with_sockets socks w.
Proof.
  unfold set_readyState. destruct (nth_error (sockets w) s).
  - eauto.
  - exists (sockets w). now destruct w.
Qed.

Lemma bridge_relay_send message w : bridge (relay_send message w) = bridge w.
Proof. destruct (relay_send_frame message w) as [f ->]. reflexivity. Qed.

Lemma posts_relay_send message w : posts (relay_send message w) = posts w.
Proof. destruct (relay_send_frame message w) as [f ->]. reflexivity. Qed.

Lemma awaiting_relay_send message w : awaiting (relay_send message w) = awaiting w.
Proof. destruct (relay_send_frame message w) as [f ->]. reflexivity. Qed.

Lemma timeouts_relay_send message w : timeouts (relay_send message w) = timeouts w.
Proof. destruct (relay_send_frame message w) as [f ->]. reflexivity. Qed.

Lemma exited_relay_send message w : exited (relay_send message w) = exited w.
Proof. destruct (relay_send_frame message w) as [f ->]. reflexivity. Qed.

Lemma wire_relay_send message w :
  wire (relay_send message w) =
  wire w ++ match link_open w with
            | Some s => [(s, JSON_stringify message)]
            | None => []
            end.
Proof.
  rewrite relay_send_eq. destruct (link_open w); simpl; auto.
  now rewrite app_nil_r.
Qed.

Lemma bridge_forget_call call w : bridge (forget_call call w) = bridge w.
Proof.
  unfold forget_call. now destruct (take_call call (awaiting w)) as [[k rest]|].
Qed.

Lemma posts_forget_call call w : posts (forget_call call w) = posts w.
Proof.
  unfold forget_call. now destruct (take_call call (awaiting w)) as [[k rest]|].
Qed.

Lemma timeouts_forget_call call w : timeouts (forget_call call w) = timeouts w.
Proof.
  unfold forget_call. now destruct (take_call call (awaiting w)) as [[k rest]|].
Qed.

Lemma wire_forget_call call w : wire (forget_call call w) = wire w.
Proof.
  unfold forget_call. now destruct (take_call call (awaiting w)) as [[k rest]|].
Qed.

Lemma link_open_forget_call call w : link_open (forget_call call w) = link_open w.
Proof.
  unfold forget_call. now destruct (take_call call (awaiting w)) as [[k rest]|].
Qed.

Lemma link_open_cached id response call w :
  link_open (with_bridge (cache_set id response (bridge w)) (forget_call call w))
  = link_open w.
Proof.
  unfold forget_call. now destruct (take_call call (awaiting w)) as [[k rest]|].
Qed.

Lemma wire_cached id response call w :
  wire (with_bridge (cache_set id response (bridge w)) (forget_call call w))
  = wire w.
Proof.
  unfold forget_call. now destruct (take_call call (awaiting w)) as [[k rest]|].
Qed.

(** The events of the relay link and of the timers leave the requests
    alone: the bridge but for [federationConnection], the calls and the
    wire. *)
Lemma handle_quiet e w :
  ~ is_message e -> ~ is_settled e ->
  SemanticBridge.processingQueue (bridge (snd (handle e w)))
  = SemanticBridge.processingQueue (bridge w) /\
  SemanticBridge.messageCache (bridge (snd (handle e w)))
  = SemanticBridge.messageCache (bridge w) /\
  posts (snd (handle e w)) = posts w /\
  awaiting (snd (handle e w)) = awaiting w /\
  wire (snd (handle e w)) = wire w.
Proof.
  intros Hm Hs.
  assert (Hc : forall x,
             SemanticBridge.processingQueue (bridge (snd (connectToFederation x)))
             = SemanticBridge.processingQueue (bridge x) /\
             SemanticBridge.messageCache (bridge (snd (connectToFederation x)))
             = SemanticBridge.messageCache (bridge x) /\
             posts (snd (connectToFederation x)) = posts x /\
             awaiting (snd (connectToFederation x)) = awaiting x /\
             wire (snd (connectToFederation x)) = wire x).
  { intros x. destruct (connectToFederation_world x) as [c ->].
    destruct (ws_accepts x _); simpl; auto. }
  destruct e as [|s|s message|s error|s|call reply| |now]; simpl.
  - destruct (attempts w); [apply Hc | simpl; auto].
  - destruct (socket_in w s _); [|simpl; auto].
    destruct (set_readyState_frame s OPEN w) as [f ->]. simpl. auto.
  - destruct Hm. exact I.
  - destruct (socket_in w s _); [|simpl; auto].
    destruct (on_error_frame s error (set_readyState s CLOSING w)) as [c ->].
    destruct (set_readyState_frame s CLOSING w) as [f ->]. simpl. auto.
  - destruct (socket_in w s _); [|simpl; auto].
    destruct (set_readyState_frame s CLOSED w) as [f ->]. simpl. auto.
  - destruct Hs. exact I.
  - destruct (Nat.ltb _ _); [|simpl; auto].
    destruct (Hc (with_timers (timeouts w) (S (timers_fired w)) w))
      as (H1 & H2 & H3 & H4 & H5).
    rewrite H1, H2, H3, H4, H5. simpl. auto.
  - auto.
Qed.

(* ------------------------------------------------------------------ *)
(** * The processing queue                                              *)
(* ------------------------------------------------------------------ *)

Lemma queue_processRequest request w :
  SemanticBridge.processingQueue (bridge (snd (processRequest request w)))
  = SemanticBridge.processingQueue (bridge w).
Proof.
  rewrite processRequest_world.
  destruct (OllamaClient.generate_call _ request); [reflexivity|].
  now rewrite bridge_relay_send.
Qed.

(** One turn of the event loop leaves the queue as it is or appends one
    request to it. *)
Lemma step_queue w e :
  SemanticBridge.processingQueue (bridge (step w e))
  = SemanticBridge.processingQueue (bridge w) \/
  exists request,
    SemanticBridge.processingQueue (bridge (step w e))
    = SemanticBridge.processingQueue (bridge w) ++ [request].
Proof.
  destruct (exited w) as [c|] eqn:Ex;
    [left; now rewrite (step_exited _ _ c Ex)|].
  destruct e as [|s|s message|s error|s|call reply| |now];
    try (left; rewrite step_running by assumption; now apply handle_quiet).
  - destruct (step_WsMessage_cases w s message)
      as [H | (data & request & w1 & _ & _ & Hw1 & H)]; rewrite H.
    + now left.
    + right. exists request. rewrite queue_processRequest.
      destruct Hw1 as [-> | ->]; reflexivity.
  - left. destruct (take_call call (awaiting w)) as [[k rest]|] eqn:H.
    + rewrite (step_HttpSettled w call reply k rest Ex H).
      destruct (OllamaClient.generate_settled _ _ _ reply _ _);
        rewrite bridge_relay_send; simpl; now rewrite ?bridge_forget_call.
    + now rewrite step_HttpSettled_unknown.
Qed.

Lemma run_app w es es' : run w (es ++ es') = run (run w es) es'.
Proof. apply fold_left_app. Qed.

Lemma run_queue es : forall w,
  exists added,
    SemanticBridge.processingQueue (bridge (run w es))
    = SemanticBridge.processingQueue (bridge w) ++ added.
Proof.
  induction es as [|e es IH]; intros w; simpl.
  - exists []. now rewrite app_nil_r.
  - destruct (IH (step w e)) as [added Ha]. rewrite Ha.
    destruct (step_queue w e) as [-> | [request ->]].
    + now exists added.
    + exists (request :: added). now rewrite <- app_assoc.
Qed.

(** C8. Whatever happens to the bridge, the requests already in the
    processing queue stay in it, in place: the queue only grows at its end,
    so the [queueLength] that [getStats] reports never decreases. *)
Theorem queue_never_shrinks :
  forall (w : World) (es : list Event),
    (exists added,
        SemanticBridge.processingQueue (bridge (run w es))
        = SemanticBridge.processingQueue (bridge w) ++ added) /\
    queueLength (getStats (bridge w))
    <= queueLength (getStats (bridge (run w es))).
Proof.
  intros w es. destruct (run_queue es w) as [added H].
  split; [now exists added|].
  simpl. rewrite H, length_app. lia.
Qed.

(* ------------------------------------------------------------------ *)
(** * Backend failures                                                  *)
(* ------------------------------------------------------------------ *)

Lemma pending_take_call w call k :
  pending w call = Some k ->
  exists rest, take_call call (awaiting w) = Some (k, rest).
Proof.
  unfold pending. destruct (take_call call (awaiting w)) as [[k' rest]|];
    simpl; intros H; inversion H. eauto.
Qed.

(** A POST is issued only while an inbound message is handled. *)
Lemma step_posts w e : ~ is_message e -> posts (step w e) = posts w.
Proof.
  intros He.
  destruct (exited w) as [c|] eqn:Ex; [now rewrite (step_exited _ _ c Ex)|].
  destruct e as [|s|s message|s error|s|call reply| |now];
    try (rewrite step_running by assumption; apply handle_quiet;
         now intros []).
  - destruct He. exact I.
  - destruct (take_call call (awaiting w)) as [[k rest]|] eqn:H.
    + rewrite (step_HttpSettled w call reply k rest Ex H).
      destruct (OllamaClient.generate_settled _ _ _ reply _ _);
        rewrite posts_relay_send; simpl; now rewrite ?posts_forget_call.
    + now rewrite step_HttpSettled_unknown.
Qed.

Lemma run_posts es : forall w,
  Forall (fun e => ~ is_message e) es -> posts (run w es) = posts w.
Proof.
  induction es as [|e es IH]; intros w H; simpl.
  - reflexivity.
  - inversion H; subst. rewrite IH by assumption. now apply step_posts.
Qed.

Lemma semantic_error_frame request error now id :
  SemanticRequest.id request = JStr id ->
  JSON_stringify (semantic_error request error now) =
  Text_json (JObj [ ("type", JStr "semantic_error");
                    ("id", JStr id);
                    ("error", JStr (String_of_error error));
                    ("timestamp", json_number now) ]).
Proof.
  intros H. unfold JSON_stringify, semantic_error. simpl. now rewrite H.
Qed.

(** C5. When the backend call of a request fails, the bridge hands to the
    guarded relay send one [semantic_error] message
    [{type, id, error: String(error), timestamp}] carrying the identifier
    of the request: on an open link exactly that frame goes out.  The bridge
    state, and with it the cache, is what it was, so an identifier that had
    no entry still has none.  The request is not retried: the failure
    issues no POST and sets no timer, and no POST is issued afterwards
    unless a new message arrives. *)
Theorem backend_failure_is_terminal :
  forall (w : World) (call : nat) (k : InFlight) (error : JsError),
    exited w = None ->
    pending w call = Some k ->
    let w' := step w (HttpSettled call (Throw error)) in
    let message := semantic_error (call_request k) error (clock w) in
    w' = relay_send message (forget_call call w) /\
    (forall s, link_open w = Some s ->
               wire w' = wire w ++ [(s, JSON_stringify message)]) /\
    (forall id, SemanticRequest.id (call_request k) = JStr id ->
                JSON_stringify message =
                Text_json (JObj [ ("type", JStr "semantic_error");
                                  ("id", JStr id);
                                  ("error", JStr (String_of_error error));
                                  ("timestamp", json_number (clock w)) ])) /\
    bridge w' = bridge w /\
    (forall id, getResponse (bridge w) id = None ->
                getResponse (bridge w') id = None) /\
    posts w' = posts w /\
    timeouts w' = timeouts w /\
    (forall es, Forall (fun e => ~ is_message e) es ->
                posts (run w' es) = posts w).
Proof.
  intros w call k error Hrun Hk w' message.
  destruct (pending_take_call w call k Hk) as [rest Ht].
  assert (E : w' = relay_send message (forget_call call w)).
  { unfold w'. now rewrite (step_HttpSettled w call _ k rest Hrun Ht). }
  assert (B : bridge w' = bridge w).
  { rewrite E. now rewrite bridge_relay_send, bridge_forget_call. }
  assert (P : posts w' = posts w).
  { rewrite E. now rewrite posts_relay_send, posts_forget_call. }
  repeat split.
  - exact E.
  - intros s Hs. rewrite E, wire_relay_send, link_open_forget_call, Hs.
    now rewrite wire_forget_call.
  - intros id Hid. now apply semantic_error_frame.
  - exact B.
  - intros id Hid. now rewrite B.
  - exact P.
  - rewrite E. now rewrite timeouts_relay_send, timeouts_forget_call.
  - intros es Hes. rewrite run_posts by assumption. exact P.
Qed.

Lemma backend_failure_is_terminal_witness :
  wire (step world_awaiting (HttpSettled 0 (Throw timeout_error)))
  = [(0, Text_json
           (JObj [ ("type", JStr "semantic_error");
                   ("id", JStr "msg-2");
                   ("error", JStr "AxiosError: timeout of 60000ms exceeded");
                   ("timestamp", JNum (num_of_Z 1000)) ]))] /\
  getResponse (bridge (step world_awaiting (HttpSettled 0 (Throw timeout_error))))
              "msg-2" = None.
Proof.
  pose proof (backend_failure_is_terminal world_awaiting 0 _ timeout_error
                eq_refl eq_refl)
    as (_ & Hwire & _ & _ & Hcache & _).
  split.
  - exact (Hwire 0 eq_refl).
  - apply Hcache. reflexivity.
Defined.

(* ------------------------------------------------------------------ *)
(** * The relay link                                                    *)
(* ------------------------------------------------------------------ *)

(** ** Frames leave only through an open link *)

Lemma step_wire w e :
  wire (step w e) = wire w \/
  exists s frame, link_open w = Some s /\ wire (step w e) = wire w ++ [(s, frame)].
Proof.
  destruct (exited w) as [c|] eqn:Ex;
    [left; now rewrite (step_exited _ _ c Ex)|].
  destruct e as [|s|s message|s error|s|call reply| |now];
    try (left; rewrite step_running by assumption; now apply handle_quiet).
  - destruct (step_WsMessage_cases w s message)
      as [H | (data & request & w1 & _ & _ & Hw1 & H)]; rewrite H; [now left|].
    rewrite processRequest_world.
    assert (L : link_open (with_bridge (queue_push request (bridge w1)) w1)
                = link_open w) by (destruct Hw1 as [-> | ->]; reflexivity).
    assert (W : wire (with_bridge (queue_push request (bridge w1)) w1) = wire w)
      by (destruct Hw1 as [-> | ->]; reflexivity).
    destruct (OllamaClient.generate_call _ request) as [post|error].
    + left. simpl. destruct Hw1 as [-> | ->]; reflexivity.
    + rewrite wire_relay_send, L, W. destruct (link_open w) as [l|].
      * right. eauto.
      * left. apply app_nil_r.
  - destruct (take_call call (awaiting w)) as [[k rest]|] eqn:H.
    + rewrite (step_HttpSettled w call reply k rest Ex H).
      destruct (OllamaClient.generate_settled _ _ _ reply _ _);
        rewrite wire_relay_send;
        rewrite ?link_open_cached, ?wire_cached,
          ?link_open_forget_call, ?wire_forget_call;
        (destruct (link_open w) as [l|];
         [right; eauto | left; apply app_nil_r]).
    + left. now rewrite step_HttpSettled_unknown.
Qed.

(** ** Code that does not look at the cache *)

Lemma cache_blind_ret {A : Type} (a : A) : cache_blind (ret a).
Proof. intros c w. reflexivity. Qed.

Lemma cache_blind_lift {A : Type} (r : result A) : cache_blind (lift r).
Proof. intros c w. reflexivity. Qed.

Lemma cache_blind_bind {A B : Type} (m : M A) (k : A -> M B) :
  cache_blind m -> (forall a, cache_blind (k a)) -> cache_blind (bind m k).
Proof.
  intros Hm Hk c w. unfold bind. rewrite Hm.
  destruct (m w) as [[a|e] w']; simpl; [apply Hk | reflexivity].
Qed.

Lemma cache_blind_try_catch {A : Type} (m : M A) (h : JsError -> M A) :
  cache_blind m -> (forall e, cache_blind (h e)) -> cache_blind (try_catch m h).
Proof.
  intros Hm Hh c w. unfold try_catch. rewrite Hm.
  destruct (m w) as [[a|e] w']; simpl; [reflexivity | apply Hh].
Qed.

Lemma cache_blind_modify (f : World -> World) :
  (forall c w, f (recache c w) = recache c (f w)) -> cache_blind (modify f).
Proof. intros Hf c w. unfold modify. now rewrite Hf. Qed.

Lemma cache_blind_Date_now : cache_blind Date_now.
Proof. intros c w. reflexivity. Qed.

Lemma cache_blind_uuidv4 : cache_blind uuidv4.
Proof. intros c w. reflexivity. Qed.

Lemma cache_blind_this_ollama : cache_blind this_ollama.
Proof. intros c w. reflexivity. Qed.

Lemma cache_blind_send_if_open (message : M value) :
  cache_blind message -> cache_blind (send_if_open message).
Proof.
  intros Hm c w. unfold send_if_open.
  change (link_open (recache c w)) with (link_open w).
  destruct (link_open w) as [s|]; [|reflexivity].
  apply cache_blind_bind; [exact Hm|].
  intros v. now apply cache_blind_modify.
Qed.

Lemma cache_blind_if {A : Type} (b : bool) (m1 m2 : M A) :
  cache_blind m1 -> cache_blind m2 -> cache_blind (if b then m1 else m2).
Proof. now destruct b. Qed.

Create HintDb blind.
#[local] Hint Resolve cache_blind_ret cache_blind_lift cache_blind_Date_now
  cache_blind_uuidv4 cache_blind_this_ollama cache_blind_if : blind.

Ltac blind :=
  repeat first
    [ apply cache_blind_bind; [|intros ?]
    | apply cache_blind_try_catch; [|intros ?]
    | apply cache_blind_send_if_open
    | apply cache_blind_if
    | apply cache_blind_modify; reflexivity
    | solve [auto with blind] ].

Lemma cache_blind_processRequest_catch request error :
  cache_blind (processRequest_catch request error).
Proof. unfold processRequest_catch. blind. Qed.

Lemma cache_blind_processRequest request : cache_blind (processRequest request).
Proof.
  unfold processRequest, await_post. blind.
Qed.

Lemma cache_blind_build_request data : cache_blind (build_request data).
Proof. unfold build_request. blind. Qed.

Lemma cache_blind_handleFederationMessage message :
  cache_blind (handleFederationMessage message).
Proof.
  unfold handleFederationMessage. blind.
Qed.


Lemma cache_blind_rejection i : cache_blind (rejection i).
Proof.
  intros c w. unfold rejection.
  change (unhandled_rejections_exit (recache c w))
    with (unhandled_rejections_exit w).
  destruct i; [reflexivity|]. now destruct (unhandled_rejections_exit w).
Qed.

Lemma cache_blind_connectToFederation : cache_blind connectToFederation.
Proof.
  intros c w. unfold connectToFederation.
  change (ws_accepts (recache c w)) with (ws_accepts w).
  change (config (recache c w)) with (config w).
  destruct (ws_accepts w _); [reflexivity|].
  change (attempts (recache c w)) with (attempts w).
  change (with_attempts ?a (recache c w)) with (recache c (with_attempts a w)).
  apply cache_blind_rejection.
Qed.

Lemma cache_blind_on_error s error : cache_blind (on_error s error).
Proof.
  intros c w. unfold on_error.
  change (attempts (recache c w)) with (attempts w).
  change (with_attempts ?a (recache c w)) with (recache c (with_attempts a w)).
  destruct (pending_attempt s (attempts w) 0); [|reflexivity].
  apply cache_blind_rejection.
Qed.

Lemma set_readyState_recache s state c w :
  set_readyState s state (recache c w) = recache c (set_readyState s state w).
Proof.
  unfold set_readyState. change (sockets (recache c w)) with (sockets w).
  now destruct (nth_error (sockets w) s).
Qed.

Lemma relay_send_recache message c w :
  relay_send message (recache c w) = recache c (relay_send message w).
Proof.
  rewrite !relay_send_eq. change (link_open (recache c w)) with (link_open w).
  now destruct (link_open w).
Qed.

(** A turn of the event loop does the same, cache apart, whatever the
    cache holds. *)
Lemma step_recache w c e : exists c', step (recache c w) e = recache c' (step w e).
Proof.
  unfold step, dispatch. change (exited (recache c w)) with (exited w).
  destruct (exited w); [now exists c|].
  destruct e as [|s|s message|s error|s|call reply| |now]; simpl.
  - change (attempts (recache c w)) with (attempts w).
    destruct (attempts w); [|now exists c].
    exists c. now rewrite cache_blind_connectToFederation.
  - change (socket_in (recache c w) s) with (socket_in w s).
    destruct (socket_in w s _); [|now exists c].
    exists c. rewrite set_readyState_recache. reflexivity.
  - change (socket_in (recache c w) s) with (socket_in w s).
    destruct (socket_in w s _); [|now exists c].
    exists c. unfold on_message. now rewrite cache_blind_handleFederationMessage.
  - change (socket_in (recache c w) s) with (socket_in w s).
    destruct (socket_in w s _); [|now exists c].
    exists c. rewrite set_readyState_recache.
    now rewrite cache_blind_on_error.
  - change (socket_in (recache c w) s) with (socket_in w s).
    destruct (socket_in w s _); [|now exists c].
    exists c. rewrite set_readyState_recache. reflexivity.
  - change (awaiting (recache c w)) with (awaiting w).
    destruct (take_call call (awaiting w)) as [[k rest]|]; [|now exists c].
    rewrite !processRequest_settled_eq. simpl.
    destruct (OllamaClient.generate_settled _ _ _ reply _ _) as [response|err].
    + eexists.
      change (with_bridge ?b (with_calls ?p ?a (recache c w)))
        with (recache (SemanticBridge.messageCache b) (with_calls p a w)).
      rewrite relay_send_recache.
      change (with_bridge (cache_set ?i ?r (bridge w)) ?x)
        with (recache (SemanticBridge.messageCache (cache_set i r (bridge w))) x).
      rewrite relay_send_recache. unfold recache. simpl. reflexivity.
    + exists c.
      change (with_calls ?p ?a (recache c w)) with (recache c (with_calls p a w)).
      now rewrite relay_send_recache.
  - change (timers_fired (recache c w)) with (timers_fired w).
    change (timeouts (recache c w)) with (timeouts w).
    destruct (Nat.ltb _ _); [|now exists c].
    exists c.
    change (with_timers ?t ?f (recache c w)) with (recache c (with_timers t f w)).
    now rewrite cache_blind_connectToFederation.
  - now exists c.
Qed.

Lemma run_recache es : forall w c,
  exists c', run (recache c w) es = recache c' (run w es).
Proof.
  induction es as [|e es IH]; intros w c; simpl.
  - now exists c.
  - destruct (step_recache w c e) as [c1 ->]. apply IH.
Qed.

Lemma link_open_spec w s :
  link_open w = Some s <->
  SemanticBridge.federationConnection (bridge w) = Some s /\
  socket_state w s = Some OPEN.
Proof.
  unfold link_open, socket_state.
  destruct (SemanticBridge.federationConnection (bridge w)) as [s'|].
  - destruct (nth_error (sockets w) s') as [sock|] eqn:E; simpl.
    + destruct (Z.eqb_spec (readyState sock) OPEN) as [Ho|Ho]; split.
      * intros H. injection H as <-. rewrite E. simpl. now rewrite Ho.
      * intros [H _]. exact H.
      * discriminate.
      * intros [H1 H2]. injection H1 as <-. rewrite E in H2. simpl in H2.
        injection H2 as H2. contradiction.
    + split; [discriminate|]. intros [H1 H2]. injection H1 as <-.
      rewrite E in H2. discriminate.
  - split; [discriminate | intros [H _]; discriminate].
Qed.

Lemma wire_recache c w : wire (recache c w) = wire w.
Proof. reflexivity. Qed.

(** A frame that could not be sent leaves nothing behind: from then on the
    wire is that of the world in which the call was simply forgotten. *)
Lemma dropped_frame_leaves_no_trace w call reply es :
  link_open w = None ->
  wire (run (step w (HttpSettled call reply)) es)
  = wire (run (forget_call call w) es).
Proof.
  intros Hl. destruct (exited w) as [code|] eqn:Ex.
  { rewrite (step_exited _ _ code Ex).
    assert (Hstay : forall x, exited x = Some code -> run x es = x).
    { induction es as [|e es IH]; intros x Hx; simpl; [reflexivity|].
      rewrite (step_exited _ _ code Hx). now apply IH. }
    rewrite !Hstay; [now rewrite wire_forget_call | | assumption].
    unfold forget_call.
    now destruct (take_call call (awaiting w)) as [[k rest]|]. }
  destruct (take_call call (awaiting w)) as [[k rest]|] eqn:H.
  - rewrite (step_HttpSettled w call reply k rest Ex H).
    destruct (OllamaClient.generate_settled _ _ _ reply _ _) as [response|error];
      rewrite relay_send_eq.
    + rewrite link_open_cached, Hl.
      destruct (run_recache es (forget_call call w)
                  (SemanticBridge.messageCache
                     (cache_set (SemanticRequest.id (call_request k)) response
                                (bridge w)))) as [c' Hc].
      unfold recache in Hc at 1.
      replace (bridge w) with (bridge (forget_call call w))
        by apply bridge_forget_call.
      unfold cache_set in *. simpl in *.
      rewrite bridge_forget_call in *. rewrite Hc. reflexivity.
    + now rewrite link_open_forget_call, Hl.
  - rewrite step_HttpSettled_unknown by assumption.
    unfold forget_call. now rewrite H.
Qed.

(** C7. A frame is handed to the relay socket only when the link is
    Connected, that is when [federationConnection] is a socket whose
    [readyState] is OPEN at that moment.  In any other state the send does
    nothing and raises nothing: no frame goes out, and the message is kept
    nowhere, so that whatever happens next the wire is the one of the world
    in which the call had simply been forgotten. *)
Theorem send_only_when_connected :
  forall (w : World),
    (forall e,
        wire (step w e) = wire w \/
        exists s frame,
          (SemanticBridge.federationConnection (bridge w) = Some s /\
           socket_state w s = Some OPEN) /\
          wire (step w e) = wire w ++ [(s, frame)]) /\
    (link_open w = None ->
     forall e, fst (dispatch e w) = Return tt /\ wire (step w e) = wire w) /\
    (link_open w = None ->
     forall call reply es,
       wire (run (step w (HttpSettled call reply)) es)
       = wire (run (forget_call call w) es)).
Proof.
  intros w. split; [|split].
  - intros e. destruct (step_wire w e) as [H | (s & frame & Hl & H)].
    + now left.
    + right. exists s, frame. split; [now apply link_open_spec | exact H].
  - intros Hnone e. split; [apply dispatch_returns|].
    destruct (step_wire w e) as [E | (s & frame & Hl & _)]; [exact E|].
    congruence.
  - intros Hnone call reply es. now apply dropped_frame_leaves_no_trace.
Qed.

Lemma send_only_when_connected_witness :
  wire (step world_offline (HttpSettled 0 (Return reply_4))) = [] /\
  wire (run (step world_offline (HttpSettled 0 (Return reply_4)))
            [TimerFired; WsOpen 1])
  = wire (run (forget_call 0 world_offline) [TimerFired; WsOpen 1]).
Proof.
  destruct (send_only_when_connected world_offline) as (_ & H2 & H3).
  split.
  - exact (proj2 (H2 eq_refl (HttpSettled 0 (Return reply_4)))).
  - exact (H3 eq_refl 0 (Return reply_4) [TimerFired; WsOpen 1]).
Defined.

(* ------------------------------------------------------------------ *)
(** * Successful requests                                               *)
(* ------------------------------------------------------------------ *)

(** C10. When the backend call of a request succeeds, the response is put
    in the cache of the running bridge whatever the state of the relay link:
    [getResponse] of the request's identifier then gives that response, also
    when the link is not Connected and no frame goes out. *)
Theorem success_is_cached_even_offline :
  forall (w : World) (call : nat) (k : InFlight) (data : GenerateData)
         (id : string),
    exited w = None ->
    pending w call = Some k ->
    SemanticRequest.id (call_request k) = JStr id ->
    exists response,
      OllamaClient.generate_settled (SemanticBridge.ollama (bridge w))
        (call_request k) (call_startTime k) (Return data) (clock w) (clock w)
      = Return response /\
      getResponse (bridge (step w (HttpSettled call (Return data)))) id
      = Some response /\
      (link_open w = None ->
       wire (step w (HttpSettled call (Return data))) = wire w).
Proof.
  intros w call k data id Hrun Hk Hid.
  destruct (pending_take_call w call k Hk) as [rest Ht].
  eexists. split; [reflexivity|].
  rewrite (step_HttpSettled w call _ k rest Hrun Ht). simpl.
  split.
  - rewrite bridge_relay_send. simpl. rewrite Hid.
    apply getResponse_cache_set_same.
  - intros Hl. rewrite wire_relay_send, link_open_cached, Hl, wire_cached.
    apply app_nil_r.
Qed.

Lemma success_is_cached_even_offline_witness :
  exists response,
    getResponse (bridge (step world_offline (HttpSettled 0 (Return reply_4))))
                "msg-2" = Some response /\
    SemanticResponse.response response = JStr "4" /\
    wire (step world_offline (HttpSettled 0 (Return reply_4))) = [].
Proof.
  destruct (success_is_cached_even_offline world_offline 0 _ reply_4 "msg-2"
              eq_refl eq_refl eq_refl) as (response & Hr & Hget & Hwire).
  exists response. split; [exact Hget|]. split.
  - injection Hr as <-. reflexivity.
  - exact (Hwire eq_refl).
Defined.


(* ------------------------------------------------------------------ *)
(** * Calls in flight                                                   *)
(* ------------------------------------------------------------------ *)

Lemma take_call_keeps call a k rest :
  take_call call a = Some (k, rest) ->
  forall P : nat * InFlight -> Prop, Forall P a -> Forall P rest.
Proof.
  revert k rest. induction a as [|[c k0] a IH]; simpl; intros k rest H P HP.
  - discriminate.
  - inversion HP; subst. destruct (Nat.eqb c call).
    + injection H as <- <-. assumption.
    + destruct (take_call call a) as [[k' rest']|]; [|discriminate].
      injection H as <- <-. constructor; eauto.
Qed.

Lemma take_call_app call a l k rest :
  take_call call a = Some (k, rest) ->
  take_call call (a ++ l) = Some (k, rest ++ l).
Proof.
  revert k rest. induction a as [|[c k0] a IH]; simpl; intros k rest H.
  - discriminate.
  - destruct (Nat.eqb c call).
    + now injection H as <- <-.
    + destruct (take_call call a) as [[k' rest']|]; [|discriminate].
      injection H as <- <-. now rewrite (IH k' rest' eq_refl).
Qed.

Lemma take_call_fresh call a k :
  Forall (fun c => fst c < call) a ->
  take_call call (a ++ [(call, k)]) = Some (k, a).
Proof.
  induction a as [|[c k0] a IH]; simpl; intros H.
  - now rewrite Nat.eqb_refl.
  - inversion H as [|? ? Hc Ha]; subst. simpl in Hc.
    destruct (Nat.eqb_spec c call); [lia|].
    now rewrite IH.
Qed.

Lemma take_call_other c call a k rest :
  c <> call ->
  take_call c a = Some (k, rest) ->
  option_map fst (take_call call rest) = option_map fst (take_call call a).
Proof.
  intros Hc. revert k rest.
  induction a as [|[c0 k0] a IH]; simpl; intros k rest H.
  - discriminate.
  - destruct (Nat.eqb_spec c0 c) as [->|Hc0].
    + injection H as <- <-.
      destruct (Nat.eqb_spec c call); [contradiction|].
      now destruct (take_call call a) as [[k' rest']|].
    + destruct (take_call c a) as [[k' rest']|] eqn:E; [|discriminate].
      injection H as <- <-. simpl.
      destruct (Nat.eqb c0 call); [reflexivity|].
      specialize (IH k' rest' eq_refl).
      destruct (take_call call rest') as [[k1 r1]|],
               (take_call call a) as [[k2 r2]|]; simpl in *; congruence.
Qed.

(** How a turn of the event loop changes the calls: a message may add one
    call, named by the number of POSTs so far; a settled call is taken off;
    nothing else changes them. *)
Lemma step_calls w e :
  (posts (step w e) = posts w /\ awaiting (step w e) = awaiting w) \/
  (exists post k,
      is_message e /\
      posts (step w e) = posts w ++ [post] /\
      awaiting (step w e) = awaiting w ++ [(List.length (posts w), k)]) \/
  (exists call reply k,
      e = HttpSettled call reply /\
      posts (step w e) = posts w /\
      take_call call (awaiting w) = Some (k, awaiting (step w e))).
Proof.
  destruct (exited w) as [c|] eqn:Ex;
    [left; now rewrite (step_exited _ _ c Ex)|].
  destruct e as [|s|s message|s error|s|call reply| |now];
    try (left; rewrite step_running by assumption;
         split; apply handle_quiet; now intros []).
  - destruct (step_WsMessage_cases w s message)
      as [H | (data & request & w1 & _ & _ & Hw1 & H)]; rewrite H;
      [left; now split|].
    rewrite processRequest_world.
    destruct (OllamaClient.generate_call _ request) as [post|error].
    + right. left. exists post. eexists. split; [exact I|].
      destruct Hw1 as [-> | ->]; simpl; split; reflexivity.
    + left. rewrite posts_relay_send, awaiting_relay_send.
      destruct Hw1 as [-> | ->]; split; reflexivity.
  - destruct (take_call call (awaiting w)) as [[k rest]|] eqn:H.
    + right. right. exists call, reply, k. split; [reflexivity|].
      rewrite (step_HttpSettled w call reply k rest Ex H).
      destruct (OllamaClient.generate_settled _ _ _ reply _ _);
        rewrite posts_relay_send, awaiting_relay_send; simpl;
        unfold forget_call; rewrite H; simpl; split; reflexivity.
    + left. rewrite step_HttpSettled_unknown by assumption. now split.
Qed.

Lemma step_calls_fresh w e : calls_fresh w -> calls_fresh (step w e).
Proof.
  unfold calls_fresh. intros H.
  destruct (step_calls w e)
    as [[Hp Ha] | [(post & k & _ & Hp & Ha) | (call & reply & k & _ & Hp & Ha)]];
    rewrite Hp.
  - now rewrite Ha.
  - rewrite Ha, length_app. simpl. apply Forall_app. split.
    + eapply Forall_impl; [|exact H]. simpl. intros c Hc. lia.
    + constructor; [simpl; lia | constructor].
  - eapply take_call_keeps; eauto.
Qed.

Lemma reachable_calls_fresh w : reachable w -> calls_fresh w.
Proof.
  induction 1 as [cfg accepts fatal uuids now | w e _ IH].
  - constructor.
  - now apply step_calls_fresh.
Qed.

Lemma reachable_run es : forall w, reachable w -> reachable (run w es).
Proof.
  induction es as [|e es IH]; intros w H; simpl; [assumption|].
  apply IH. now constructor.
Qed.

(** A call stays in flight until it settles. *)
Lemma step_pending w e call k :
  pending w call = Some k -> ~ settles call e -> pending (step w e) call = Some k.
Proof.
  unfold pending. intros Hk He.
  destruct (step_calls w e)
    as [[_ Ha] | [(post & k' & _ & _ & Ha) | (c & reply & k' & -> & _ & Ha)]].
  - now rewrite Ha.
  - rewrite Ha.
    destruct (take_call call (awaiting w)) as [[k0 rest]|] eqn:E; [|discriminate].
    now rewrite (take_call_app _ _ _ _ _ E).
  - simpl in He. now rewrite (take_call_other c call _ _ _ He Ha).
Qed.

Lemma run_pending es : forall w call k,
  pending w call = Some k ->
  Forall (fun e => ~ settles call e) es ->
  pending (run w es) call = Some k.
Proof.
  induction es as [|e es IH]; intros w call k Hk Hes; simpl; [assumption|].
  inversion Hes; subst. apply IH; [|assumption]. now apply step_pending.
Qed.

(* ------------------------------------------------------------------ *)
(** * Identifiers                                                       *)
(* ------------------------------------------------------------------ *)

(** What the bridge does with a well-formed request whose identifier is
    not empty: the request is queued and its POST is issued. *)
Lemma step_semantic_request w s fields id prompt :
  exited w = None ->
  socket_in w s [OPEN; CLOSING] = true ->
  semantic_request fields id prompt ->
  id <> "" ->
  let request :=
    SemanticRequest.make (JStr id) (JStr prompt) (field fields "model")
      (field fields "temperature") (field fields "topK") (field fields "topP")
      (clock w) in
  exists post,
    OllamaClient.generate_call (SemanticBridge.ollama (bridge w)) request
    = Return post /\
    step w (WsMessage s (Text_json (JObj fields))) =
    with_calls (posts w ++ [post])
      (awaiting w ++ [(List.length (posts w), mkInFlight request (clock w))])
      (with_bridge (queue_push request (bridge w)) w).
Proof.
  intros Hrun Hs (Htype & Hid & Hprompt) Hne request.
  eexists. split; [reflexivity|].
  rewrite step_running by assumption. simpl. rewrite Hs.
  unfold on_message, handleFederationMessage, try_catch, bind, lift. simpl.
  rewrite Htype. simpl.
  unfold build_request, bind, lift. simpl. rewrite Hid, Hprompt. simpl.
  apply String.eqb_neq in Hne. rewrite Hne. simpl.
  reflexivity.
Qed.

Lemma semantic_response_frame response :
  exists rest,
    JSON_stringify (semantic_response response) =
    Text_json (JObj (("type", JStr "semantic_response") :: rest)) /\
    (forall id, SemanticResponse.id response = JStr id ->
                assoc "id" rest = Some (JStr id)).
Proof.
  unfold JSON_stringify, semantic_response. simpl.
  eexists. split; [reflexivity|].
  intros id Hid. rewrite Hid. reflexivity.
Qed.

(** C3, as the code has it.  For every inbound [semantic_request] whose
    [id] is a string that is not empty, the [semantic_response] that goes
    out when the backend call succeeds carries that very [id], whatever
    happened between the request and the answer while the process kept
    running. *)
Theorem response_echoes_request_id :
  forall (w : World) (s : nat) (fields : list (string * value))
         (id prompt : string) (es : list Event) (data : GenerateData)
         (link : nat),
    reachable w ->
    exited w = None ->
    socket_in w s [OPEN; CLOSING] = true ->
    semantic_request fields id prompt ->
    id <> "" ->
    Forall (fun e => ~ settles (List.length (posts w)) e) es ->
    exited (run (step w (WsMessage s (Text_json (JObj fields)))) es) = None ->
    link_open (run (step w (WsMessage s (Text_json (JObj fields)))) es)
    = Some link ->
    exists frame,
      wire (step (run (step w (WsMessage s (Text_json (JObj fields)))) es)
                 (HttpSettled (List.length (posts w)) (Return data)))
      = wire (run (step w (WsMessage s (Text_json (JObj fields)))) es)
        ++ [(link, frame)] /\
      frame_field frame "type" = Some (JStr "semantic_response") /\
      frame_field frame "id" = Some (JStr id).
Proof.
  intros w s fields id prompt es data link Hw Hrun Hs Hreq Hne Hes Hrun2 Hlink.
  destruct (step_semantic_request w s fields id prompt Hrun Hs Hreq Hne)
    as (post & _ & Hstep).
  set (w1 := step w (WsMessage s (Text_json (JObj fields)))) in *.
  set (call := List.length (posts w)) in *.
  assert (Hp : pending w1 call =
               Some (mkInFlight
                       (SemanticRequest.make (JStr id) (JStr prompt)
                          (field fields "model") (field fields "temperature")
                          (field fields "topK") (field fields "topP") (clock w))
                       (clock w))).
  { unfold pending. rewrite Hstep. simpl.
    rewrite take_call_fresh; [reflexivity|].
    exact (reachable_calls_fresh w Hw). }
  pose proof (run_pending es w1 call _ Hp Hes) as Hp2.
  destruct (pending_take_call _ _ _ Hp2) as [rest Ht].
  rewrite (step_HttpSettled _ call _ _ rest Hrun2 Ht). simpl.
  rewrite wire_relay_send, link_open_cached, wire_cached, Hlink.
  match goal with
  | |- context [JSON_stringify (semantic_response ?r)] =>
      destruct (semantic_response_frame r) as (fs & Hf & Hidf)
  end.
  eexists. split; [reflexivity|]. rewrite Hf. simpl. split; [reflexivity|].
  apply Hidf. reflexivity.
Qed.

Lemma reachable_world_connected : reachable world_connected.
Proof. apply reachable_run. constructor. Qed.

Lemma response_echoes_request_id_witness :
  exists frame,
    wire (run world_connected
            [ WsMessage 0 (request_message (JStr "msg-1"));
              ClockAdvanced (num_of_Z 1500);
              HttpSettled 0 (Return reply_4) ])
    = [(0, frame)] /\
    frame_field frame "type" = Some (JStr "semantic_response") /\
    frame_field frame "id" = Some (JStr "msg-1").
Proof.
  refine (response_echoes_request_id world_connected 0
            [ ("type", JStr "semantic_request"); ("id", JStr "msg-1");
              ("prompt", JStr "2+2?") ]
            "msg-1" "2+2?" [ClockAdvanced (num_of_Z 1500)] reply_4 0
            reachable_world_connected eq_refl eq_refl _ _ _ eq_refl eq_refl).
  - repeat split.
  - discriminate.
  - constructor; [|constructor]. simpl. tauto.
Defined.

(** C3, as the specification states it, fails for a request whose [id] is
    present and empty: [data.id || uuidv4()] takes the empty string for a
    missing one, and the response carries the generated identifier. *)
Lemma empty_id_is_replaced :
  exists frame,
    wire (run world_connected
            [ WsMessage 0 (request_message (JStr ""));
              HttpSettled 0 (Return reply_4) ])
    = [(0, frame)] /\
    frame_field frame "type" = Some (JStr "semantic_response") /\
    frame_field frame "id" = Some (JStr example_uuid) /\
    frame_field frame "id" <> Some (JStr "").
Proof.
  eexists. split; [reflexivity|]. repeat split. discriminate.
Qed.

(* ------------------------------------------------------------------ *)
(** * Sampling parameters                                               *)
(* ------------------------------------------------------------------ *)

(** A temperature that is a number other than zero goes to the backend as
    it is, in range or not. *)
Lemma temperature_forwarded_when_truthy (c : OllamaClient.t)
    (request : SemanticRequest.t) (prompt : string) (t : number) :
  SemanticRequest.prompt request = JStr prompt ->
  SemanticRequest.temperature request = JNum t ->
  num_truthy t = true ->
  exists post,
    OllamaClient.generate_call c request = Return post /\
    assoc "temperature" (post_body post) = Some (JNum t).
Proof.
  intros Hp Ht Htruthy. unfold OllamaClient.generate_call. rewrite Hp, Ht.
  eexists. split; [reflexivity|]. simpl. unfold js_or. simpl.
  now rewrite Htruthy.
Qed.

Lemma temperature_forwarded_when_truthy_witness :
  exists post,
    OllamaClient.generate_call (OllamaClient.new "http://localhost:11434" "mistral")
      (SemanticRequest.make (JStr "msg-4") (JStr "2+2?") JUndefined
         (JNum (num_of_Z 2)) JUndefined JUndefined (num_of_Z 1000))
    = Return post /\
    assoc "temperature" (post_body post) = Some (JNum (num_of_Z 2)).
Proof.
  apply (temperature_forwarded_when_truthy _ _ "2+2?" (num_of_Z 2));
    reflexivity.
Defined.

(** A missing temperature is replaced by 0.7. *)
Lemma temperature_default (c : OllamaClient.t) (request : SemanticRequest.t)
    (prompt : string) :
  SemanticRequest.prompt request = JStr prompt ->
  SemanticRequest.temperature request = JUndefined ->
  exists post,
    OllamaClient.generate_call c request = Return post /\
    assoc "temperature" (post_body post) = Some (JNum lit_0_7).
Proof.
  intros Hp Ht. unfold OllamaClient.generate_call. rewrite Hp, Ht.
  eexists. split; reflexivity.
Qed.

(** C4 fails on the code at the temperature 0, which lies in [0, 1]: the
    request [{type, id, prompt, temperature: 0}] makes [generate] post the
    temperature 0.7, because [request.temperature || 0.7] takes the falsy
    0 for a missing value. *)
Theorem temperature_zero_is_replaced :
  js_leb lit_0 lit_0 = true /\
  js_leb lit_0 (num_of_Z 1) = true /\
  posted_temperatures
    (step world_connected (WsMessage 0 (temperature_message (JNum lit_0))))
  = [Some (JNum lit_0_7)] /\
  JNum lit_0_7 <> JNum lit_0.
Proof.
  repeat split. discriminate.
Qed.


(* ------------------------------------------------------------------ *)
(** * Reconnection                                                      *)
(* ------------------------------------------------------------------ *)

Lemma length_list_update {A : Type} (i : nat) (x : A) (l : list A) :
  List.length (list_update i x l) = List.length l.
Proof.
  revert i. induction l as [|y l IH]; intros [|i]; simpl; auto.
Qed.

Lemma nth_error_list_update {A : Type} (i : nat) (x y : A) (l : list A) :
  nth_error l i = Some y -> nth_error (list_update i x l) i = Some x.
Proof.
  revert i. induction l as [|z l IH]; intros [|i]; simpl; try discriminate; auto.
Qed.

Lemma socket_in_spec w s states :
  socket_in w s states = true ->
  exists sock,
    nth_error (sockets w) s = Some sock /\
    existsb (Z.eqb (readyState sock)) states = true.
Proof.
  unfold socket_in, socket_state.
  destruct (nth_error (sockets w) s) as [sock|]; simpl; [eauto | discriminate].
Qed.

(** After [set_readyState] the socket is in the state it was given. *)
Lemma socket_in_set_readyState w s state sock states :
  nth_error (sockets w) s = Some sock ->
  socket_in (set_readyState s state w) s states = existsb (Z.eqb state) states.
Proof.
  intros H. unfold socket_in, socket_state, set_readyState. rewrite H. simpl.
  now rewrite (nth_error_list_update s _ sock _ H).
Qed.

(** The promise of a started bridge's first attempt is settled, so the
    promise that an [error] rejects, if any, is one of a later attempt. *)
Lemma pending_attempt_from s a : forall i j,
  pending_attempt s a i = Some j -> i <= j.
Proof.
  induction a as [|x a IH]; intros i j; simpl; [discriminate|].
  destruct (attempt_socket x) as [s'|], (attempt_promise x);
    try (intros H; apply IH in H; lia).
  destruct (Nat.eqb s' s).
  - intros H. injection H as <-. lia.
  - intros H. apply IH in H. lia.
Qed.

Lemma pending_attempt_started w s :
  started w -> pending_attempt s (attempts w) 0 <> Some 0.
Proof.
  unfold started. destruct (attempts w) as [|a rest]; [contradiction|].
  intros Ha. simpl. rewrite Ha.
  destruct (attempt_socket a); intros H; apply pending_attempt_from in H; lia.
Qed.

Lemma started_settle w s outcome :
  started w -> started (with_attempts (map (settle s outcome) (attempts w)) w).
Proof.
  unfold started. simpl. destruct (attempts w) as [|a rest]; [contradiction|].
  intros Ha. simpl. unfold settle. rewrite Ha. now destruct (attempt_socket a).
Qed.

(** On a started bridge whose runtime tolerates unhandled rejections the
    [error] handler only settles the promise: it schedules nothing. *)
Lemma on_error_tolerated w s error :
  started w -> unhandled_rejections_exit w = false ->
  on_error s error w =
  (Return tt, with_attempts (map (settle s (Rejected error)) (attempts w)) w).
Proof.
  intros Hst Hmode. unfold on_error.
  pose proof (pending_attempt_started w s Hst) as H0.
  destruct (pending_attempt s (attempts w) 0) as [[|i]|]; try congruence.
  unfold rejection. simpl. now rewrite Hmode.
Qed.

(** A timer is set by the [close] event of a socket and by nothing else,
    and its delay is 5000 ms. *)
Lemma step_timeouts w e :
  timeouts (step w e) = timeouts w \/
  (exists s, e = WsClose s) /\ timeouts (step w e) = timeouts w ++ [5000%Z].
Proof.
  destruct (exited w) as [c|] eqn:Ex;
    [left; now rewrite (step_exited _ _ c Ex)|].
  rewrite step_running by assumption.
  assert (Hc : forall x, timeouts (snd (connectToFederation x)) = timeouts x).
  { intros x. destruct (connectToFederation_world x) as [c ->].
    now destruct (ws_accepts x _). }
  destruct e as [|s|s message|s error|s|call reply| |now]; simpl.
  - left. destruct (attempts w); [apply Hc | reflexivity].
  - left. destruct (socket_in w s _); [|reflexivity]. simpl.
    destruct (set_readyState_frame s OPEN w) as [f ->]. reflexivity.
  - left. destruct (socket_in w s _); [|reflexivity].
    destruct (handleFederationMessage_cases message w)
      as [H | (data & request & w1 & _ & _ & Hw1 & H)]; unfold on_message;
      rewrite H; [reflexivity|].
    rewrite processRequest_world.
    destruct (OllamaClient.generate_call _ request);
      rewrite ?timeouts_relay_send; destruct Hw1 as [-> | ->]; reflexivity.
  - left. destruct (socket_in w s _); [|reflexivity].
    destruct (on_error_frame s error (set_readyState s CLOSING w)) as [c ->].
    destruct (set_readyState_frame s CLOSING w) as [f ->]. reflexivity.
  - destruct (socket_in w s _); [|now left]. right. split; [eauto|]. simpl.
    destruct (set_readyState_frame s CLOSED w) as [f ->]. reflexivity.
  - left. destruct (take_call call (awaiting w)) as [[k rest]|]; [|reflexivity].
    rewrite processRequest_settled_eq. simpl.
    destruct (OllamaClient.generate_settled _ _ _ reply _ _);
      now rewrite timeouts_relay_send.
  - left. destruct (Nat.ltb _ _); [|reflexivity]. now rewrite Hc.
  - now left.
Qed.

(** The [close] event of the current socket and the timer it sets: one
    timer of 5000 ms, one more attempt, and the bridge reconnecting again. *)
Lemma close_then_timer w s :
  reconnecting w ->
  SemanticBridge.federationConnection (bridge w) = Some s ->
  socket_in w s [CONNECTING; OPEN; CLOSING] = true ->
  List.length (attempts (run w [WsClose s; TimerFired]))
  = S (List.length (attempts w)) /\
  timeouts (run w [WsClose s; TimerFired]) = timeouts w ++ [5000%Z] /\
  reconnecting (run w [WsClose s; TimerFired]).
Proof.
  intros (Hrun & Hst & _ & Hidle & Hacc & Hmode) Hconn Hin.
  unfold timers_idle in Hidle. simpl.
  rewrite (step_running w) by assumption. simpl. rewrite Hin.
  destruct (set_readyState_frame s CLOSED w) as [f ->]. simpl.
  rewrite step_running by exact Hrun. simpl.
  rewrite length_app, Hidle. simpl.
  replace (Nat.ltb _ _) with true by (symmetry; apply Nat.ltb_lt; lia).
  unfold connectToFederation. simpl. rewrite Hacc. simpl.
  rewrite length_app. simpl. repeat split; try lia; try assumption.
  - unfold started in *. simpl. now destruct (attempts w).
  - exists (List.length f). split; [reflexivity|].
    unfold socket_in, socket_state. simpl.
    rewrite nth_error_app2 by lia. now rewrite Nat.sub_diag.
  - unfold timers_idle. simpl. rewrite length_app. simpl. lia.
Qed.

(** One failure of a reconnecting bridge. *)
Lemma one_failure w error :
  reconnecting w ->
  List.length (attempts (run w (failure w error)))
  = S (List.length (attempts w)) /\
  timeouts (run w (failure w error)) = timeouts w ++ [5000%Z] /\
  reconnecting (run w (failure w error)).
Proof.
  intros Hw. pose proof Hw as (Hrun & Hst & (s & Hconn & Hin) & Hidle & Hacc & Hmode).
  unfold failure. rewrite Hconn. destruct error as [e|].
  - change (run w [WsError s e; WsClose s; TimerFired])
      with (run (step w (WsError s e)) [WsClose s; TimerFired]).
    destruct (socket_in_spec w s _ Hin) as (sock & Hsock & _).
    assert (E : step w (WsError s e) =
                with_attempts (map (settle s (Rejected e)) (attempts w))
                              (set_readyState s CLOSING w)).
    { rewrite step_running by assumption. simpl. rewrite Hin.
      destruct (set_readyState_frame s CLOSING w) as [f ->].
      rewrite on_error_tolerated; [reflexivity | exact Hst | exact Hmode]. }
    assert (Hin' : socket_in (step w (WsError s e)) s [CONNECTING; OPEN; CLOSING]
                   = true).
    { rewrite E.
      change (socket_in (with_attempts ?a ?x)) with (socket_in x).
      now rewrite (socket_in_set_readyState w s CLOSING sock _ Hsock). }
    assert (Hw' : reconnecting (step w (WsError s e))).
    { split; [|split; [|split; [|split; [|split]]]].
      - rewrite E. destruct (set_readyState_frame s CLOSING w) as [f ->].
        exact Hrun.
      - rewrite E. destruct (set_readyState_frame s CLOSING w) as [f ->].
        exact (started_settle w s (Rejected e) Hst).
      - exists s. split; [|exact Hin'].
        rewrite E. destruct (set_readyState_frame s CLOSING w) as [f ->].
        exact Hconn.
      - rewrite E. destruct (set_readyState_frame s CLOSING w) as [f ->].
        exact Hidle.
      - rewrite E. destruct (set_readyState_frame s CLOSING w) as [f ->].
        exact Hacc.
      - rewrite E. destruct (set_readyState_frame s CLOSING w) as [f ->].
        exact Hmode. }
    assert (Hconn' : SemanticBridge.federationConnection
                       (bridge (step w (WsError s e))) = Some s).
    { rewrite E. destruct (set_readyState_frame s CLOSING w) as [f ->].
      exact Hconn. }
    destruct (close_then_timer _ s Hw' Hconn' Hin') as (Ha & Ht & Hr).
    rewrite Ha, Ht. rewrite E at 1 2. simpl. rewrite length_map.
    destruct (set_readyState_frame s CLOSING w) as [f ->]. simpl.
    auto.
  - now apply close_then_timer.
Qed.

Lemma fail_failures errors : forall w,
  reconnecting w ->
  List.length (attempts (fail w errors))
  = List.length (attempts w) + List.length errors /\
  timeouts (fail w errors)
  = timeouts w ++ repeat 5000%Z (List.length errors) /\
  reconnecting (fail w errors).
Proof.
  induction errors as [|e errors IH]; intros w Hw; simpl.
  - rewrite Nat.add_0_r, app_nil_r. auto.
  - destruct (one_failure w e Hw) as (Ha & Ht & Hr).
    destruct (IH _ Hr) as (Ha' & Ht' & Hr').
    rewrite Ha', Ht', Ha, Ht, <- app_assoc. simpl.
    split; [lia | split; [reflexivity | exact Hr']].
Qed.

(** X29. Reconnection on a runtime that does not end the process on an
    unhandled rejection.  Take a bridge that has started and runs on such
    a runtime, with a relay socket that has not closed, no timer waiting
    and an address that the socket library accepts.  For every N, N
    consecutive failures of the connection, each reported by the [close]
    event of the current socket (after an [error] event or without one),
    set exactly N timers, each of 5000 ms, and lead to exactly N further
    calls of [connectToFederation]; after them the bridge is in such a
    state again, so there is no cap on N. *)
Theorem reconnect_after_every_close :
  forall (w : World) (errors : list (option JsError)),
    reconnecting w ->
    List.length (attempts (fail w errors))
    = List.length (attempts w) + List.length errors /\
    timeouts (fail w errors)
    = timeouts w ++ repeat 5000%Z (List.length errors) /\
    reconnecting (fail w errors).
Proof. intros w errors. apply fail_failures. Qed.

Lemma reconnecting_world_connected_lenient : reconnecting world_connected_lenient.
Proof.
  repeat split. exists 0. split; reflexivity.
Qed.

Lemma reconnect_after_every_close_witness :
  List.length
    (attempts (fail world_connected_lenient [None; Some refused; None])) = 4 /\
  timeouts (fail world_connected_lenient [None; Some refused; None])
  = [5000; 5000; 5000]%Z.
Proof.
  destruct (reconnect_after_every_close world_connected_lenient
              [None; Some refused; None] reconnecting_world_connected_lenient)
    as (Ha & Ht & _).
  split; [exact Ha | exact Ht].
Defined.

Lemma run_exited es : forall w code, exited w = Some code -> run w es = w.
Proof.
  induction es as [|e es IH]; intros w code H; simpl; [reflexivity|].
  rewrite (step_exited w e code H). now apply (IH w code).
Qed.

(** When [new WebSocket(url)] throws in the call that [initialize] makes,
    the promise is rejected, no timer is set and the process ends: nothing
    is attempted again. *)
Lemma constructor_failure_is_final w :
  exited w = None -> attempts w = [] ->
  ws_accepts w (federation_url (config w)) = false ->
  timeouts (step w Initialize) = timeouts w /\
  exited (step w Initialize) = Some 1%Z /\
  forall es, run (step w Initialize) es = step w Initialize.
Proof.
  intros Hrun Ha Hacc.
  assert (E : exited (step w Initialize) = Some 1%Z /\
              timeouts (step w Initialize) = timeouts w).
  { rewrite step_running by assumption. simpl. rewrite Ha.
    unfold connectToFederation. rewrite Hacc, Ha. now split. }
  destruct E as [E1 E2]. repeat split; auto.
  intros es. now apply (run_exited es _ 1%Z).
Qed.

(** A bridge that cannot start: with the port 99999 the address is
    invalid, the constructor of the socket throws, the first call of
    [connectToFederation] rejects its promise, no timer is set and [main]
    ends the process. *)
Lemma constructor_failure_schedules_nothing :
  attempts (run world_bad_port [Initialize])
  = [mkAttempt None
       (Rejected (SyntaxError "Invalid URL: ws://localhost:99999"))] /\
  timeouts (run world_bad_port [Initialize]) = [] /\
  exited (run world_bad_port [Initialize]) = Some 1%Z /\
  attempts (run world_bad_port [Initialize; TimerFired])
  = attempts (run world_bad_port [Initialize]).
Proof. repeat split. Qed.

(** On a runtime that ends the process on an unhandled rejection, which is
    what Node.js does unless told otherwise, a reconnect attempt that is
    refused ends the process: its promise is rejected and nothing handles
    it.  No further attempt is made, where the same events on the other
    runtime lead to one. *)
Example refused_reconnect_ends_process :
  exited (run world_connected [WsClose 0; TimerFired; WsError 1 refused])
  = Some 1%Z /\
  List.length
    (attempts (run world_connected
                 [WsClose 0; TimerFired; WsError 1 refused; WsClose 1;
                  TimerFired]))
  = 2 /\
  List.length
    (attempts (run world_connected_lenient
                 [WsClose 0; TimerFired; WsError 1 refused; WsClose 1;
                  TimerFired]))
  = 3.
Proof. repeat split. Qed.

(** When the first connection fails, [main] ends the process. *)
Example first_connection_failure_is_fatal :
  exited (run world_started_lenient [Initialize; WsError 0 refused]) = Some 1%Z.
Proof. reflexivity. Qed.

(* ================================================================== *)
(** * Further properties                                                *)
(* ================================================================== *)

(* ------------------------------------------------------------------ *)
(** * Messages that are not requests                                    *)
(* ------------------------------------------------------------------ *)

Lemma handleFederationMessage_not_request message w :
  is_semantic_request message = false ->
  handleFederationMessage message w = (Return tt, w).
Proof.
  unfold is_semantic_request, handleFederationMessage, try_catch, bind, lift.
  destruct (JSON_parse message) as [parsed|e]; [|reflexivity].
  destruct (get_prop parsed "type") as [t|e]; [|reflexivity].
  intros H. rewrite H. now destruct (truthy t).
Qed.

(** X1. Only a [semantic_request] has any effect: whatever else arrives on a
    relay socket (text that is not JSON, [null], a value without [type], a
    [type] that is not the string [semantic_request]) leaves the bridge and
    everything around it as they were. *)
Theorem only_requests_have_effect :
  forall (w : World) (s : nat) (message : payload),
    is_semantic_request message = false ->
    step w (WsMessage s message) = w.
Proof.
  intros w s message H. unfold step, dispatch.
  destruct (exited w); [reflexivity|]. simpl.
  destruct (socket_in w s _); [|reflexivity].
  unfold on_message. now rewrite handleFederationMessage_not_request.
Qed.

Lemma only_requests_have_effect_witness :
  step world_connected
       (WsMessage 0 (Text_json (JObj [("type", JStr "semantic_response");
                                      ("id", JStr "msg-1")])))
  = world_connected.
Proof.
  apply only_requests_have_effect. reflexivity.
Defined.

(* ------------------------------------------------------------------ *)
(** * Startup                                                           *)
(* ------------------------------------------------------------------ *)

Lemma map_name_names models : forall listed,
  Forall2 (fun m n => get_prop m "name" = Return n) models listed ->
  map_name models = Return listed.
Proof.
  induction models as [|m rest IH]; intros listed H; inversion H; subst; simpl.
  - reflexivity.
  - match goal with E : get_prop m "name" = _ |- _ => rewrite E end.
    now rewrite (IH _ ltac:(eassumption)).
Qed.

(** X2. [listModels] needs one GET of [/api/tags].  When the server
    answers it with a status from 200 to 299, so that [axios] resolves the
    promise, and lists models none of which is [null], [listModels] gives
    the [name] of each model listed, in the order of the reply.  When the
    server answers with any other status [axios] rejects the promise and
    [listModels] gives the empty list, whatever the reply lists. *)
Theorem listModels_gives_names :
  forall (c : OllamaClient.t) (response : HttpResponse)
         (models listed : list value) (later : list (result HttpResponse)),
    get_prop (response_data response) "models" = Return (JArr models) ->
    Forall2 (fun m n => get_prop m "name" = Return n) models listed ->
    settle_gets (listModels c) (Return response :: later)
    = ([tags_request c],
       Some (if ((200 <=? response_status response)
                 && (response_status response <? 300))%Z
             then listed else [])).
Proof.
  intros c response models listed later Hm Hn. simpl.
  destruct ((200 <=? response_status response)
            && (response_status response <? 300))%Z; [|reflexivity].
  unfold model_names. now rewrite Hm, (map_name_names models listed Hn).
Qed.

Lemma listModels_gives_names_witness :
  settle_gets (listModels (OllamaClient.new "http://localhost:11434" "mistral"))
    [Return tags_reply]
  = ([mkGet "http://localhost:11434/api/tags" 5000],
     Some [JStr "mistral:latest"; JStr "phi:latest"]) /\
  settle_gets (listModels (OllamaClient.new "http://localhost:11434" "mistral"))
    [Return (mkResponse 500 (response_data tags_reply))]
  = ([mkGet "http://localhost:11434/api/tags" 5000], Some []).
Proof.
  split.
  - apply (listModels_gives_names
             (OllamaClient.new "http://localhost:11434" "mistral") tags_reply
             [JObj [("name", JStr "mistral:latest");
                    ("size", JNum (num_of_Z 4109865159))];
              JObj [("name", JStr "phi:latest");
                    ("size", JNum (num_of_Z 1602463378))]]
             [JStr "mistral:latest"; JStr "phi:latest"] []).
    + reflexivity.
    + repeat constructor.
  - apply (listModels_gives_names
             (OllamaClient.new "http://localhost:11434" "mistral")
             (mkResponse 500 (response_data tags_reply))
             [JObj [("name", JStr "mistral:latest");
                    ("size", JNum (num_of_Z 4109865159))];
              JObj [("name", JStr "phi:latest");
                    ("size", JNum (num_of_Z 1602463378))]]
             [JStr "mistral:latest"; JStr "phi:latest"] []).
    + reflexivity.
    + repeat constructor.
Defined.

Lemma map_name_null models : In JNull models -> exists e, map_name models = Throw e.
Proof.
  induction models as [|m rest IH]; intros H; [destruct H|].
  destruct H as [H | H].
  - subst m. simpl. eauto.
  - destruct (IH H) as [e He]. simpl.
    destruct (get_prop m "name"); [rewrite He|]; eauto.
Qed.

Lemma map_name_length models : forall listed,
  map_name models = Return listed -> List.length listed = List.length models.
Proof.
  induction models as [|m rest IH]; simpl; intros listed H.
  - now inversion H.
  - destruct (get_prop m "name") as [n|e]; [|discriminate].
    destruct (map_name rest) as [ns|e]; [|discriminate].
    inversion H. simpl. now rewrite (IH ns).
Qed.

(** X3. [listModels] never fails, and it gives all the names or none: when the
    reply lists [models], the result has one entry for each of them or is
    empty, and it is empty as soon as one of the entries is [null]. *)
Theorem listModels_all_or_nothing :
  forall (c : OllamaClient.t) (response : HttpResponse) (models : list value),
    get_prop (response_data response) "models" = Return (JArr models) ->
    exists listed,
      settle_gets (listModels c) [Return response]
      = ([tags_request c], Some listed) /\
      (listed = [] \/ List.length listed = List.length models) /\
      (In JNull models -> listed = []).
Proof.
  intros c response models H. simpl.
  destruct ((200 <=? response_status response)
            && (response_status response <? 300))%Z; [|exists []; auto].
  unfold model_names. rewrite H.
  destruct (map_name models) as [listed|e] eqn:E.
  - exists listed. split; [reflexivity|]. split.
    + right. now apply map_name_length.
    + intros Hnull. destruct (map_name_null models Hnull) as [e He].
      congruence.
  - exists []. auto.
Qed.

Lemma listModels_all_or_nothing_witness :
  exists listed,
    settle_gets (listModels (OllamaClient.new "http://localhost:11434" "mistral"))
      [Return (mkResponse 200
                 (JObj [("models", JArr [JObj [("name", JStr "mistral")]; JNull])]))]
    = ([mkGet "http://localhost:11434/api/tags" 5000], Some listed) /\
    listed = [].
Proof.
  destruct (listModels_all_or_nothing
              (OllamaClient.new "http://localhost:11434" "mistral")
              (mkResponse 200
                 (JObj [("models", JArr [JObj [("name", JStr "mistral")]; JNull])]))
              [JObj [("name", JStr "mistral")]; JNull] eq_refl)
    as (listed & H & _ & Hnull).
  exists listed. split; [exact H|]. apply Hnull. simpl. auto.
Defined.



(* ------------------------------------------------------------------ *)
(** * The cache and the statistics                                      *)
(* ------------------------------------------------------------------ *)

Lemma Map_get_set_keeps {V : Type} (m : JsMap V) k k' v v0 :
  Map_get m k = Some v -> exists v', Map_get (Map_set m k' v0) k = Some v'.
Proof.
  induction m as [|[k1 v1] rest IH]; simpl; [discriminate|].
  destruct (same_value_zero k1 k') eqn:E1; simpl;
    destruct (same_value_zero k1 k) eqn:E2; eauto.
Qed.

Lemma Map_get_none_keys {V : Type} (m : JsMap V) k :
  Map_get m k = None ->
  Forall (fun k' => same_value_zero k' k = false) (Map_keys m).
Proof.
  induction m as [|[k1 v1] rest IH]; simpl; intros H; [constructor|].
  destruct (same_value_zero k1 k) eqn:E; [discriminate|].
  constructor; auto.
Qed.

Lemma Map_keys_set {V : Type} (m : JsMap V) k v :
  Map_keys (Map_set m k v)
  = match Map_get m k with
    | Some _ => Map_keys m
    | None => Map_keys m ++ [k]
    end.
Proof.
  induction m as [|[k1 v1] rest IH]; simpl; [reflexivity|].
  destruct (same_value_zero k1 k); simpl; [reflexivity|].
  rewrite IH. now destruct (Map_get rest k).
Qed.

Lemma Map_size_keys {V : Type} (m : JsMap V) :
  Map_size m = List.length (Map_keys m).
Proof. unfold Map_size, Map_keys. now rewrite length_map. Qed.

Lemma take_call_length call a k rest :
  take_call call a = Some (k, rest) -> List.length a = S (List.length rest).
Proof.
  revert k rest. induction a as [|[c k0] a IH]; simpl; intros k rest H;
    [discriminate|].
  destruct (Nat.eqb c call).
  - now inversion H.
  - destruct (take_call call a) as [[k' rest']|]; [|discriminate].
    inversion H. simpl. now rewrite (IH k' rest').
Qed.

Lemma take_call_In call a k rest :
  take_call call a = Some (k, rest) -> In (call, k) a.
Proof.
  revert k rest. induction a as [|[c k0] a IH]; simpl; intros k rest H;
    [discriminate|].
  destruct (Nat.eqb c call) eqn:E.
  - apply Nat.eqb_eq in E. inversion H. subst. now left.
  - destruct (take_call call a) as [[k' rest']|]; [|discriminate].
    inversion H. subst. right. now apply (IH k rest').
Qed.

(** The request made of a message has an identifier. *)
Lemma build_request_id parsed w request w1 :
  build_request parsed w = (Return request, w1) ->
  SemanticRequest.id request <> JUndefined.
Proof.
  intros Hb.
  assert (Ht : exists t, get_prop parsed "type" = Return t)
    by (destruct parsed; simpl; eauto; discriminate Hb).
  destruct Ht as [t Ht].
  destruct (build_request_eq parsed t Ht w)
    as (id & prompt & model & temperature & topK & topP & _ & _ & _ & _ & _ & _ & E).
  rewrite E in Hb. destruct (truthy id) eqn:Tid; inversion Hb; simpl.
  - intros ->. discriminate Tid.
  - discriminate.
Qed.

(** What a turn of the event loop does to the queue, the cache, the calls
    of the backend and those in flight, all at once. *)
Lemma step_bridge w e :
  (SemanticBridge.processingQueue (bridge (step w e))
   = SemanticBridge.processingQueue (bridge w) /\
   SemanticBridge.messageCache (bridge (step w e))
   = SemanticBridge.messageCache (bridge w) /\
   awaiting (step w e) = awaiting w /\
   posts (step w e) = posts w) \/
  (exists request,
      is_message e /\
      SemanticRequest.id request <> JUndefined /\
      SemanticBridge.processingQueue (bridge (step w e))
      = SemanticBridge.processingQueue (bridge w) ++ [request] /\
      SemanticBridge.messageCache (bridge (step w e))
      = SemanticBridge.messageCache (bridge w) /\
      match OllamaClient.generate_call (SemanticBridge.ollama (bridge w)) request with
      | Return post =>
          posts (step w e) = posts w ++ [post] /\
          awaiting (step w e)
          = awaiting w ++ [(List.length (posts w), mkInFlight request (clock w))]
      | Throw _ =>
          posts (step w e) = posts w /\ awaiting (step w e) = awaiting w
      end) \/
  (exists call reply k,
      e = HttpSettled call reply /\
      take_call call (awaiting w) = Some (k, awaiting (step w e)) /\
      posts (step w e) = posts w /\
      SemanticBridge.processingQueue (bridge (step w e))
      = SemanticBridge.processingQueue (bridge w) /\
      (SemanticBridge.messageCache (bridge (step w e))
       = SemanticBridge.messageCache (bridge w) \/
       exists response,
         response_of (call_request k) response /\
         SemanticBridge.messageCache (bridge (step w e))
         = Map_set (SemanticBridge.messageCache (bridge w))
                   (SemanticRequest.id (call_request k)) response)).
Proof.
  destruct (exited w) as [c|] eqn:Ex;
    [left; now rewrite (step_exited _ _ c Ex)|].
  destruct e as [|s|s message|s error|s|call reply| |now];
    try (left; rewrite step_running by assumption;
         repeat split; apply handle_quiet; now intros []).
  - destruct (step_WsMessage_cases w s message)
      as [H | (parsed & request & w1 & Hp & Hb & Hw1 & H)]; rewrite H;
      [left; now repeat split|].
    right. left. exists request. split; [exact I|].
    assert (Hid : SemanticRequest.id request <> JUndefined)
      by exact (build_request_id parsed w request w1 Hb).
    split; [exact Hid|].
    rewrite processRequest_world.
    assert (Ho : SemanticBridge.ollama (bridge (with_bridge (queue_push request (bridge w1)) w1))
                 = SemanticBridge.ollama (bridge w))
      by (destruct Hw1 as [-> | ->]; reflexivity).
    rewrite Ho.
    destruct (OllamaClient.generate_call _ request) as [post|error].
    + destruct Hw1 as [-> | ->]; simpl; repeat split; auto.
    + rewrite bridge_relay_send, awaiting_relay_send, posts_relay_send.
      destruct Hw1 as [-> | ->]; simpl; repeat split; auto.
  - destruct (take_call call (awaiting w)) as [[k rest]|] eqn:H.
    + right. right. exists call, reply, k. split; [reflexivity|].
      rewrite (step_HttpSettled w call reply k rest Ex H).
      destruct (OllamaClient.generate_settled _ _ _ reply _ _) as [response|error] eqn:G;
        rewrite bridge_relay_send, awaiting_relay_send, posts_relay_send; simpl;
        unfold forget_call; rewrite H; simpl.
      * repeat split. right. exists response. split; [|reflexivity].
        destruct reply as [d|err]; simpl in G; [|discriminate].
        now inversion G.
      * repeat split. now left.
    + left. rewrite step_HttpSettled_unknown by assumption. now repeat split.
Qed.

Lemma step_cache_grows w e :
  (exists added,
      Map_keys (SemanticBridge.messageCache (bridge (step w e)))
      = Map_keys (SemanticBridge.messageCache (bridge w)) ++ added) /\
  (forall k v,
      Map_get (SemanticBridge.messageCache (bridge w)) k = Some v ->
      exists v', Map_get (SemanticBridge.messageCache (bridge (step w e))) k
                 = Some v').
Proof.
  assert (Same : forall m' m : JsMap SemanticResponse.t, m' = m ->
            (exists added, Map_keys m' = Map_keys m ++ added) /\
            (forall k v, Map_get m k = Some v -> exists v', Map_get m' k = Some v')).
  { intros m' m ->. split; [exists []; now rewrite app_nil_r | eauto]. }
  destruct (step_bridge w e)
    as [(_ & Hc & _) | [(request & _ & _ & _ & Hc & _)
                       | (call & reply & k & _ & _ & _ & _ & [Hc | (response & _ & Hc)])]];
    try (now apply Same).
  rewrite Hc. split.
  - rewrite Map_keys_set. destruct (Map_get _ _).
    + exists []. now rewrite app_nil_r.
    + eauto.
  - intros k0 v H. eapply Map_get_set_keeps. exact H.
Qed.

Lemma run_cache_grows es : forall w,
  (exists added,
      Map_keys (SemanticBridge.messageCache (bridge (run w es)))
      = Map_keys (SemanticBridge.messageCache (bridge w)) ++ added) /\
  (forall k v,
      Map_get (SemanticBridge.messageCache (bridge w)) k = Some v ->
      exists v', Map_get (SemanticBridge.messageCache (bridge (run w es))) k
                 = Some v').
Proof.
  induction es as [|e es IH]; intros w; simpl.
  - split; [exists []; now rewrite app_nil_r | eauto].
  - destruct (IH (step w e)) as [[added Ha] Hg].
    destruct (step_cache_grows w e) as [[added0 Ha0] Hg0]. split.
    + exists (added0 ++ added). now rewrite Ha, Ha0, <- app_assoc.
    + intros k v H. destruct (Hg0 k v H) as [v' H']. eauto.
Qed.

(** X5. Nothing is ever taken out of the cache: whatever happens, the
    identifiers that [getStats] lists stay where they are in the list and
    new ones come after them, [cacheSize] does not decrease, and an
    identifier for which [getResponse] had a response still has one. *)
Theorem cache_never_evicts :
  forall (w : World) (es : list Event),
    (exists added,
        cachedResponses (getStats (bridge (run w es)))
        = cachedResponses (getStats (bridge w)) ++ added) /\
    cacheSize (getStats (bridge w)) <= cacheSize (getStats (bridge (run w es))) /\
    (forall id r,
        getResponse (bridge w) id = Some r ->
        exists r', getResponse (bridge (run w es)) id = Some r').
Proof.
  intros w es. destruct (run_cache_grows es w) as [[added Ha] Hg].
  split; [|split].
  - exists added. exact Ha.
  - simpl. rewrite !Map_size_keys, Ha, length_app. lia.
  - intros id r H. exact (Hg _ _ H).
Qed.

(** X6. The identifiers that [getStats] lists are those for which
    [getResponse] has a response. *)
Theorem cachedResponses_are_the_cached :
  forall (b : SemanticBridge.t) (id : string),
    In (JStr id) (cachedResponses (getStats b)) <-> getResponse b id <> None.
Proof.
  intros b id. unfold getResponse. simpl.
  induction (SemanticBridge.messageCache b) as [|[k v] rest IH]; simpl.
  - split; [tauto | congruence].
  - destruct (same_value_zero k (JStr id)) eqn:E.
    + split; [discriminate|]. intros _. left.
      destruct k; simpl in E; try discriminate.
      apply String.eqb_eq in E. now subst.
    + rewrite <- IH. split; [|tauto].
      intros [-> | H]; [|exact H].
      simpl in E. now rewrite String.eqb_refl in E.
Qed.

Lemma reachable_cache_bound (w : World) :
  reachable w ->
  cacheSize (getStats (bridge w)) + List.length (awaiting w)
  <= queueLength (getStats (bridge w)).
Proof.
  induction 1 as [cfg accepts fatal uuids now | w e _ IH]; simpl in *.
  - lia.
  - destruct (step_bridge w e)
      as [(Hq & Hc & Ha & _) | [(request & _ & _ & Hq & Hc & Ha)
                           | (call & reply & k & _ & Ht & _ & Hq & Hc)]].
    + now rewrite Hq, Hc, Ha.
    + rewrite Hq, Hc, length_app. simpl.
      destruct (OllamaClient.generate_call _ request);
        destruct Ha as [_ ->]; rewrite ?length_app; simpl; lia.
    + rewrite Hq. apply take_call_length in Ht.
      destruct Hc as [-> | (response & _ & ->)]; [lia|].
      rewrite !Map_size_keys, Map_keys_set in *.
      destruct (Map_get _ _); rewrite ?length_app; simpl; lia.
Qed.

Lemma reachable_world_awaiting : reachable world_awaiting.
Proof. apply reachable_run. exact reachable_world_connected. Qed.

Lemma Map_set_distinct {V : Type} (m : JsMap V) k v :
  ForallOrdPairs (fun a b => same_value_zero a b = false) (Map_keys m) ->
  ForallOrdPairs (fun a b => same_value_zero a b = false)
                 (Map_keys (Map_set m k v)).
Proof.
  intros H. rewrite Map_keys_set.
  destruct (Map_get m k) eqn:E; [exact H|].
  apply Map_get_none_keys in E.
  induction (Map_keys m) as [|k1 ks IH]; simpl.
  - constructor; constructor.
  - inversion H; subst. inversion E; subst. constructor.
    + apply Forall_app. split; [assumption|]. constructor; [assumption|constructor].
    + now apply IH.
Qed.

(** X8. The cache holds one entry for an identifier: in every state the bridge
    can reach, no two of the identifiers that [getStats] lists are the same
    key of the [Map], and [cacheSize] is their number. *)
Theorem cached_ids_distinct :
  forall w : World,
    reachable w ->
    ForallOrdPairs (fun a b => same_value_zero a b = false)
                   (cachedResponses (getStats (bridge w))) /\
    cacheSize (getStats (bridge w))
    = List.length (cachedResponses (getStats (bridge w))).
Proof.
  intros w Hw. split; [|apply Map_size_keys]. simpl.
  induction Hw as [cfg accepts fatal uuids now | w e _ IH]; simpl.
  - constructor.
  - destruct (step_bridge w e)
      as [(_ & Hc & _) | [(request & _ & _ & _ & Hc & _)
                         | (call & reply & k & _ & _ & _ & _ & [Hc | (response & _ & Hc)])]];
      rewrite Hc; auto.
    now apply Map_set_distinct.
Qed.

Lemma reachable_world_answered : reachable world_answered.
Proof. apply reachable_run. exact reachable_world_awaiting. Qed.

Lemma cached_ids_distinct_witness :
  ForallOrdPairs (fun a b => same_value_zero a b = false)
                 (cachedResponses (getStats (bridge world_answered))) /\
  cacheSize (getStats (bridge world_answered))
  = List.length (cachedResponses (getStats (bridge world_answered))).
Proof.
  apply (cached_ids_distinct world_answered reachable_world_answered).
Defined.

Lemma Map_set_own_id (m : JsMap SemanticResponse.t) k response :
  SemanticResponse.id response = k ->
  Forall (fun p => forall id, fst p = JStr id ->
                              SemanticResponse.id (snd p) = JStr id) m ->
  Forall (fun p => forall id, fst p = JStr id ->
                              SemanticResponse.id (snd p) = JStr id)
         (Map_set m k response).
Proof.
  intros Hk. induction m as [|[k1 v1] rest IH]; simpl; intros H.
  - constructor; [|constructor]. simpl. intros id E. congruence.
  - apply Forall_cons_iff in H. destruct H as [H1 H2].
    destruct (same_value_zero k1 k) eqn:E.
    + constructor; [|assumption]. simpl. intros id ->.
      destruct k; simpl in E; try discriminate.
      apply String.eqb_eq in E. now subst.
    + constructor; auto.
Qed.

Lemma Map_get_In {V : Type} (m : JsMap V) id v :
  Map_get m (JStr id) = Some v -> In (JStr id, v) m.
Proof.
  induction m as [|[k1 v1] rest IH]; simpl; [discriminate|].
  destruct (same_value_zero k1 (JStr id)) eqn:E.
  - intros H. inversion H. subst. left.
    destruct k1; simpl in E; try discriminate.
    apply String.eqb_eq in E. now subst.
  - auto.
Qed.

(** X9. A response is cached under its own identifier: in every state the
    bridge can reach, the response that [getResponse] has for an identifier
    carries that identifier. *)
Theorem cached_response_has_its_id :
  forall (w : World) (id : string) (r : SemanticResponse.t),
    reachable w ->
    getResponse (bridge w) id = Some r ->
    SemanticResponse.id r = JStr id.
Proof.
  intros w id r Hw H.
  assert (Inv : Forall (fun p => forall id, fst p = JStr id ->
                                 SemanticResponse.id (snd p) = JStr id)
                       (SemanticBridge.messageCache (bridge w))).
  { clear H. induction Hw as [cfg accepts fatal uuids now | w e _ IH]; simpl.
    - constructor.
    - destruct (step_bridge w e)
        as [(_ & Hc & _) | [(request & _ & _ & _ & Hc & _)
                           | (call & reply & k & _ & _ & _ & _ & [Hc | (response & [Hr _] & Hc)])]];
        rewrite Hc; auto.
      now apply Map_set_own_id. }
  apply Map_get_In in H. rewrite Forall_forall in Inv.
  exact (Inv _ H id eq_refl).
Qed.

Lemma cached_response_has_its_id_witness :
  exists r,
    getResponse (bridge world_answered) "msg-2" = Some r /\
    SemanticResponse.id r = JStr "msg-2".
Proof.
  eexists. split; [reflexivity|].
  apply (cached_response_has_its_id world_answered "msg-2" _
           reachable_world_answered eq_refl).
Defined.

(** X10. Once the statistics line of [main] has been written it is written at
    every later tick of its interval: the queue and the cache it looks at
    never get smaller. *)
Theorem stats_line_persists :
  forall (w : World) (es : list Event),
    stats_logged (bridge w) = true ->
    stats_logged (bridge (run w es)) = true.
Proof.
  intros w es. unfold stats_logged. simpl.
  destruct (run_queue es w) as [added Hq].
  destruct (run_cache_grows es w) as [[added' Hc] _].
  rewrite !Map_size_keys, Hq, Hc, !length_app.
  rewrite !orb_true_iff, !Nat.ltb_lt. lia.
Qed.

Lemma stats_line_persists_witness :
  stats_logged (bridge world_answered) = true.
Proof.
  apply (stats_line_persists world_awaiting
           [ClockAdvanced (num_of_Z 1500); HttpSettled 0 (Return reply_4)]).
  reflexivity.
Defined.

(* ------------------------------------------------------------------ *)
(** * What never changes                                                *)
(* ------------------------------------------------------------------ *)

(** The configuration, the backend client and what the runtime and the
    libraries do are the same after every turn of the event loop. *)
Lemma step_constants w e :
  config (step w e) = config w /\
  ws_accepts (step w e) = ws_accepts w /\
  unhandled_rejections_exit (step w e) = unhandled_rejections_exit w /\
  uuid_source (step w e) = uuid_source w /\
  SemanticBridge.ollama (bridge (step w e)) = SemanticBridge.ollama (bridge w).
Proof.
  apply (step_ind (fun w w' =>
           config w' = config w /\
           ws_accepts w' = ws_accepts w /\
           unhandled_rejections_exit w' = unhandled_rejections_exit w /\
           uuid_source w' = uuid_source w /\
           SemanticBridge.ollama (bridge w') = SemanticBridge.ollama (bridge w)));
    [now intros|].
  clear w e. intros w e Ex.
  assert (Hc : forall x,
             config (snd (connectToFederation x)) = config x /\
             ws_accepts (snd (connectToFederation x)) = ws_accepts x /\
             unhandled_rejections_exit (snd (connectToFederation x))
             = unhandled_rejections_exit x /\
             uuid_source (snd (connectToFederation x)) = uuid_source x /\
             SemanticBridge.ollama (bridge (snd (connectToFederation x)))
             = SemanticBridge.ollama (bridge x)).
  { intros x. destruct (connectToFederation_world x) as [c ->].
    destruct (ws_accepts x _); simpl; auto. }
  destruct e as [|s|s message|s error|s|call reply| |now]; simpl.
  - destruct (attempts w); [apply Hc | simpl; auto].
  - destruct (socket_in w s _); [|simpl; auto].
    destruct (set_readyState_frame s OPEN w) as [f ->]. simpl. auto.
  - destruct (socket_in w s _); [|simpl; auto].
    destruct (handleFederationMessage_cases message w)
      as [H | (parsed & request & w1 & _ & _ & Hw1 & H)]; unfold on_message;
      rewrite H; [simpl; auto|].
    rewrite processRequest_world.
    destruct (OllamaClient.generate_call _ request);
      [|destruct (relay_send_frame
                    (semantic_error request e (clock (with_bridge (queue_push request (bridge w1)) w1)))
                    (with_bridge (queue_push request (bridge w1)) w1)) as [fs ->]];
      destruct Hw1 as [-> | ->]; simpl; auto.
  - destruct (socket_in w s _); [|simpl; auto].
    destruct (on_error_frame s error (set_readyState s CLOSING w)) as [c ->].
    destruct (set_readyState_frame s CLOSING w) as [f ->]. simpl. auto.
  - destruct (socket_in w s _); [|simpl; auto].
    destruct (set_readyState_frame s CLOSED w) as [f ->]. simpl. auto.
  - destruct (take_call call (awaiting w)) as [[k rest]|]; [|simpl; auto].
    rewrite processRequest_settled_eq. simpl.
    destruct (OllamaClient.generate_settled _ _ _ reply _ _);
      match goal with
      | |- context [relay_send ?m ?x] =>
          destruct (relay_send_frame m x) as [fs ->]
      end; simpl; auto.
  - destruct (Nat.ltb _ _); [|simpl; auto].
    destruct (Hc (with_timers (timeouts w) (S (timers_fired w)) w))
      as (H1 & H2 & H3 & H4 & H5).
    rewrite H1, H2, H3, H4, H5. simpl. auto.
  - auto.
Qed.

Lemma reachable_ollama w :
  reachable w ->
  SemanticBridge.ollama (bridge w)
  = OllamaClient.new (OLLAMA_URL (config w)) (SEMANTIC_MODEL (config w)).
Proof.
  induction 1 as [cfg accepts fatal uuids now | w e _ IH]; [reflexivity|].
  destruct (step_constants w e) as (Hc & _ & _ & _ & Ho). now rewrite Ho, Hc.
Qed.

(* ------------------------------------------------------------------ *)
(** * Calls of the backend                                              *)
(* ------------------------------------------------------------------ *)

Lemma reachable_posts :
  forall w : World,
    reachable w ->
    posts w
    = flat_map (posts_of (SemanticBridge.ollama (bridge w)))
               (SemanticBridge.processingQueue (bridge w)).
Proof.
  induction 1 as [cfg accepts fatal uuids now | w e _ IH]; [reflexivity|].
  destruct (step_constants w e) as (_ & _ & _ & _ & Ho). rewrite Ho.
  destruct (step_bridge w e)
    as [(Hq & _ & _ & Hp) | [(request & _ & _ & Hq & _ & Hp)
                            | (call & reply & k & _ & _ & Hp & Hq & _)]].
  - now rewrite Hq, Hp.
  - rewrite Hq, flat_map_app. simpl. rewrite app_nil_r, <- IH.
    unfold posts_of.
    destruct (OllamaClient.generate_call _ request); destruct Hp as [-> _];
      [reflexivity | now rewrite app_nil_r].
  - now rewrite Hq, Hp.
Qed.

(** X11. The bridge calls the backend once for each request in its queue whose
    prompt is a string, in the order of the queue, and for nothing else:
    in every state it can reach the POSTs it has issued are those that
    [generate] makes of the queued requests. *)
Theorem one_post_per_request :
  forall w : World,
    reachable w ->
    posts w
    = flat_map (posts_of (SemanticBridge.ollama (bridge w)))
               (SemanticBridge.processingQueue (bridge w)).
Proof. exact reachable_posts. Qed.

Lemma one_post_per_request_witness :
  posts world_answered
  = flat_map (posts_of (SemanticBridge.ollama (bridge world_answered)))
             (SemanticBridge.processingQueue (bridge world_answered)).
Proof.
  apply (one_post_per_request world_answered reachable_world_answered).
Defined.

Lemma initialize_gets b replies :
  Forall (fun get => get = tags_request (SemanticBridge.ollama b))
         (fst (settle_gets (initialize b) replies)).
Proof.
  unfold initialize, isAvailable, listModels.
  destruct replies as [|first [|second later]];
    cbn [async_bind settle_gets fst snd]; [now repeat constructor| |];
    destruct (match axios_settled first with
              | Return response => (response_status response =? 200)%Z
              | Throw _ => false
              end);
    cbn [negb async_bind settle_gets fst snd]; now repeat constructor.
Qed.

(** X12. Where the calls of the backend go.  In every state the bridge can
    reach, every POST it has issued is a POST of [/api/generate] at the
    configured address, with the timeout of 60000 ms, not streamed, and
    with a prompt that is a string; and every GET that [initialize] issues,
    whatever the backend answers, is a GET of [/api/tags] at the configured
    address with the timeout of 5000 ms. *)
Theorem posts_go_to_the_backend :
  forall w : World,
    reachable w ->
    Forall (fun post =>
              post_url post = (OLLAMA_URL (config w) ++ "/api/generate")%string /\
              post_timeout post = 60000%Z /\
              assoc "stream" (post_body post) = Some (JBool false) /\
              exists prompt,
                assoc "prompt" (post_body post) = Some (JStr prompt))
           (posts w) /\
    forall replies : list (result HttpResponse),
      Forall (fun get =>
                get_url get = (OLLAMA_URL (config w) ++ "/api/tags")%string /\
                get_timeout get = 5000%Z)
             (fst (settle_gets (initialize (bridge w)) replies)).
Proof.
  intros w Hw. split.
  - rewrite (reachable_posts w Hw), (reachable_ollama w Hw).
    induction (SemanticBridge.processingQueue (bridge w)) as [|request q IH];
      simpl; [constructor|].
    apply Forall_app. split; [|exact IH].
    unfold posts_of, OllamaClient.generate_call.
    destruct (SemanticRequest.prompt request) as [| | | |prompt| |];
      constructor; [|constructor].
    simpl. repeat split. now exists prompt.
  - intros replies. pose proof (initialize_gets (bridge w) replies) as H.
    revert H. apply Forall_impl. intros get ->.
    rewrite (reachable_ollama w Hw). now split.
Qed.

Lemma posts_go_to_the_backend_witness :
  Forall (fun post =>
            post_url post = "http://localhost:11434/api/generate" /\
            post_timeout post = 60000%Z /\
            assoc "stream" (post_body post) = Some (JBool false) /\
            exists prompt,
              assoc "prompt" (post_body post) = Some (JStr prompt))
         (posts world_answered) /\
  Forall (fun get =>
            get_url get = "http://localhost:11434/api/tags" /\
            get_timeout get = 5000%Z)
         (fst (settle_gets (initialize (bridge world_answered))
                 [Return tags_reply; Return tags_reply])).
Proof.
  destruct (posts_go_to_the_backend world_answered reachable_world_answered)
    as [H1 H2].
  split; [exact H1 | exact (H2 [Return tags_reply; Return tags_reply])].
Defined.

(* ------------------------------------------------------------------ *)
(** * What goes out on the relay link                                   *)
(* ------------------------------------------------------------------ *)

Lemma to_json_defined v : v <> JUndefined -> exists j, to_json v = Some j.
Proof. destruct v; simpl; eauto. congruence. Qed.

Lemma semantic_error_answers request error now :
  SemanticRequest.id request <> JUndefined ->
  answers (JSON_stringify (semantic_error request error now)) request.
Proof.
  intros H. destruct (to_json_defined _ H) as [j Hj].
  unfold answers, JSON_stringify, semantic_error. simpl. rewrite Hj. simpl.
  split; [now right | reflexivity].
Qed.

Lemma semantic_response_answers response request :
  SemanticRequest.id request <> JUndefined ->
  SemanticResponse.id response = SemanticRequest.id request ->
  answers (JSON_stringify (semantic_response response)) request.
Proof.
  intros H E. destruct (to_json_defined _ H) as [j Hj].
  unfold answers, JSON_stringify, semantic_response. simpl.
  rewrite E, Hj. simpl. split; [now left | reflexivity].
Qed.

(** What a turn of the event loop does to the queue, the calls in flight
    and the frames sent: nothing; or it queues a request, and either calls
    the backend for it or answers it at once; or it takes a call that has
    settled and answers its request.  An answer is one frame, or none when
    the link is not open. *)
Lemma step_traffic w e :
  Forall (fun c => SemanticRequest.id (call_request (snd c)) <> JUndefined)
         (awaiting w) ->
  (SemanticBridge.processingQueue (bridge (step w e))
   = SemanticBridge.processingQueue (bridge w) /\
   awaiting (step w e) = awaiting w /\
   wire (step w e) = wire w) \/
  (exists request,
      SemanticRequest.id request <> JUndefined /\
      SemanticBridge.processingQueue (bridge (step w e))
      = SemanticBridge.processingQueue (bridge w) ++ [request] /\
      ((exists k, call_request k = request /\
                  awaiting (step w e) = awaiting w ++ [(List.length (posts w), k)]) /\
       wire (step w e) = wire w \/
       awaiting (step w e) = awaiting w /\
       (wire (step w e) = wire w \/
        exists s frame,
          answers frame request /\ wire (step w e) = wire w ++ [(s, frame)]))) \/
  (exists call k,
      take_call call (awaiting w) = Some (k, awaiting (step w e)) /\
      SemanticBridge.processingQueue (bridge (step w e))
      = SemanticBridge.processingQueue (bridge w) /\
      (wire (step w e) = wire w \/
       exists s frame,
         answers frame (call_request k) /\
         wire (step w e) = wire w ++ [(s, frame)])).
Proof.
  intros Hids.
  destruct (exited w) as [c|] eqn:Ex;
    [left; now rewrite (step_exited _ _ c Ex)|].
  destruct e as [|s|s message|s error|s|call reply| |now];
    try (left; rewrite step_running by assumption;
         repeat split; apply handle_quiet; now intros []).
  - destruct (step_WsMessage_cases w s message)
      as [H | (parsed & request & w1 & _ & Hb & Hw1 & H)]; rewrite H;
      [left; now repeat split|].
    pose proof (build_request_id parsed w request w1 Hb) as Hid.
    right. left. exists request. split; [exact Hid|].
    rewrite processRequest_world.
    assert (W : wire (with_bridge (queue_push request (bridge w1)) w1) = wire w
                /\ awaiting w1 = awaiting w /\ posts w1 = posts w
                /\ bridge w1 = bridge w)
      by (destruct Hw1 as [-> | ->]; now repeat split).
    destruct W as (W & A & P & B).
    destruct (OllamaClient.generate_call _ request) as [post|error].
    + simpl. rewrite A, P, B. split; [reflexivity|]. left.
      split; [eexists; split; [|reflexivity]; reflexivity|].
      destruct Hw1 as [-> | ->]; reflexivity.
    + rewrite bridge_relay_send, awaiting_relay_send, wire_relay_send, W.
      simpl. rewrite A, B. split; [reflexivity|]. right. split; [reflexivity|].
      destruct (link_open _) as [l|]; [|left; apply app_nil_r].
      right. exists l. eexists. split; [|reflexivity].
      now apply semantic_error_answers.
  - destruct (take_call call (awaiting w)) as [[k rest]|] eqn:H.
    + right. right. exists call, k.
      assert (Hid : SemanticRequest.id (call_request k) <> JUndefined).
      { apply take_call_In in H. rewrite Forall_forall in Hids.
        exact (Hids _ H). }
      rewrite (step_HttpSettled w call reply k rest Ex H).
      destruct (OllamaClient.generate_settled _ _ _ reply _ _) as [response|error] eqn:G;
        rewrite bridge_relay_send, awaiting_relay_send, wire_relay_send;
        rewrite ?wire_cached, ?wire_forget_call; simpl;
        rewrite ?bridge_forget_call;
        (split; [unfold forget_call; rewrite H; reflexivity|]);
        (split; [reflexivity|]);
        (destruct (link_open _) as [l|]; [|left; apply app_nil_r]);
        right; exists l; eexists; (split; [|reflexivity]).
      * apply semantic_response_answers; [exact Hid|].
        destruct reply as [d|err]; simpl in G; [|discriminate].
        now inversion G.
      * now apply semantic_error_answers.
    + left. rewrite step_HttpSettled_unknown by assumption. now repeat split.
Qed.

(** The requests in the queue and those whose call is in flight have an
    identifier, and the latter are in the queue. *)
Lemma reachable_requests w :
  reachable w ->
  Forall (fun r => SemanticRequest.id r <> JUndefined)
         (SemanticBridge.processingQueue (bridge w)) /\
  Forall (fun c => SemanticRequest.id (call_request (snd c)) <> JUndefined /\
                   In (call_request (snd c))
                      (SemanticBridge.processingQueue (bridge w)))
         (awaiting w).
Proof.
  induction 1 as [cfg accepts fatal uuids now | w e _ [IHq IHa]].
  - split; constructor.
  - assert (Hids : Forall (fun c => SemanticRequest.id (call_request (snd c))
                                    <> JUndefined) (awaiting w))
      by (revert IHa; apply Forall_impl; tauto).
    destruct (step_traffic w e Hids)
      as [(Hq & Ha & _) | [(request & Hid & Hq & Ha) | (call & k & Ht & Hq & _)]].
    + now rewrite Hq, Ha.
    + rewrite Hq. split.
      * apply Forall_app. split; [assumption|]. now repeat constructor.
      * assert (Hold : Forall
                         (fun c => SemanticRequest.id (call_request (snd c))
                                   <> JUndefined /\
                                   In (call_request (snd c))
                                      (SemanticBridge.processingQueue (bridge w)
                                       ++ [request]))
                         (awaiting w)).
        { revert IHa. apply Forall_impl. intros c [H1 H2]. split; [assumption|].
          apply in_or_app. now left. }
        destruct Ha as [[(k & Hk & ->) _] | [-> _]]; [|assumption].
        apply Forall_app. split; [assumption|].
        constructor; [|constructor]. simpl. rewrite Hk. split; [assumption|].
        apply in_or_app. right. now left.
    + rewrite Hq. split; [assumption|].
      exact (take_call_keeps _ _ _ _ Ht _ IHa).
Qed.

Lemma reachable_ids w :
  reachable w ->
  Forall (fun c => SemanticRequest.id (call_request (snd c)) <> JUndefined)
         (awaiting w).
Proof.
  intros Hw. destruct (reachable_requests w Hw) as [_ H].
  revert H. apply Forall_impl. tauto.
Qed.

Lemma Map_set_Forall {V : Type} (P : value * V -> Prop) (m : JsMap V) k v :
  P (k, v) ->
  (forall k' v', P (k', v') -> same_value_zero k' k = true -> P (k', v)) ->
  Forall P m -> Forall P (Map_set m k v).
Proof.
  intros Hnew Hover. induction m as [|[k1 v1] rest IH]; simpl; intros H.
  - now repeat constructor.
  - apply Forall_cons_iff in H. destruct H as [H1 H2].
    destruct (same_value_zero k1 k) eqn:E; constructor; auto.
    exact (Hover k1 v1 H1 E).
Qed.

Lemma entry_queued_more queue request entry :
  entry_queued queue entry -> entry_queued (queue ++ [request]) entry.
Proof.
  intros [(r1 & H1 & E1) (r2 & H2 & E2)]. split.
  - exists r1. split; [apply in_or_app; now left | assumption].
  - exists r2. split; [apply in_or_app; now left | assumption].
Qed.

Lemma reachable_cache_queued w :
  reachable w ->
  Forall (entry_queued (SemanticBridge.processingQueue (bridge w)))
         (SemanticBridge.messageCache (bridge w)).
Proof.
  induction 1 as [cfg accepts fatal uuids now | w e Hw IH]; [constructor|].
  destruct (reachable_requests w Hw) as [_ Ha].
  destruct (step_bridge w e)
    as [(Hq & Hc & _) | [(request & _ & _ & Hq & Hc & _)
                        | (call & reply & k & _ & Ht & _ & Hq
                           & [Hc | (response & Hr & Hc)])]];
    rewrite Hq, Hc; try assumption.
  - revert IH. apply Forall_impl. intros entry. apply entry_queued_more.
  - assert (Hin : In (call_request k)
                     (SemanticBridge.processingQueue (bridge w))).
    { apply take_call_In in Ht. rewrite Forall_forall in Ha.
      exact (proj2 (Ha _ Ht)). }
    apply Map_set_Forall; [| |assumption].
    + split; exists (call_request k); auto.
    + intros k' v' [Hkey _] _. split; [exact Hkey|].
      exists (call_request k). auto.
Qed.

(** X7. The cache and the calls in flight stay within the queue.  In every
    state the bridge can reach, each entry of the cache belongs to requests
    in the queue (its key is the identifier of a queued request, and its
    response has the identifier and the prompt of a queued request); each
    request whose backend call has not settled is in the queue; and
    [cacheSize] and the calls in flight together do not exceed
    [queueLength]. *)
Theorem cache_within_queue :
  forall w : World,
    reachable w ->
    Forall (entry_queued (SemanticBridge.processingQueue (bridge w)))
           (SemanticBridge.messageCache (bridge w)) /\
    Forall (fun c => In (call_request (snd c))
                        (SemanticBridge.processingQueue (bridge w)))
           (awaiting w) /\
    cacheSize (getStats (bridge w)) + List.length (awaiting w)
    <= queueLength (getStats (bridge w)).
Proof.
  intros w Hw. split; [|split].
  - now apply reachable_cache_queued.
  - destruct (reachable_requests w Hw) as [_ Ha].
    revert Ha. apply Forall_impl. tauto.
  - now apply reachable_cache_bound.
Qed.

Lemma cache_within_queue_witness :
  Forall (entry_queued (SemanticBridge.processingQueue (bridge world_answered)))
         (SemanticBridge.messageCache (bridge world_answered)) /\
  cacheSize (getStats (bridge world_answered))
  + List.length (awaiting world_answered)
  <= queueLength (getStats (bridge world_answered)).
Proof.
  destruct (cache_within_queue world_answered reachable_world_answered)
    as (H1 & _ & H3).
  split; [exact H1 | exact H3].
Defined.

(** X13. The bridge sends nothing but answers to the requests in its queue: in
    every state it can reach, each frame it has handed to a relay socket is
    a JSON object whose [type] is [semantic_response] or [semantic_error]
    and whose [id], which it has, is the identifier of a request that is in
    the queue. *)
Theorem sent_frames_answer_requests :
  forall w : World,
    reachable w ->
    Forall (fun sent =>
              frame_field (snd sent) "id" <> None /\
              exists request,
                In request (SemanticBridge.processingQueue (bridge w)) /\
                answers (snd sent) request)
           (wire w).
Proof.
  induction 1 as [cfg accepts fatal uuids now | w e Hw IH]; [constructor|].
  destruct (reachable_requests (step w e) (reachable_step w e Hw)) as [Hq' _].
  destruct (reachable_requests w Hw) as [_ Ha].
  assert (Hold : Forall (fun sent =>
                           frame_field (snd sent) "id" <> None /\
                           exists request,
                             In request
                                (SemanticBridge.processingQueue (bridge (step w e))) /\
                             answers (snd sent) request)
                        (wire w)).
  { revert IH. apply Forall_impl. intros sent [H1 (request & H2 & H3)].
    split; [assumption|]. exists request. split; [|assumption].
    destruct (step_queue w e) as [-> | [r ->]]; [assumption|].
    apply in_or_app. now left. }
  assert (Hnew : forall s frame request,
             In request (SemanticBridge.processingQueue (bridge (step w e))) ->
             answers frame request ->
             Forall (fun sent =>
                       frame_field (snd sent) "id" <> None /\
                       exists request,
                         In request
                            (SemanticBridge.processingQueue (bridge (step w e))) /\
                         answers (snd sent) request)
                    (wire w ++ [(s, frame)])).
  { intros s frame request Hin Hans. apply Forall_app. split; [assumption|].
    constructor; [|constructor]. simpl. split; [|eauto].
    rewrite Forall_forall in Hq'. destruct Hans as [_ ->].
    destruct (to_json_defined _ (Hq' _ Hin)) as [j ->]. discriminate. }
  destruct (step_traffic w e (reachable_ids w Hw))
    as [(_ & _ & ->) | [(request & _ & Hq & [[_ ->] | [_ [-> | (s & frame & Hf & ->)]]])
                       | (call & k & Ht & Hq & [-> | (s & frame & Hf & ->)])]];
    try assumption.
  - apply (Hnew s frame request); [|assumption].
    rewrite Hq. apply in_or_app. right. now left.
  - apply (Hnew s frame (call_request k)); [|assumption].
    rewrite Hq. apply take_call_In in Ht. rewrite Forall_forall in Ha.
    exact (proj2 (Ha _ Ht)).
Qed.

Lemma sent_frames_answer_requests_witness :
  Forall (fun sent =>
            frame_field (snd sent) "id" <> None /\
            exists request,
              In request (SemanticBridge.processingQueue (bridge world_answered)) /\
              answers (snd sent) request)
         (wire world_answered).
Proof.
  apply (sent_frames_answer_requests world_answered reachable_world_answered).
Defined.

Lemma take_call_Forall2 (R : nat * InFlight -> nat -> Prop) call a :
  forall k rest idx,
    take_call call a = Some (k, rest) ->
    Forall2 R a idx ->
    exists i idx',
      Forall2 R rest idx' /\ R (call, k) i /\ Permutation idx (i :: idx').
Proof.
  induction a as [|[c k0] a IH]; intros k rest idx Ht H; simpl in Ht;
    [discriminate|].
  inversion H as [|x j l idx0 Hx Hl]; subst.
  destruct (Nat.eqb_spec c call) as [-> | Hne].
  - inversion Ht; subst. exists j, idx0. repeat split; auto.
  - destruct (take_call call a) as [[k' rest']|] eqn:E; [|discriminate].
    inversion Ht; subst.
    destruct (IH k rest' idx0 eq_refl Hl) as (i & idx' & H1 & H2 & H3).
    exists i, (j :: idx'). repeat split; auto.
    apply perm_trans with (j :: i :: idx'); [now apply perm_skip|].
    apply perm_swap.
Qed.

Lemma Forall2_In_l {A B : Type} (R : A -> B -> Prop) l l' x :
  Forall2 R l l' -> In x l -> exists y, In y l' /\ R x y.
Proof.
  induction 1 as [|a b l l' Hab _ IH]; intros Hin; [destruct Hin|].
  destruct Hin as [<- | Hin].
  - exists b. split; [now left | assumption].
  - destruct (IH Hin) as (y & Hy & Hr). exists y. split; [now right | assumption].
Qed.

Lemma nth_error_more {A : Type} (l : list A) (x y : A) i :
  nth_error l i = Some x -> nth_error (l ++ [y]) i = Some x.
Proof.
  intros H. rewrite nth_error_app1; [assumption|].
  apply nth_error_Some. congruence.
Qed.

Lemma answered_once_fresh w sent_for pending_for :
  answered_once w sent_for pending_for ->
  ~ In (List.length (SemanticBridge.processingQueue (bridge w)))
       (sent_for ++ pending_for).
Proof.
  intros (_ & Hs & Hp) Hin. apply in_app_or in Hin.
  assert (Hlt : forall A (l : list A) i x,
             nth_error l i = Some x -> i < List.length l)
    by (intros A l i x E; apply nth_error_Some; congruence).
  destruct Hin as [Hin | Hin].
  - apply Forall2_flip in Hs.
    destruct (Forall2_In_l _ _ _ _ Hs Hin) as (sent & _ & request & E & _).
    apply Hlt in E. lia.
  - apply Forall2_flip in Hp.
    destruct (Forall2_In_l _ _ _ _ Hp Hin) as (c & _ & E).
    apply Hlt in E. lia.
Qed.

(** A turn of the event loop keeps the frames and the calls in flight
    matched with positions of the queue that are all different. *)
Lemma step_answered_once w e sent_for pending_for :
  Forall (fun c => SemanticRequest.id (call_request (snd c)) <> JUndefined)
         (awaiting w) ->
  answered_once w sent_for pending_for ->
  exists sent_for' pending_for',
    answered_once (step w e) sent_for' pending_for'.
Proof.
  intros Hids Hw. pose proof (answered_once_fresh w _ _ Hw) as Hfresh.
  destruct Hw as (Hnd & Hs & Hp).
  set (q := SemanticBridge.processingQueue (bridge w)) in *.
  destruct (step_traffic w e Hids)
    as [(Hq & Ha & Hwire)
       | [(request & _ & Hq & Hcase) | (call & k & Ht & Hq & Hwire)]].
  - exists sent_for, pending_for. unfold answered_once.
    now rewrite Hq, Ha, Hwire.
  - assert (Hs' : Forall2 (fun sent i =>
                             exists r, nth_error (q ++ [request]) i = Some r /\
                                       answers (snd sent) r)
                          (wire w) sent_for).
    { revert Hs. apply Forall2_impl. intros sent i (r & E & Hr).
      exists r. split; [now apply nth_error_more | assumption]. }
    assert (Hp' : Forall2 (fun c i =>
                             nth_error (q ++ [request]) i
                             = Some (call_request (snd c)))
                          (awaiting w) pending_for).
    { revert Hp. apply Forall2_impl. intros c i E. now apply nth_error_more. }
    assert (Hlast : nth_error (q ++ [request]) (List.length q) = Some request).
    { rewrite nth_error_app2, Nat.sub_diag by lia. reflexivity. }
    assert (Hnd' : NoDup (List.length q :: sent_for ++ pending_for))
      by (constructor; assumption).
    destruct Hcase as [[(k & Hk & Ha) Hwire] | [Ha [Hwire | (s & frame & Hf & Hwire)]]].
    + exists sent_for, (pending_for ++ [List.length q]). unfold answered_once.
      rewrite Hq, Ha, Hwire. fold q. split; [|split].
      * rewrite app_assoc. revert Hnd'. apply Permutation_NoDup.
        apply Permutation_cons_append.
      * assumption.
      * apply Forall2_app; [assumption|].
        constructor; [|constructor]. simpl. now rewrite Hk.
    + exists sent_for, pending_for. unfold answered_once.
      rewrite Hq, Ha, Hwire. fold q. now repeat split.
    + exists (sent_for ++ [List.length q]), pending_for. unfold answered_once.
      rewrite Hq, Ha, Hwire. fold q. split; [|split].
      * rewrite <- app_assoc. simpl. revert Hnd'. apply Permutation_NoDup.
        apply Permutation_middle.
      * apply Forall2_app; [assumption|].
        constructor; [|constructor]. simpl. eauto.
      * assumption.
  - destruct (take_call_Forall2 _ call (awaiting w) k _ pending_for Ht Hp)
      as (i & idx' & Hrest & Hi & Hperm). simpl in Hi.
    assert (Hnd' : NoDup (sent_for ++ i :: idx')).
    { revert Hnd. apply Permutation_NoDup. now apply Permutation_app_head. }
    destruct Hwire as [Hwire | (s & frame & Hf & Hwire)].
    + exists sent_for, idx'. unfold answered_once. rewrite Hq, Hwire. fold q.
      split; [|now split]. now apply NoDup_remove_1 in Hnd'.
    + exists (sent_for ++ [i]), idx'. unfold answered_once.
      rewrite Hq, Hwire. fold q. split; [|split].
      * now rewrite <- app_assoc.
      * apply Forall2_app; [assumption|].
        constructor; [|constructor]. simpl. eauto.
      * assumption.
Qed.

Lemma reachable_answered_once w :
  reachable w ->
  exists sent_for pending_for, answered_once w sent_for pending_for.
Proof.
  induction 1 as [cfg accepts fatal uuids now | w e Hw (sf & pf & IH)].
  - exists [], []. repeat split; constructor.
  - exact (step_answered_once w e sf pf (reachable_ids w Hw) IH).
Qed.

(** Frames that answer different positions of a queue whose identifiers
    are all different carry different identifiers. *)
Lemma answers_distinct (q : list SemanticRequest.t) frames sent_for :
  NoDup (map (fun r => to_json (SemanticRequest.id r)) q) ->
  NoDup sent_for ->
  Forall2 (fun (sent : nat * payload) i =>
             exists request,
               nth_error q i = Some request /\ answers (snd sent) request)
          frames sent_for ->
  NoDup (map (fun sent : nat * payload => frame_field (snd sent) "id") frames).
Proof.
  intros Hq Hnd H. induction H as [|sent i frames idx (r & Er & _ & Hid) H IH];
    simpl; [constructor|].
  inversion Hnd as [|? ? Hnotin Hnd']; subst.
  constructor; [|now apply IH].
  intros Hin. apply in_map_iff in Hin. destruct Hin as (sent' & Hsame & Hin').
  destruct (Forall2_In_l _ _ _ _ H Hin') as (j & Hj & r' & Er' & _ & Hid').
  assert (E : i = j).
  { rewrite NoDup_nth_error in Hq. apply Hq.
    - rewrite length_map. apply nth_error_Some. congruence.
    - rewrite !nth_error_map, Er, Er'. simpl. congruence. }
  subst j. contradiction.
Qed.

Lemma reachable_answer_bound (w : World) :
  reachable w ->
  List.length (wire w) + List.length (awaiting w)
  <= queueLength (getStats (bridge w)).
Proof.
  induction 1 as [cfg accepts fatal uuids now | w e Hw IH]; simpl in *; [lia|].
  destruct (step_traffic w e (reachable_ids w Hw))
    as [(-> & -> & ->) | [(request & _ & -> & [[(k & _ & ->) ->] | [-> [-> | (s & frame & _ & ->)]]])
                         | (call & k & Ht & -> & [-> | (s & frame & _ & ->)])]];
    rewrite ?length_app; simpl; try lia;
    apply take_call_length in Ht; lia.
Qed.

(** X14. A request is answered at most once.  In every state the bridge can
    reach, the frames it has sent can be matched with positions of the
    queue, each frame with a position of its own whose request it answers,
    and the calls in flight with further positions of their own: no
    position of the queue has two frames, or a frame and a call still in
    flight.  So when the identifiers in the queue are all different, so are
    the identifiers of the frames sent; and the frames sent and the calls
    in flight together do not outnumber the requests in the queue. *)
Theorem at_most_one_answer_per_request :
  forall w : World,
    reachable w ->
    (exists sent_for pending_for, answered_once w sent_for pending_for) /\
    (NoDup (map (fun r => to_json (SemanticRequest.id r))
                (SemanticBridge.processingQueue (bridge w))) ->
     NoDup (map (fun sent => frame_field (snd sent) "id") (wire w))) /\
    List.length (wire w) + List.length (awaiting w)
    <= queueLength (getStats (bridge w)).
Proof.
  intros w Hw. destruct (reachable_answered_once w Hw) as (sf & pf & H).
  split; [eauto | split; [|now apply reachable_answer_bound]].
  intros Hq. destruct H as (Hnd & Hs & _).
  apply (answers_distinct _ _ sf Hq); [|exact Hs].
  now apply NoDup_app_remove_r in Hnd.
Qed.

Lemma at_most_one_answer_per_request_witness :
  NoDup (map (fun sent => frame_field (snd sent) "id")
             (wire (run world_answered
                      [WsMessage 0 (request_message (JStr "msg-3"));
                       HttpSettled 1 (Throw timeout_error)]))).
Proof.
  apply (at_most_one_answer_per_request
           (run world_answered
              [WsMessage 0 (request_message (JStr "msg-3"));
               HttpSettled 1 (Throw timeout_error)])).
  - apply reachable_run. exact reachable_world_answered.
  - vm_compute. repeat constructor; simpl; intuition discriminate.
Defined.

(* ------------------------------------------------------------------ *)
(** * One connection at a time                                          *)
(* ------------------------------------------------------------------ *)

Lemma nth_error_list_update_other {A : Type} (i j : nat) (x : A) (l : list A) :
  i <> j -> nth_error (list_update i x l) j = nth_error l j.
Proof.
  revert i j. induction l as [|y l IH]; intros [|i] [|j] H; simpl; auto;
    congruence.
Qed.

Lemma set_readyState_eq s state w sock :
  nth_error (sockets w) s = Some sock ->
  set_readyState s state w
  = with_sockets (list_update s (mkSocket (url sock) state) (sockets w)) w.
Proof. intros H. unfold set_readyState. now rewrite H. Qed.

Lemma socket_state_set_same s state w sock :
  nth_error (sockets w) s = Some sock ->
  socket_state (set_readyState s state w) s = Some state.
Proof.
  intros H. rewrite (set_readyState_eq s state w sock H). unfold socket_state.
  simpl. now rewrite (nth_error_list_update s _ sock).
Qed.

Lemma socket_state_set_other s s' state w :
  s <> s' ->
  socket_state (set_readyState s state w) s' = socket_state w s'.
Proof.
  intros H. unfold set_readyState.
  destruct (nth_error (sockets w) s) as [sock|]; [|reflexivity].
  unfold socket_state. simpl. now rewrite nth_error_list_update_other.
Qed.

Lemma length_set_readyState s state w :
  List.length (sockets (set_readyState s state w)) = List.length (sockets w).
Proof.
  unfold set_readyState.
  destruct (nth_error (sockets w) s) as [sock|]; [|reflexivity].
  simpl. apply length_list_update.
Qed.

Lemma set_readyState_fields s state w :
  bridge (set_readyState s state w) = bridge w /\
  timeouts (set_readyState s state w) = timeouts w /\
  timers_fired (set_readyState s state w) = timers_fired w /\
  attempts (set_readyState s state w) = attempts w.
Proof. destruct (set_readyState_frame s state w) as [f ->]. now repeat split. Qed.

(** A socket that is not CLOSED is the last one created, and no timer is
    waiting. *)
Lemma live_socket_is_last w s :
  one_link w ->
  socket_in w s [CONNECTING; OPEN; CLOSING] = true ->
  List.length (sockets w) = S s /\
  timers_fired w = List.length (timeouts w) /\
  exists sock, nth_error (sockets w) s = Some sock.
Proof.
  intros (Hold & _ & Ht & Hwait) Hs.
  destruct (socket_in_spec w s _ Hs) as (sock & Hn & Hst).
  assert (Hlive : socket_state w s <> Some CLOSED).
  { unfold socket_state. rewrite Hn. simpl. intros E. inversion E as [E'].
    rewrite E' in Hst. discriminate Hst. }
  assert (Hlt : s < List.length (sockets w))
    by (apply nth_error_Some; congruence).
  split; [|split; [|eauto]].
  - destruct (Nat.lt_ge_cases (S s) (List.length (sockets w))) as [H | H];
      [|lia].
    now destruct Hlive; apply Hold.
  - destruct (Nat.lt_ge_cases (timers_fired w) (List.length (timeouts w)))
      as [H | H]; [|lia].
    now destruct Hlive; apply Hwait.
Qed.

Lemma one_link_set_readyState w s state :
  one_link w ->
  socket_in w s [CONNECTING; OPEN; CLOSING] = true ->
  one_link (set_readyState s state w).
Proof.
  intros Hw Hs. destruct (live_socket_is_last w s Hw Hs) as (Hl & Hf & sock & Hn).
  destruct Hw as (Hold & Hc & Ht & Hwait). unfold bridge_link in Hc.
  destruct (set_readyState_fields s state w) as (Eb & Et & Ef & _).
  unfold one_link, bridge_link. rewrite length_set_readyState, Eb, Et, Ef.
  split; [|split; [exact Hc | split; [exact Ht|]]].
  - intros s' H'. rewrite socket_state_set_other by lia. now apply Hold.
  - intros H. lia.
Qed.

Lemma one_link_closed w s :
  one_link w ->
  socket_in w s [CONNECTING; OPEN; CLOSING] = true ->
  one_link (with_timers (timeouts (set_readyState s CLOSED w) ++ [5000%Z])
                        (timers_fired (set_readyState s CLOSED w))
                        (set_readyState s CLOSED w)).
Proof.
  intros Hw Hs. destruct (live_socket_is_last w s Hw Hs) as (Hl & Hf & sock & Hn).
  destruct Hw as (Hold & Hc & Ht & Hwait). unfold bridge_link in Hc.
  assert (Hsame : forall t f x s',
             socket_state (with_timers t f x) s' = socket_state x s')
    by reflexivity.
  destruct (set_readyState_fields s CLOSED w) as (Eb & Et & Ef & _).
  unfold one_link, bridge_link.
  change (sockets (with_timers ?t ?f ?x)) with (sockets x).
  change (bridge (with_timers ?t ?f ?x)) with (bridge x).
  change (timeouts (with_timers ?t ?f ?x)) with t.
  change (timers_fired (with_timers ?t ?f ?x)) with f.
  rewrite length_set_readyState, Eb, Et, Ef, length_app. simpl List.length.
  split; [|split; [exact Hc | split; [lia|]]].
  - intros s' H'. rewrite Hsame, socket_state_set_other by lia. now apply Hold.
  - intros _ s' H'. rewrite Hsame.
    destruct (Nat.eq_dec s s') as [<- | Hne].
    + now apply (socket_state_set_same s CLOSED w sock).
    + rewrite socket_state_set_other by assumption. apply Hold. lia.
Qed.

Lemma one_link_connect w :
  one_link w ->
  (forall s, s < List.length (sockets w) -> socket_state w s = Some CLOSED) ->
  timers_fired w = List.length (timeouts w) ->
  one_link (snd (connectToFederation w)).
Proof.
  intros (Hold & Hc & Ht & Hwait) Hall Hf. unfold bridge_link in Hc.
  destruct (connectToFederation_world w) as [c ->].
  destruct (ws_accepts w _).
  - unfold one_link, bridge_link. simpl. rewrite length_app, Nat.add_1_r.
    split; [|split; [reflexivity | split; [exact Ht|]]].
    + intros s H. unfold socket_state. simpl.
      rewrite nth_error_app1 by lia. apply Hall. lia.
    + intros H. lia.
  - unfold one_link, bridge_link. simpl. repeat split; auto; lia.
Qed.

(** Messages, backend replies and the clock leave the link alone. *)
Lemma step_link_quiet w e :
  is_message e \/ is_settled e ->
  sockets (step w e) = sockets w /\
  bridge_link (step w e) = bridge_link w /\
  timeouts (step w e) = timeouts w /\
  timers_fired (step w e) = timers_fired w /\
  attempts (step w e) = attempts w /\
  exited (step w e) = exited w.
Proof.
  intros He.
  destruct (exited w) as [c|] eqn:Ex;
    [now rewrite (step_exited _ _ c Ex)|].
  destruct e as [|s|s message|s error|s|call reply| |now];
    try (destruct He as [[] | []]).
  - destruct (step_WsMessage_cases w s message)
      as [H | (parsed & request & w1 & _ & _ & Hw1 & H)]; rewrite H;
      [now repeat split|].
    rewrite processRequest_world.
    destruct (OllamaClient.generate_call _ request);
      [|match goal with
        | |- context [relay_send ?m ?x] =>
            destruct (relay_send_frame m x) as [fs ->]
        end];
      destruct Hw1 as [-> | ->]; now repeat split.
  - destruct (take_call call (awaiting w)) as [[k rest]|] eqn:H.
    + rewrite (step_HttpSettled w call reply k rest Ex H).
      destruct (OllamaClient.generate_settled _ _ _ reply _ _);
        match goal with
        | |- context [relay_send ?m ?x] =>
            destruct (relay_send_frame m x) as [fs ->]
        end; unfold forget_call; rewrite H; now repeat split.
    + rewrite step_HttpSettled_unknown by assumption. now repeat split.
Qed.

Lemma one_link_fields w w' :
  sockets w' = sockets w ->
  bridge_link w' = bridge_link w ->
  timeouts w' = timeouts w ->
  timers_fired w' = timers_fired w ->
  one_link w -> one_link w'.
Proof.
  unfold one_link, socket_state, bridge_link. intros -> -> -> ->. auto.
Qed.

Lemma step_one_link w e :
  nothing_before_start w -> one_link w ->
  nothing_before_start (step w e) /\ one_link (step w e).
Proof.
  apply (step_ind (fun w w' =>
           nothing_before_start w -> one_link w ->
           nothing_before_start w' /\ one_link w')); [now intros|].
  clear w e. intros w e Ex Hn Hw.
  assert (Hstarted : forall x, attempts (snd (connectToFederation x)) <> []).
  { intros x. destruct (connectToFederation_world x) as [c ->].
    destruct (ws_accepts x _); simpl; now destruct (attempts x). }
  destruct e as [|s|s message|s error|s|call reply| |now].
  - simpl. destruct (attempts w) eqn:Ea; [|simpl; now split].
    split; [intros H; now destruct (Hstarted w)|].
    destruct (Hn Ea) as [Hs Ht]. pose proof Hw as (_ & _ & Hf & _).
    apply one_link_connect; [assumption| |].
    + rewrite Hs. simpl. lia.
    + rewrite Ht in *. simpl in *. lia.
  - simpl. destruct (socket_in w s [CONNECTING]) eqn:Hs; [|simpl; now split].
    assert (Hs' : socket_in w s [CONNECTING; OPEN; CLOSING] = true).
    { unfold socket_in in *. destruct (socket_state w s); [|discriminate].
      simpl in *. now destruct (_ =? CONNECTING)%Z. }
    pose proof (one_link_set_readyState w s OPEN Hw Hs') as H.
    destruct (live_socket_is_last w s Hw Hs') as (Hl & _).
    destruct (set_readyState_fields s OPEN w) as (_ & _ & _ & Ea).
    split.
    + unfold nothing_before_start, on_open, modify. simpl. rewrite Ea.
      intros E. apply map_eq_nil in E. destruct (Hn E) as [E' _].
      rewrite E' in Hl. discriminate Hl.
    + revert H. now apply one_link_fields.
  - destruct (step_link_quiet w (WsMessage s message) (or_introl I))
      as (H1 & H2 & H3 & H4 & H5 & _).
    rewrite <- (step_running w _ Ex). split.
    + unfold nothing_before_start. now rewrite H1, H3, H5.
    + revert Hw. now apply one_link_fields.
  - simpl. destruct (socket_in w s _) eqn:Hs; [|simpl; now split].
    pose proof (one_link_set_readyState w s CLOSING Hw Hs) as H.
    destruct (live_socket_is_last w s Hw Hs) as (Hl & _).
    destruct (set_readyState_fields s CLOSING w) as (_ & _ & _ & Ea).
    destruct (on_error_frame s error (set_readyState s CLOSING w)) as [c ->].
    split.
    + unfold nothing_before_start. simpl. rewrite Ea.
      intros E. apply map_eq_nil in E. destruct (Hn E) as [E' _].
      rewrite E' in Hl. discriminate Hl.
    + revert H. now apply one_link_fields.
  - simpl. destruct (socket_in w s _) eqn:Hs; [|simpl; now split].
    destruct (live_socket_is_last w s Hw Hs) as (Hl & _).
    destruct (set_readyState_fields s CLOSED w) as (_ & _ & _ & Ea).
    split.
    + unfold nothing_before_start, on_close, modify. simpl. rewrite Ea.
      intros E. destruct (Hn E) as [E' _].
      rewrite E' in Hl. discriminate Hl.
    + exact (one_link_closed w s Hw Hs).
  - destruct (step_link_quiet w (HttpSettled call reply) (or_intror I))
      as (H1 & H2 & H3 & H4 & H5 & _).
    rewrite <- (step_running w _ Ex). split.
    + unfold nothing_before_start. now rewrite H1, H3, H5.
    + revert Hw. now apply one_link_fields.
  - simpl. destruct (Nat.ltb _ _) eqn:Hlt; [|simpl; now split].
    apply Nat.ltb_lt in Hlt.
    split; [intros H; now destruct (Hstarted _ H)|].
    destruct Hw as (Hold & Hc & Ht & Hwait).
    apply one_link_connect.
    + unfold one_link. simpl. repeat split; auto; try lia.
    + exact (Hwait Hlt).
    + simpl. lia.
  - simpl. now split.
Qed.

Lemma reachable_one_link w :
  reachable w -> nothing_before_start w /\ one_link w.
Proof.
  induction 1 as [cfg accepts fatal uuids now | w e _ [IH1 IH2]].
  - split; [now split|]. unfold one_link. simpl. repeat split; auto; lia.
  - now apply step_one_link.
Qed.

(** X15. The bridge has one relay connection at a time.  In every state it can
    reach, every socket but the last one it created is CLOSED, and
    [federationConnection] is that last socket; at most one reconnect timer
    is waiting, and while one is waiting no socket is left that is not
    CLOSED. *)
Theorem one_connection_at_a_time :
  forall w : World, reachable w -> one_link w.
Proof. intros w Hw. now apply reachable_one_link. Qed.

Lemma one_connection_at_a_time_witness :
  one_link (run world_connected [WsClose 0; TimerFired; WsOpen 1]).
Proof.
  apply one_connection_at_a_time. apply reachable_run.
  exact reachable_world_connected.
Defined.

(* ------------------------------------------------------------------ *)
(** * Attempts, timers and sockets                                      *)
(* ------------------------------------------------------------------ *)

Lemma map_url_list_update (l : list WebSocket) s sock state :
  nth_error l s = Some sock ->
  map url (list_update s (mkSocket (url sock) state) l) = map url l.
Proof.
  revert s. induction l as [|x l IH]; intros [|s] H; simpl in *;
    try discriminate.
  - now inversion H.
  - now rewrite IH.
Qed.

Lemma map_url_set_readyState s state w :
  map url (sockets (set_readyState s state w)) = map url (sockets w).
Proof.
  unfold set_readyState.
  destruct (nth_error (sockets w) s) as [sock|] eqn:E; [|reflexivity].
  simpl. now apply map_url_list_update.
Qed.

(** What [connectToFederation] does to the attempts, the timers and the
    sockets. *)
Lemma connectToFederation_link w :
  List.length (attempts (snd (connectToFederation w)))
  = S (List.length (attempts w)) /\
  timers_fired (snd (connectToFederation w)) = timers_fired w /\
  timeouts (snd (connectToFederation w)) = timeouts w /\
  map url (sockets (snd (connectToFederation w)))
  = map url (sockets w) ++
    (if ws_accepts w (federation_url (config w))
     then [federation_url (config w)] else []).
Proof.
  destruct (connectToFederation_world w) as [c ->].
  destruct (ws_accepts w _); simpl;
    rewrite ?length_app, ?map_app, ?app_nil_r, ?Nat.add_1_r; simpl; auto.
Qed.

(** A turn of the event loop makes no attempt, or it makes one: the first,
    or one for a timer that fires. *)
Lemma step_link w e :
  (List.length (attempts (step w e)) = List.length (attempts w) /\
   timers_fired (step w e) = timers_fired w /\
   map url (sockets (step w e)) = map url (sockets w)) \/
  ((attempts w = [] /\ timers_fired (step w e) = timers_fired w \/
    timers_fired w < List.length (timeouts w) /\
    timers_fired (step w e) = S (timers_fired w)) /\
   List.length (attempts (step w e)) = S (List.length (attempts w)) /\
   map url (sockets (step w e))
   = map url (sockets w) ++
     (if ws_accepts w (federation_url (config w))
      then [federation_url (config w)] else [])).
Proof.
  destruct (exited w) as [c|] eqn:Ex;
    [left; now rewrite (step_exited _ _ c Ex)|].
  destruct e as [|s|s message|s error|s|call reply| |now].
  - rewrite step_running by assumption. simpl.
    destruct (attempts w) eqn:Ea; [|left; simpl; now rewrite Ea].
    right. destruct (connectToFederation_link w) as (H1 & H2 & _ & H4).
    rewrite Ea in H1. now repeat split; auto.
  - left. rewrite step_running by assumption. simpl.
    destruct (socket_in w s _); [|now repeat split].
    destruct (set_readyState_fields s OPEN w) as (_ & _ & Ef & Ea).
    unfold on_open, modify. simpl.
    now rewrite length_map, Ea, Ef, map_url_set_readyState.
  - left. destruct (step_link_quiet w (WsMessage s message) (or_introl I))
      as (H1 & _ & _ & H4 & H5 & _). now rewrite H1, H4, H5.
  - left. rewrite step_running by assumption. simpl.
    destruct (socket_in w s _); [|now repeat split].
    destruct (set_readyState_fields s CLOSING w) as (_ & _ & Ef & Ea).
    destruct (on_error_frame s error (set_readyState s CLOSING w)) as [c ->].
    simpl. now rewrite length_map, Ea, Ef, map_url_set_readyState.
  - left. rewrite step_running by assumption. simpl.
    destruct (socket_in w s _); [|now repeat split].
    destruct (set_readyState_fields s CLOSED w) as (_ & _ & Ef & Ea).
    unfold on_close, modify. simpl.
    now rewrite Ea, Ef, map_url_set_readyState.
  - left. destruct (step_link_quiet w (HttpSettled call reply) (or_intror I))
      as (H1 & _ & _ & H4 & H5 & _). now rewrite H1, H4, H5.
  - rewrite step_running by assumption. simpl.
    destruct (Nat.ltb _ _) eqn:Hlt; [|left; now repeat split].
    apply Nat.ltb_lt in Hlt. right.
    destruct (connectToFederation_link
                (with_timers (timeouts w) (S (timers_fired w)) w))
      as (H1 & H2 & _ & H4).
    split; [right; now split|]. now split.
  - left. rewrite step_running by assumption. now repeat split.
Qed.

Lemma repeat_snoc {A : Type} (x : A) n : repeat x n ++ [x] = repeat x (S n).
Proof. simpl. symmetry. apply repeat_cons. Qed.

Lemma reachable_link_counts :
  forall w : World,
    reachable w ->
    (attempts w <> [] -> List.length (attempts w) = S (timers_fired w)) /\
    timeouts w = repeat 5000%Z (List.length (timeouts w)) /\
    map url (sockets w)
    = repeat (federation_url (config w))
        (if ws_accepts w (federation_url (config w))
         then List.length (attempts w) else 0).
Proof.
  induction 1 as [cfg accepts fatal uuids now | w e Hw (IHa & IHt & IHs)].
  - simpl. repeat split; [congruence|]. now destruct (accepts _).
  - destruct (reachable_one_link w Hw) as [Hn (_ & _ & Hf & _)].
    destruct (step_constants w e) as (Hc & Hacc & _). rewrite Hc, Hacc.
    split; [|split].
    + destruct (step_link w e)
        as [(Ha & Hf' & _) | ([[Ea Hf'] | [Hlt Hf']] & Ha & _)];
        rewrite Ha, Hf'; intros Hne.
      * apply IHa. intros E. rewrite E in Ha. simpl in Ha.
        apply length_zero_iff_nil in Ha. contradiction.
      * destruct (Hn Ea) as [_ Et]. rewrite Ea, Et in *. simpl in *. lia.
      * rewrite IHa; [reflexivity|]. intros E.
        destruct (Hn E) as [_ Et]. rewrite Et in Hlt. simpl in Hlt. lia.
    + destruct (step_timeouts w e) as [-> | [_ ->]]; [assumption|].
      rewrite length_app, Nat.add_1_r, <- repeat_snoc. simpl. congruence.
    + destruct (step_link w e) as [(Ha & _ & Hs) | (_ & Ha & Hs)];
        rewrite Hs, Ha, IHs; [reflexivity|].
      destruct (ws_accepts w _); [apply repeat_snoc | reflexivity].
Qed.

(** X16. Every attempt but the first is made by a timer, and every timer waits
    5000 ms.  In every state the bridge can reach, once [initialize] has
    called [connectToFederation] the number of calls of
    [connectToFederation] is one more than the number of timers that have
    fired; each timer was set for 5000 ms; and each socket was opened at
    the address of the relay, one for each attempt when the socket library
    accepts that address and none when it does not. *)
Theorem every_reconnect_is_timed :
  forall w : World,
    reachable w ->
    (attempts w <> [] -> List.length (attempts w) = S (timers_fired w)) /\
    timeouts w = repeat 5000%Z (List.length (timeouts w)) /\
    map url (sockets w)
    = repeat (federation_url (config w))
        (if ws_accepts w (federation_url (config w))
         then List.length (attempts w) else 0).
Proof. exact reachable_link_counts. Qed.

Lemma every_reconnect_is_timed_witness :
  List.length (attempts (run world_connected [WsClose 0; TimerFired; WsOpen 1]))
  = S (timers_fired (run world_connected [WsClose 0; TimerFired; WsOpen 1])).
Proof.
  apply every_reconnect_is_timed.
  - apply reachable_run. exact reachable_world_connected.
  - discriminate.
Defined.

(* ------------------------------------------------------------------ *)
(** * Promises of the connection attempts                               *)
(* ------------------------------------------------------------------ *)

Lemma all_from_app P from l a :
  all_from P from (l ++ [a]) <->
  all_from P from l /\ P (from + List.length l) a.
Proof.
  revert from. induction l as [|x l IH]; intros from; simpl.
  - rewrite Nat.add_0_r. tauto.
  - rewrite IH, Nat.add_succ_r. simpl. tauto.
Qed.

Lemma all_from_map (P Q : nat -> Attempt -> Prop) f l : forall from,
  (forall i a, P i a -> Q i (f a)) ->
  all_from P from l -> all_from Q from (map f l).
Proof.
  induction l as [|x l IH]; intros from H; simpl; [auto|].
  intros [H1 H2]. split; auto.
Qed.

Lemma all_from_weaken (P Q : nat -> Attempt -> Prop) l : forall from,
  (forall i a, from <= i < from + List.length l -> P i a -> Q i a) ->
  all_from P from l -> all_from Q from l.
Proof.
  induction l as [|x l IH]; intros from H; simpl; [auto|].
  intros [H1 H2]. split.
  - apply H; [simpl; lia | assumption].
  - apply IH; [|assumption]. intros i a Hi. apply H. simpl. lia.
Qed.


Lemma accepted_sockets_attempts w :
  reachable w ->
  ws_accepts w (federation_url (config w)) = true ->
  List.length (sockets w) = List.length (attempts w).
Proof.
  intros Hw Hacc. destruct (reachable_link_counts w Hw) as (_ & _ & H).
  apply (f_equal (@List.length _)) in H.
  now rewrite length_map, repeat_length, Hacc in H.
Qed.

Lemma tracks_state_same w w' i a :
  socket_state w' i = socket_state w i ->
  attempt_tracks w i a -> attempt_tracks w' i a.
Proof. unfold attempt_tracks. now intros ->. Qed.

Lemma tracks_settle w w' s state outcome :
  state <> CONNECTING -> outcome <> Pending ->
  socket_state w' s = Some state ->
  (forall i, i <> s -> socket_state w' i = socket_state w i) ->
  forall i a, attempt_tracks w i a -> attempt_tracks w' i (settle s outcome a).
Proof.
  intros Hst Ho Hs Hother i a (Hi & Hc & Hp). unfold settle. rewrite Hi.
  destruct (Nat.eqb_spec i s) as [-> | Hne].
  - unfold attempt_tracks. rewrite Hs.
    destruct (attempt_promise a) eqn:Ep; simpl; rewrite ?Ep;
      (split; [auto|split; [intros E; inversion E; contradiction|]]);
      intros E; congruence.
  - assert (E : match attempt_promise a with
                | Pending => a
                | _ => a
                end = a) by now destruct (attempt_promise a).
    rewrite E. apply (tracks_state_same w); [now apply Hother|].
    now repeat split.
Qed.

Lemma tracks_closed w w' s :
  socket_state w' s = Some CLOSED ->
  (forall i, i <> s -> socket_state w' i = socket_state w i) ->
  forall i a, attempt_tracks w i a -> attempt_tracks w' i a.
Proof.
  intros Hs Hother i a H. destruct (Nat.eq_dec i s) as [-> | Hne].
  - destruct H as (Hi & _ & _). unfold attempt_tracks. rewrite Hs.
    split; [assumption|]. split; [discriminate | auto].
  - apply (tracks_state_same w); [now apply Hother | assumption].
Qed.

Lemma tracks_connect w :
  List.length (sockets w) = List.length (attempts w) ->
  ws_accepts w (federation_url (config w)) = true ->
  all_from (attempt_tracks w) 0 (attempts w) ->
  all_from (attempt_tracks (snd (connectToFederation w))) 0
           (attempts (snd (connectToFederation w))).
Proof.
  intros Hlen Hacc H. destruct (connectToFederation_world w) as [c ->].
  rewrite Hacc. simpl. apply all_from_app. split.
  - revert H. apply all_from_weaken. intros i a Hi.
    apply tracks_state_same. unfold socket_state. simpl.
    rewrite nth_error_app1 by lia. reflexivity.
  - simpl. unfold attempt_tracks, socket_state. simpl.
    rewrite <- Hlen, nth_error_app2, Nat.sub_diag by lia. simpl. auto.
Qed.

Lemma step_attempts_track w e :
  reachable w ->
  ws_accepts w (federation_url (config w)) = true ->
  all_from (attempt_tracks w) 0 (attempts w) ->
  all_from (attempt_tracks (step w e)) 0 (attempts (step w e)).
Proof.
  intros Hw Hacc H.
  pose proof (accepted_sockets_attempts w Hw Hacc) as Hlen.
  destruct (exited w) as [c|] eqn:Ex;
    [now rewrite (step_exited _ _ c Ex)|].
  assert (Hquiet : forall e', is_message e' \/ is_settled e' ->
            all_from (attempt_tracks (step w e')) 0 (attempts (step w e'))).
  { intros e' He'. destruct (step_link_quiet w e' He') as (H1 & _ & _ & _ & H5 & _).
    rewrite H5. revert H. apply all_from_weaken. intros i a _.
    apply tracks_state_same. unfold socket_state. now rewrite H1. }
  destruct e as [|s|s message|s error|s|call reply| |now];
    try (apply Hquiet; simpl; tauto); rewrite step_running by assumption; simpl.
  - destruct (attempts w) eqn:Ea; [|simpl; now rewrite Ea].
    apply tracks_connect; rewrite ?Ea; auto.
  - destruct (socket_in w s _) eqn:Hs; [|exact H].
    destruct (socket_in_spec w s _ Hs) as (sock & Hn & _).
    destruct (set_readyState_fields s OPEN w) as (_ & _ & _ & Ea).
    unfold on_open, modify. simpl. rewrite Ea.
    revert H. apply all_from_map. apply (tracks_settle w _ s OPEN).
    + discriminate.
    + discriminate.
    + exact (socket_state_set_same s OPEN w sock Hn).
    + intros i Hi. apply socket_state_set_other. congruence.
  - destruct (socket_in w s _) eqn:Hs; [|exact H].
    destruct (socket_in_spec w s _ Hs) as (sock & Hn & _).
    destruct (set_readyState_fields s CLOSING w) as (_ & _ & _ & Ea).
    destruct (on_error_frame s error (set_readyState s CLOSING w)) as [c ->].
    simpl. rewrite Ea.
    revert H. apply all_from_map. apply (tracks_settle w _ s CLOSING).
    + discriminate.
    + discriminate.
    + exact (socket_state_set_same s CLOSING w sock Hn).
    + intros i Hi. apply socket_state_set_other. congruence.
  - destruct (socket_in w s _) eqn:Hs; [|exact H].
    destruct (socket_in_spec w s _ Hs) as (sock & Hn & _).
    destruct (set_readyState_fields s CLOSED w) as (_ & _ & _ & Ea).
    unfold on_close, modify. simpl. rewrite Ea.
    revert H. apply all_from_weaken. intros i a _.
    apply (tracks_closed w _ s).
    + exact (socket_state_set_same s CLOSED w sock Hn).
    + intros j Hj. apply socket_state_set_other. congruence.
  - destruct (Nat.ltb _ _); [|exact H].
    apply tracks_connect; auto.
  - exact H.
Qed.

Lemma reachable_attempts_track w :
  reachable w ->
  ws_accepts w (federation_url (config w)) = true ->
  all_from (attempt_tracks w) 0 (attempts w).
Proof.
  induction 1 as [cfg accepts fatal uuids now | w e Hw IH]; [now simpl|].
  destruct (step_constants w e) as (Hc & Ha & _). rewrite Hc, Ha. intros Hacc.
  now apply step_attempts_track; auto.
Qed.

(* ------------------------------------------------------------------ *)
(** * The end of the process                                            *)
(* ------------------------------------------------------------------ *)

Lemma set_readyState_runtime s state w :
  unhandled_rejections_exit (set_readyState s state w)
  = unhandled_rejections_exit w /\
  exited (set_readyState s state w) = exited w.
Proof. destruct (set_readyState_frame s state w) as [f ->]. now split. Qed.

Lemma connectToFederation_exited w :
  exited (snd (connectToFederation w)) = exited w \/
  exited (snd (connectToFederation w)) = Some 1%Z.
Proof.
  unfold connectToFederation. destruct (ws_accepts w _); [now left|].
  match goal with
  | |- context [rejection ?i ?x] => destruct (rejection_cases i x) as [-> | ->]
  end; simpl; auto.
Qed.

(** X17. The process ends only when a promise of [connectToFederation] is
    rejected, and then with the exit code 1: a turn of the event loop
    leaves the process as it is, running or ended, unless it is the call of
    [initialize], a timer that fires or an [error] event of a socket.  No
    message from the relay, no reply of the backend and no [close] event
    ends the process. *)
Theorem process_ends_only_on_rejection :
  forall (w : World) (e : Event),
    exited (step w e) = exited w \/
    (may_reject e /\ exited w = None /\ exited (step w e) = Some 1%Z).
Proof.
  intros w e. destruct (exited w) as [c|] eqn:Ex;
    [left; now rewrite (step_exited _ _ c Ex)|].
  destruct e as [|s|s message|s error|s|call reply| |now].
  - rewrite step_running by assumption. simpl.
    destruct (attempts w); [|left; assumption].
    destruct (connectToFederation_exited w) as [H | H]; rewrite H;
      [now left | right; now repeat split].
  - left. rewrite step_running by assumption. simpl.
    destruct (socket_in w s _); [|assumption].
    unfold on_open, modify. simpl.
    destruct (set_readyState_runtime s OPEN w) as [_ ->]. assumption.
  - left. destruct (step_link_quiet w (WsMessage s message) (or_introl I))
      as (_ & _ & _ & _ & _ & H). now rewrite H.
  - rewrite step_running by assumption. simpl.
    destruct (socket_in w s _); [|left; assumption].
    destruct (set_readyState_runtime s CLOSING w) as [_ He].
    unfold on_error. destruct (pending_attempt _ _ _) as [i|].
    + match goal with
      | |- context [rejection ?i ?x] =>
          destruct (rejection_cases i x) as [-> | ->]
      end; simpl; rewrite ?He; [now left | right; now repeat split].
    + left. simpl. now rewrite He.
  - left. rewrite step_running by assumption. simpl.
    destruct (socket_in w s _); [|assumption].
    unfold on_close, modify. simpl.
    destruct (set_readyState_runtime s CLOSED w) as [_ ->]. assumption.
  - left. destruct (step_link_quiet w (HttpSettled call reply) (or_intror I))
      as (_ & _ & _ & _ & _ & H). now rewrite H.
  - rewrite step_running by assumption. simpl.
    destruct (Nat.ltb _ _); [|left; assumption].
    destruct (connectToFederation_exited
                (with_timers (timeouts w) (S (timers_fired w)) w)) as [H | H];
      rewrite H; [now left | right; now repeat split].
  - left. now rewrite step_running by assumption.
Qed.

Lemma pending_attempt_connecting w s l : forall from,
  all_from (attempt_tracks w) from l ->
  socket_state w s = Some CONNECTING ->
  from <= s < from + List.length l ->
  pending_attempt s l from = Some s.
Proof.
  induction l as [|a l IH]; intros from H Hs Hr; simpl in *; [lia|].
  destruct H as [(Hi & Hc & _) H]. rewrite Hi.
  destruct (Nat.eqb_spec from s) as [-> | Hne].
  - now rewrite (Hc Hs).
  - assert (E : pending_attempt s l (S from) = Some s) by (apply IH; auto; lia).
    now destruct (attempt_promise a).
Qed.

Lemma pending_attempt_settled w s state l : forall from,
  all_from (attempt_tracks w) from l ->
  socket_state w s = Some state ->
  state <> CONNECTING -> state <> CLOSED ->
  pending_attempt s l from = None /\
  forall outcome, map (settle s outcome) l = l.
Proof.
  induction l as [|a l IH]; intros from H Hs H1 H2; simpl in *; [now split|].
  destruct H as [(Hi & _ & Hp) H].
  destruct (IH (S from) H Hs H1 H2) as [IH1 IH2].
  assert (Hlive : attempt_promise a = Pending -> from <> s).
  { intros Ep ->. destruct (Hp Ep); congruence. }
  split.
  - rewrite Hi. destruct (attempt_promise a); try exact IH1.
    destruct (Nat.eqb_spec from s) as [E | _]; [|exact IH1].
    now destruct Hlive.
  - intros o. rewrite IH2. f_equal. unfold settle. rewrite Hi.
    destruct (attempt_promise a); try reflexivity.
    destruct (Nat.eqb_spec from s) as [E | _]; [|reflexivity].
    now destruct Hlive.
Qed.

Lemma live_socket_attempt w s state :
  reachable w ->
  socket_state w s = Some state ->
  ws_accepts w (federation_url (config w)) = true /\
  s < List.length (attempts w).
Proof.
  intros Hw Hs.
  assert (Hlt : s < List.length (sockets w)).
  { unfold socket_state in Hs. apply nth_error_Some.
    destruct (nth_error (sockets w) s); [discriminate|discriminate]. }
  destruct (reachable_link_counts w Hw) as (_ & _ & H).
  apply (f_equal (@List.length _)) in H.
  rewrite length_map, repeat_length in H.
  destruct (ws_accepts w _); [split; [reflexivity|lia] | lia].
Qed.

Lemma step_error_connecting (w : World) (s : nat) (error : JsError) :
  reachable w ->
  exited w = None ->
  socket_state w s = Some CONNECTING ->
  exited (step w (WsError s error))
  = (if Nat.eqb s 0 || unhandled_rejections_exit w then Some 1%Z else None) /\
  List.length (attempts (step w (WsError s error))) = List.length (attempts w).
Proof.
  intros Hw Ex Hs.
  destruct (live_socket_attempt w s _ Hw Hs) as [Hacc Hlt].
  pose proof (reachable_attempts_track w Hw Hacc) as Ht.
  rewrite step_running by assumption. simpl.
  assert (Hin : socket_in w s [CONNECTING; OPEN; CLOSING] = true)
    by (unfold socket_in; now rewrite Hs).
  rewrite Hin.
  destruct (set_readyState_fields s CLOSING w) as (_ & _ & _ & Ea).
  destruct (set_readyState_runtime s CLOSING w) as [Hm He].
  unfold on_error. rewrite Ea.
  rewrite (pending_attempt_connecting w s (attempts w) 0 Ht Hs) by lia.
  unfold rejection, process_exit, modify.
  destruct s as [|s]; simpl; [now rewrite length_map|].
  rewrite Hm. destruct (unhandled_rejections_exit w); simpl;
    rewrite length_map; [now split|].
  now rewrite He.
Qed.

(** X18. A connection that fails before it is open.  In every state the bridge
    can reach, an [error] event of a socket that is still CONNECTING rejects
    the promise of the attempt that made the socket.  For the first
    attempt, which [main] awaits, the process ends with the exit code 1;
    for a later one nothing handles the rejection, and the process ends, on
    the same code, exactly when the runtime ends a process on an unhandled
    rejection. *)
Theorem connection_failure_ends_process :
  forall (w : World) (s : nat) (error : JsError),
    reachable w ->
    exited w = None ->
    socket_state w s = Some CONNECTING ->
    exited (step w (WsError s error))
    = if Nat.eqb s 0 || unhandled_rejections_exit w then Some 1%Z else None.
Proof.
  intros w s error Hw Ex Hs. now apply step_error_connecting.
Qed.

Lemma reachable_world_connecting :
  reachable (run world_started [Initialize]).
Proof. apply reachable_run. constructor. Qed.

Lemma connection_failure_ends_process_witness :
  exited (step (run world_started [Initialize]) (WsError 0 refused)) = Some 1%Z.
Proof.
  apply (connection_failure_ends_process (run world_started [Initialize]) 0 refused
           reachable_world_connecting eq_refl eq_refl).
Defined.

(** C9 fails on the code when an attempt to reconnect fails.  On a runtime
    that ends the process on an unhandled rejection, as Node.js does unless
    told otherwise, take any state the bridge can reach in which a socket
    other than the first one is still CONNECTING: the socket of an attempt
    that a timer made.  The [error] event of that socket rejects the promise
    of that attempt, which the callback of the timer dropped; nothing
    handles the rejection and the process ends, with the exit code 1.
    Whatever events follow, [connectToFederation] is not called again:
    this failure is followed by no attempt. *)
Theorem refused_reconnect_ends_reconnecting :
  forall (w : World) (s : nat) (error : JsError) (es : list Event),
    reachable w ->
    exited w = None ->
    unhandled_rejections_exit w = true ->
    socket_state w (S s) = Some CONNECTING ->
    exited (step w (WsError (S s) error)) = Some 1%Z /\
    List.length (attempts (run (step w (WsError (S s) error)) es))
    = List.length (attempts w).
Proof.
  intros w s error es Hw Ex Hm Hs.
  destruct (step_error_connecting w (S s) error Hw Ex Hs) as [He Ha].
  rewrite Hm in He. simpl in He. split; [exact He|].
  now rewrite (run_exited es _ 1%Z He).
Qed.

Lemma refused_reconnect_ends_reconnecting_witness :
  exited (step (run world_connected [WsClose 0; TimerFired])
               (WsError 1 refused))
  = Some 1%Z /\
  List.length
    (attempts (run (step (run world_connected [WsClose 0; TimerFired])
                         (WsError 1 refused))
                   [WsClose 1; TimerFired]))
  = List.length (attempts (run world_connected [WsClose 0; TimerFired])).
Proof.
  apply (refused_reconnect_ends_reconnecting
           (run world_connected [WsClose 0; TimerFired]) 0 refused
           [WsClose 1; TimerFired]).
  - apply reachable_run. exact reachable_world_connected.
  - vm_compute. reflexivity.
  - vm_compute. reflexivity.
  - vm_compute. reflexivity.
Defined.

Lemma with_attempts_same w : with_attempts (attempts w) w = w.
Proof. now destruct w. Qed.

(** X19. An error of the open connection.  In every state the bridge can reach,
    an [error] event of a socket that is OPEN rejects nothing, the promise
    of its attempt being resolved: the socket becomes CLOSING and nothing
    else changes; in particular the process keeps running, whatever the
    runtime does on an unhandled rejection, and no timer is set before the
    [close] event. *)
Theorem error_on_open_connection :
  forall (w : World) (s : nat) (error : JsError),
    reachable w ->
    exited w = None ->
    socket_state w s = Some OPEN ->
    step w (WsError s error) = set_readyState s CLOSING w.
Proof.
  intros w s error Hw Ex Hs.
  destruct (live_socket_attempt w s _ Hw Hs) as [Hacc Hlt].
  pose proof (reachable_attempts_track w Hw Hacc) as Ht.
  rewrite step_running by assumption. simpl.
  assert (Hin : socket_in w s [CONNECTING; OPEN; CLOSING] = true)
    by (unfold socket_in; now rewrite Hs).
  rewrite Hin.
  destruct (set_readyState_fields s CLOSING w) as (_ & _ & _ & Ea).
  destruct (pending_attempt_settled w s OPEN (attempts w) 0 Ht Hs)
    as [Hp Hm]; [discriminate | discriminate |].
  unfold on_error. rewrite Ea, Hp, Hm, <- Ea. simpl.
  apply with_attempts_same.
Qed.

Lemma error_on_open_connection_witness :
  step world_connected (WsError 0 refused) = set_readyState 0 CLOSING world_connected.
Proof.
  apply (error_on_open_connection world_connected 0 refused
           reachable_world_connected eq_refl eq_refl).
Defined.

Lemma started_connect w : started w -> started (snd (connectToFederation w)).
Proof.
  unfold started. destruct (connectToFederation_world w) as [c ->].
  destruct (ws_accepts w _); simpl; now destruct (attempts w).
Qed.

Lemma step_started w e :
  started w -> unhandled_rejections_exit w = false ->
  started (step w e) /\ exited (step w e) = exited w.
Proof.
  intros Hs Hm. destruct (exited w) as [c|] eqn:Ex;
    [now rewrite (step_exited _ _ c Ex)|].
  destruct e as [|s|s message|s error|s|call reply| |now].
  - rewrite step_running by assumption. simpl.
    unfold started in Hs. destruct (attempts w) eqn:Ea; [contradiction|].
    simpl. split; [|assumption]. unfold started. now rewrite Ea.
  - rewrite step_running by assumption. simpl.
    destruct (socket_in w s _); [|now split].
    destruct (set_readyState_fields s OPEN w) as (_ & _ & _ & Ea).
    destruct (set_readyState_runtime s OPEN w) as [_ He].
    unfold on_open, modify. simpl. split; [|now rewrite He].
    apply started_settle. unfold started. now rewrite Ea.
  - destruct (step_link_quiet w (WsMessage s message) (or_introl I))
      as (_ & _ & _ & _ & H5 & H6). split; [|congruence].
    unfold started. now rewrite H5.
  - rewrite step_running by assumption. simpl.
    destruct (socket_in w s _); [|now split].
    destruct (set_readyState_fields s CLOSING w) as (_ & _ & _ & Ea).
    destruct (set_readyState_runtime s CLOSING w) as [Hm' He].
    assert (Hs' : started (set_readyState s CLOSING w))
      by (unfold started; now rewrite Ea).
    rewrite on_error_tolerated; [|assumption|congruence]. simpl.
    split; [now apply started_settle | now rewrite He].
  - rewrite step_running by assumption. simpl.
    destruct (socket_in w s _); [|now split].
    destruct (set_readyState_fields s CLOSED w) as (_ & _ & _ & Ea).
    destruct (set_readyState_runtime s CLOSED w) as [_ He].
    unfold on_close, modify. simpl. split; [|now rewrite He].
    unfold started. simpl. now rewrite Ea.
  - destruct (step_link_quiet w (HttpSettled call reply) (or_intror I))
      as (_ & _ & _ & _ & H5 & H6). split; [|congruence].
    unfold started. now rewrite H5.
  - rewrite step_running by assumption. simpl.
    destruct (Nat.ltb _ _); [|now split].
    set (x := with_timers (timeouts w) (S (timers_fired w)) w).
    split; [now apply started_connect|].
    unfold connectToFederation. destruct (ws_accepts x _); [assumption|].
    unfold rejection. simpl.
    unfold started in Hs. destruct (attempts w); [contradiction|].
    simpl. rewrite Hm. simpl. assumption.
  - rewrite step_running by assumption. now split.
Qed.

(** X20. Once the bridge has started, that is once its first connection has
    been opened, on a runtime that does not end a process on an unhandled
    rejection nothing ends the process: it runs (or has ended) after any
    events as it did before them. *)
Theorem started_bridge_keeps_running :
  forall (w : World) (es : list Event),
    started w ->
    unhandled_rejections_exit w = false ->
    exited (run w es) = exited w.
Proof.
  intros w es. revert w. induction es as [|e es IH]; intros w Hs Hm; simpl;
    [reflexivity|].
  destruct (step_started w e Hs Hm) as [Hs' He].
  destruct (step_constants w e) as (_ & _ & Hm' & _).
  rewrite IH; [assumption | assumption | congruence].
Qed.

Lemma started_bridge_keeps_running_witness :
  exited (run world_connected_lenient
            [WsClose 0; TimerFired; WsError 1 refused; WsClose 1; TimerFired])
  = None.
Proof.
  apply (started_bridge_keeps_running world_connected_lenient
           [WsClose 0; TimerFired; WsError 1 refused; WsClose 1; TimerFired]);
    reflexivity.
Defined.

(* ------------------------------------------------------------------ *)
(** * Requests as they arrive                                           *)
(* ------------------------------------------------------------------ *)

(** What the handler does with a message that is a [semantic_request]. *)
Lemma step_request w s fields :
  exited w = None ->
  socket_in w s [OPEN; CLOSING] = true ->
  assoc "type" fields = Some (JStr "semantic_request") ->
  step w (WsMessage s (Text_json (JObj fields)))
  = snd (processRequest (request_of w fields)
           (with_bridge
              (queue_push (request_of w fields) (bridge w))
              (if truthy (field fields "id") then w
               else with_uuid_drawn (S (uuid_drawn w)) w))).
Proof.
  intros Hrun Hs Htype.
  rewrite step_running by assumption. simpl. rewrite Hs.
  unfold on_message, handleFederationMessage, try_catch, bind, lift. simpl.
  rewrite Htype. simpl.
  unfold build_request, bind, lift, request_of, field. simpl.
  destruct (truthy match assoc "id" fields with
                   | Some x => x
                   | None => JUndefined
                   end); simpl;
    match goal with
    | |- context [processRequest ?r ?x] =>
        pose proof (processRequest_returns r x) as Hr;
        destruct (processRequest r x) as [[[]|e] w']
    end; simpl in Hr; try discriminate Hr; reflexivity.
Qed.

(** X21. A [semantic_request] is queued as it arrives, whatever it holds: the
    request put in the queue has the [prompt], [model], [temperature],
    [topK] and [topP] of the message, unchecked, and the clock as its
    timestamp.  Its identifier is the [id] of the message when that is
    truthy, and otherwise the next identifier of [uuidv4], which is called
    in that case only. *)
Theorem request_is_queued_as_it_arrives :
  forall (w : World) (s : nat) (fields : list (string * value)),
    exited w = None ->
    socket_in w s [OPEN; CLOSING] = true ->
    assoc "type" fields = Some (JStr "semantic_request") ->
    let w' := step w (WsMessage s (Text_json (JObj fields))) in
    SemanticBridge.processingQueue (bridge w')
    = SemanticBridge.processingQueue (bridge w) ++ [request_of w fields] /\
    uuid_drawn w'
    = (if truthy (field fields "id") then uuid_drawn w else S (uuid_drawn w)).
Proof.
  intros w s fields Hrun Hs Htype w'. unfold w'.
  rewrite (step_request w s fields Hrun Hs Htype), processRequest_world.
  destruct (OllamaClient.generate_call _ _);
    [|match goal with
      | |- context [relay_send ?m ?x] =>
          destruct (relay_send_frame m x) as [fs ->]
      end];
    destruct (truthy (field fields "id")); split; reflexivity.
Qed.

Lemma request_is_queued_as_it_arrives_witness :
  SemanticBridge.processingQueue
    (bridge (step world_connected
               (WsMessage 0 (Text_json (JObj [("type", JStr "semantic_request");
                                              ("prompt", JNum (num_of_Z 4))])))))
  = [SemanticRequest.make (JStr example_uuid) (JNum (num_of_Z 4)) JUndefined
       JUndefined JUndefined JUndefined (num_of_Z 1000)].
Proof.
  apply (request_is_queued_as_it_arrives world_connected 0
           [("type", JStr "semantic_request"); ("prompt", JNum (num_of_Z 4))]
           eq_refl eq_refl eq_refl).
Defined.

(** X22. A [semantic_request] whose prompt is not a string never reaches the
    backend.  It is put in the queue, [generate] throws before its call,
    and the bridge answers at once: on an open link exactly one
    [semantic_error] frame goes out, carrying the identifier of the request,
    and on a link that is not open nothing does.  No call is issued or
    awaited and the cache is as it was. *)
Theorem request_without_prompt_fails_at_once :
  forall (w : World) (s : nat) (fields : list (string * value)),
    exited w = None ->
    socket_in w s [OPEN; CLOSING] = true ->
    assoc "type" fields = Some (JStr "semantic_request") ->
    (forall prompt, field fields "prompt" <> JStr prompt) ->
    let w' := step w (WsMessage s (Text_json (JObj fields))) in
    posts w' = posts w /\
    awaiting w' = awaiting w /\
    SemanticBridge.messageCache (bridge w')
    = SemanticBridge.messageCache (bridge w) /\
    SemanticBridge.processingQueue (bridge w')
    = SemanticBridge.processingQueue (bridge w) ++ [request_of w fields] /\
    match link_open w with
    | Some link =>
        exists frame,
          wire w' = wire w ++ [(link, frame)] /\
          frame_field frame "type" = Some (JStr "semantic_error") /\
          frame_field frame "id"
          = to_json (SemanticRequest.id (request_of w fields))
    | None => wire w' = wire w
    end.
Proof.
  intros w s fields Hrun Hs Htype Hprompt w'. unfold w'.
  rewrite (step_request w s fields Hrun Hs Htype), processRequest_world.
  assert (G : exists error,
             forall c, OllamaClient.generate_call c (request_of w fields)
                       = Throw error).
  { unfold OllamaClient.generate_call, request_of. simpl.
    destruct (field fields "prompt") eqn:E; eauto.
    now destruct (Hprompt s0). }
  destruct G as [error G]. rewrite G.
  assert (Hid : SemanticRequest.id (request_of w fields) <> JUndefined).
  { unfold request_of. simpl. destruct (truthy (field fields "id")) eqn:T;
      [|discriminate]. intros E. rewrite E in T. discriminate T. }
  destruct (to_json_defined _ Hid) as [j Hj].
  set (r := request_of w fields) in *.
  set (w0 := if truthy (field fields "id") then w
             else with_uuid_drawn (S (uuid_drawn w)) w).
  assert (F : posts w0 = posts w /\ awaiting w0 = awaiting w /\
              bridge w0 = bridge w /\ wire w0 = wire w /\
              forall b, link_open (with_bridge b w0) = link_open (with_bridge b w))
    by (unfold w0; destruct (truthy _); now repeat split).
  destruct F as (F1 & F2 & F3 & F4 & F5).
  rewrite posts_relay_send, awaiting_relay_send, bridge_relay_send,
    wire_relay_send, F5.
  simpl. rewrite F1, F2, F4.
  repeat split.
  change (link_open (with_bridge (queue_push r (bridge w)) w))
    with (link_open w).
  destruct (link_open w) as [l|]; [|now rewrite app_nil_r].
  eexists. split; [reflexivity|].
  unfold r, request_of in Hj. simpl in Hj.
  unfold JSON_stringify, semantic_error. simpl. rewrite Hj. simpl.
  now split.
Qed.

Lemma request_without_prompt_fails_at_once_witness :
  exists frame,
    wire (step world_connected (WsMessage 0 message_without_prompt))
    = [(0, frame)] /\
    frame_field frame "type" = Some (JStr "semantic_error") /\
    frame_field frame "id" = Some (JStr "msg-5").
Proof.
  destruct (request_without_prompt_fails_at_once world_connected 0
              [("type", JStr "semantic_request"); ("id", JStr "msg-5")]
              eq_refl eq_refl eq_refl) as (_ & _ & _ & _ & H).
  - intros prompt. discriminate.
  - exact H.
Defined.

(* ------------------------------------------------------------------ *)
(** * Processing time                                                   *)
(* ------------------------------------------------------------------ *)

(** Below [2 ^ 53] the difference of two integers, the smaller taken from
    the larger, is computed exactly. *)
Lemma js_sub_exact p q :
  (0 <= q)%Z -> (q <= p)%Z -> (p < 2 ^ 53)%Z ->
  js_sub (num_of_Z p) (num_of_Z q) = num_of_Z (p - q).
Proof.
  intros Hq Hqp Hlt.
  destruct (Z.eq_dec q 0) as [->|Hq0].
  { rewrite Z.sub_0_r. pose proof (num_of_Z_nonneg p ltac:(lia)) as Hn.
    destruct (num_of_Z p) as [[]|[]| |[] m e]; simpl in *; tauto || reflexivity. }
  rewrite (num_of_Z_canonical p), (num_of_Z_canonical q) by lia.
  pose proof (digits_pos p ltac:(lia)) as Hdp.
  pose proof (digits_pos q ltac:(lia)) as Hdq.
  pose proof (digits_le_53 p ltac:(lia) ltac:(lia)) as Hdp53.
  pose proof (digits_le_53 q ltac:(lia) ltac:(lia)) as Hdq53.
  unfold canonical. unfold js_sub, SFsub. cbv [cond_Zopp].
  set (mp := Z.to_pos (p * 2 ^ (53 - digits p))).
  set (mq := Z.to_pos (q * 2 ^ (53 - digits q))).
  set (ez := Z.min (digits p - 53) (digits q - 53)).
  destruct (shl_align_spec mp (digits p - 53) ez) as [Hmp _].
  destruct (shl_align_spec mq (digits q - 53) ez) as [Hmq _].
  rewrite Hmp, Hmq.
  assert (Ep : Zpos mp = (p * 2 ^ (53 - digits p))%Z).
  { unfold mp. apply Z2Pos.id. apply Z.mul_pos_pos; [lia|].
    apply Z.pow_pos_nonneg; lia. }
  assert (Eq : Zpos mq = (q * 2 ^ (53 - digits q))%Z).
  { unfold mq. apply Z2Pos.id. apply Z.mul_pos_pos; [lia|].
    apply Z.pow_pos_nonneg; lia. }
  rewrite Ep, Eq.
  replace (Z.min (digits p - 53) ez) with ez by lia.
  replace (Z.min (digits q - 53) ez) with ez by lia.
  replace (p * 2 ^ (53 - digits p) * 2 ^ (digits p - 53 - ez)
           - q * 2 ^ (53 - digits q) * 2 ^ (digits q - 53 - ez))%Z
    with ((p - q) * 2 ^ (- ez))%Z.
  - destruct (Z.eq_dec p q) as [->|Hne].
    + rewrite Z.sub_diag. reflexivity.
    + rewrite (num_of_Z_canonical (p - q)) by lia.
      replace ez with (- (- ez))%Z at 2 by lia.
      apply binary_normalize_exact; lia.
  - rewrite <- !Z.mul_assoc, <- !Z.pow_add_r by lia.
    replace (53 - digits p + (digits p - 53 - ez))%Z with (- ez)%Z by lia.
    replace (53 - digits q + (digits q - 53 - ez))%Z with (- ez)%Z by lia.
    ring.
Qed.

(** X23. The processing time of a response is the time that passed up to
    the first reading of the clock after the call has settled: when the
    clock reads the integer [t0] as [generate] (or [chat]) starts and the
    integer [t1], not before [t0], when it is read for [processingTime],
    both below [2 ^ 53] as the milliseconds of [Date.now()] are, then
    [processingTime] is exactly [t1 - t0].  The [timestamp] is the reading
    of the clock made after that one, whatever it is. *)
Theorem processing_time_is_elapsed :
  forall (c : OllamaClient.t) (request : SemanticRequest.t)
         (reply : GenerateData) (answer : ChatData) (t0 t1 : Z)
         (later : number),
    (0 <= t0)%Z -> (t0 <= t1)%Z -> (t1 < 2 ^ 53)%Z ->
    (exists response,
        OllamaClient.generate_settled c request (num_of_Z t0) (Return reply)
                                      (num_of_Z t1) later
        = Return response /\
        SemanticResponse.processingTime response = num_of_Z (t1 - t0) /\
        SemanticResponse.timestamp response = later) /\
    (exists response,
        OllamaClient.chat_settled c request (num_of_Z t0) (Return answer)
                                  (num_of_Z t1) later
        = Return response /\
        SemanticResponse.processingTime response = num_of_Z (t1 - t0) /\
        SemanticResponse.timestamp response = later).
Proof.
  intros c request reply answer t0 t1 later H0 H01 H1.
  split; eexists; (split; [reflexivity|]); simpl;
    (split; [now apply js_sub_exact | reflexivity]).
Qed.

Lemma processing_time_is_elapsed_witness :
  exists response,
    OllamaClient.generate_settled
      (OllamaClient.new "http://localhost:11434" "mistral")
      (SemanticRequest.make (JStr "msg-1") (JStr "2+2?") JUndefined JUndefined
         JUndefined JUndefined (num_of_Z 1000))
      (num_of_Z 1000) (Return reply_4) (num_of_Z 1500) (num_of_Z 1501)
    = Return response /\
    SemanticResponse.processingTime response = num_of_Z 500 /\
    SemanticResponse.timestamp response = num_of_Z 1501.
Proof.
  destruct (processing_time_is_elapsed
              (OllamaClient.new "http://localhost:11434" "mistral")
              (SemanticRequest.make (JStr "msg-1") (JStr "2+2?") JUndefined
                 JUndefined JUndefined JUndefined (num_of_Z 1000))
              reply_4 (mkChatData (JStr "4") None None) 1000 1500
              (num_of_Z 1501))
    as [(response & H1 & H2 & H3) _]; try lia.
  exists response. split; [exact H1 | split; [exact H2 | exact H3]].
Defined.

(* ------------------------------------------------------------------ *)
(** * Answers                                                           *)
(* ------------------------------------------------------------------ *)

(** X24. What is sent is what is cached: when the backend call of a request
    succeeds while the link is open, the frame that goes out is the
    [semantic_response] made of the very response that [getResponse] then
    has for the identifier of the request. *)
Theorem answer_goes_out_as_cached :
  forall (w : World) (call : nat) (k : InFlight) (reply : GenerateData)
         (id : string) (link : nat),
    exited w = None ->
    pending w call = Some k ->
    SemanticRequest.id (call_request k) = JStr id ->
    link_open w = Some link ->
    exists response,
      getResponse (bridge (step w (HttpSettled call (Return reply)))) id
      = Some response /\
      wire (step w (HttpSettled call (Return reply)))
      = wire w ++ [(link, JSON_stringify (semantic_response response))].
Proof.
  intros w call k reply id link Hrun Hk Hid Hl.
  destruct (pending_take_call w call k Hk) as [rest Ht].
  rewrite (step_HttpSettled w call _ k rest Hrun Ht). simpl. rewrite Hid.
  eexists. split.
  - rewrite bridge_relay_send. simpl.
    apply getResponse_cache_set_same.
  - now rewrite wire_relay_send, link_open_cached, Hl, wire_cached.
Qed.

Lemma answer_goes_out_as_cached_witness :
  exists response,
    getResponse (bridge (step world_awaiting (HttpSettled 0 (Return reply_4))))
                "msg-2"
    = Some response /\
    wire (step world_awaiting (HttpSettled 0 (Return reply_4)))
    = wire world_awaiting ++ [(0, JSON_stringify (semantic_response response))].
Proof.
  apply (answer_goes_out_as_cached world_awaiting 0 _ reply_4 "msg-2" 0
           eq_refl eq_refl eq_refl eq_refl).
Defined.

(** X25. Requests that share an identifier share a cache entry: when the
    backend call of a request succeeds, [cacheSize] grows by one if the
    identifier of the request had no entry and stays as it is if it had
    one, which is then overwritten; [queueLength] stays as it is. *)
Theorem success_adds_one_entry_per_id :
  forall (w : World) (call : nat) (k : InFlight) (reply : GenerateData)
         (id : string),
    exited w = None ->
    pending w call = Some k ->
    SemanticRequest.id (call_request k) = JStr id ->
    let w' := step w (HttpSettled call (Return reply)) in
    cacheSize (getStats (bridge w'))
    = match getResponse (bridge w) id with
      | Some _ => cacheSize (getStats (bridge w))
      | None => S (cacheSize (getStats (bridge w)))
      end /\
    queueLength (getStats (bridge w')) = queueLength (getStats (bridge w)).
Proof.
  intros w call k reply id Hrun Hk Hid w'. unfold w'.
  destruct (pending_take_call w call k Hk) as [rest Ht].
  rewrite (step_HttpSettled w call _ k rest Hrun Ht). simpl.
  rewrite bridge_relay_send. simpl. rewrite Hid. unfold getResponse.
  rewrite ?bridge_forget_call. split; [|reflexivity].
  destruct (Map_get _ _) eqn:E.
  - now apply (Map_size_set_present _ _ _ t).
  - now apply Map_size_set_absent.
Qed.

Lemma success_adds_one_entry_per_id_witness :
  cacheSize (getStats (bridge (step world_awaiting (HttpSettled 0 (Return reply_4)))))
  = 1.
Proof.
  apply (success_adds_one_entry_per_id world_awaiting 0 _ reply_4 "msg-2"
           eq_refl eq_refl eq_refl).
Defined.

Lemma Map_get_set_not_string {V : Type} (m : JsMap V) k v id :
  (forall id', k <> JStr id') ->
  Map_get (Map_set m k v) (JStr id) = Map_get m (JStr id).
Proof.
  intros Hk. induction m as [|[k1 v1] rest IH]; simpl.
  - destruct k; simpl; try reflexivity. now destruct (Hk s).
  - destruct (same_value_zero k1 k) eqn:E1; simpl.
    + destruct (same_value_zero k1 (JStr id)) eqn:E2; [|reflexivity].
      destruct k1; simpl in E2; try discriminate.
      destruct k; simpl in E1; try discriminate. now destruct (Hk s0).
    + now rewrite IH.
Qed.

(** X26. An identifier that is not a string is out of the reach of
    [getResponse].  The [id] of a message is not checked to be a string;
    when the backend call of a request whose identifier is a number, [true],
    an array or an object settles, a response may be cached under that
    identifier, and yet [getResponse], which looks up strings, gives for
    every identifier what it gave before. *)
Theorem non_string_id_is_out_of_reach :
  forall (w : World) (call : nat) (k : InFlight) (reply : result GenerateData),
    exited w = None ->
    pending w call = Some k ->
    (forall id, SemanticRequest.id (call_request k) <> JStr id) ->
    forall id,
      getResponse (bridge (step w (HttpSettled call reply))) id
      = getResponse (bridge w) id.
Proof.
  intros w call k reply Hrun Hk Hid id.
  destruct (pending_take_call w call k Hk) as [rest Ht].
  rewrite (step_HttpSettled w call _ k rest Hrun Ht).
  destruct (OllamaClient.generate_settled _ _ _ reply _ _);
    rewrite bridge_relay_send; simpl; rewrite ?bridge_forget_call;
    [|reflexivity].
  unfold getResponse. simpl. now apply Map_get_set_not_string.
Qed.

Lemma non_string_id_is_out_of_reach_witness :
  cacheSize
    (getStats
       (bridge (run world_connected
                  [WsMessage 0 (request_message (JNum (num_of_Z 7)));
                   HttpSettled 0 (Return reply_4)]))) = 1 /\
  getResponse
    (bridge (run world_connected
               [WsMessage 0 (request_message (JNum (num_of_Z 7)));
                HttpSettled 0 (Return reply_4)])) "7" = None.
Proof.
  split; [reflexivity|].
  apply (non_string_id_is_out_of_reach
           (run world_connected [WsMessage 0 (request_message (JNum (num_of_Z 7)))])
           0 _ (Return reply_4) eq_refl eq_refl).
  intros id. discriminate.
Defined.

(** X27. A call of the backend is never given up: a request whose call is in
    flight stays in flight, with what it holds, through any events (other
    requests, other calls that settle, the link that closes and is made
    again) until its own call settles. *)
Theorem call_in_flight_is_kept :
  forall (w : World) (es : list Event) (call : nat) (k : InFlight),
    pending w call = Some k ->
    Forall (fun e => ~ settles call e) es ->
    pending (run w es) call = Some k.
Proof. intros w es call k. apply run_pending. Qed.

Lemma call_in_flight_is_kept_witness :
  pending (run world_awaiting [WsClose 0; TimerFired; WsOpen 1]) 0
  = pending world_awaiting 0.
Proof.
  apply (call_in_flight_is_kept world_awaiting [WsClose 0; TimerFired; WsOpen 1] 0).
  - reflexivity.
  - repeat constructor; simpl; tauto.
Defined.

(* ------------------------------------------------------------------ *)
(** * Configuration                                                     *)
(* ------------------------------------------------------------------ *)

(** X28. A variable of the environment that is set to the empty string counts
    as unset: the configuration is the one of the environment without
    it. *)
Theorem empty_variable_is_unset :
  forall env : string -> option string,
    configuration env
    = configuration (fun name =>
                       match env name with
                       | Some text => if text =? "" then None else Some text
                       | None => None
                       end).
Proof.
  intros env. unfold configuration, env_or.
  destruct (env "FEDERATION_HOST") as [a|]; [destruct (a =? "") eqn:Ea|];
  destruct (env "FEDERATION_PORT") as [b|]; try destruct (b =? "") eqn:Eb;
  destruct (env "BRIDGE_PORT") as [c|]; try destruct (c =? "") eqn:Ec;
  destruct (env "OLLAMA_URL") as [d|]; try destruct (d =? "") eqn:Ed;
  destruct (env "SEMANTIC_MODEL") as [e|]; try destruct (e =? "") eqn:Ee;
  rewrite ?Ea, ?Eb, ?Ec, ?Ed, ?Ee; reflexivity.
Qed.
